(** * ProGuardian: the security boundary, embedded and verified

    A shallow embedding of the security-relevant JavaScript sources of the
    ProGuardian CLI:

    - [src/utils/errors.js]         (module [Errors], with the regular
                                     expressions of [sanitizeErrorMessage]),
    - [src/utils/validation.js]     (modules [Validation], [Shell] and
                                     [Options]),
    - [src/utils/file-security.js]  (modules [FileSecurity] and
                                     [Directories]),
    - [src/utils/cli-detector.js]   (module [CliDetector]),
    - [src/wrapper/claude-wrapper.js] (module [Wrapper]),
    - [src/commands/init.js]        (module [Init]),

    over small executable models of the platform they run on: JavaScript
    strings (module [Str]), regular expressions (module [Regex]), Node's POSIX
    [path] module (module [Path]), a file system (module [Fs]) and [JSON]
    (module [Json]).

    Strings are byte strings: a JavaScript string is represented by its
    UTF-8 encoding, which leaves every ASCII character in place. *)

From Stdlib Require Import String Ascii List ZArith NArith Lia Bool.
From Stdlib Require Import DecimalString DecimalPos DecimalFacts.
From stdpp Require Import base strings gmap list.

Open Scope string_scope.

(** ** JavaScript string primitives *)

Module Str.

(** [s.startsWith(p)] *)
Definition startsWith (s p : string) : bool := String.prefix p s.

(** [s.includes(p)] *)
Fixpoint includes (s p : string) : bool :=
  String.prefix p s ||
  match s with
  | EmptyString => false
  | String _ s' => includes s' p
  end.

(** The characters that are awkward to write inside a string literal. *)
Definition dquote : ascii := "034"%char.
Definition newline : ascii := "010"%char.
Definition carriage_return : ascii := "013"%char.
Definition tab : ascii := "009"%char.
Definition nul : ascii := "000"%char.

Definition of_char (c : ascii) : string := String c EmptyString.

(** [\s] restricted to ASCII: space, TAB, LF, VT, FF and CR. *)
Definition is_space (c : ascii) : bool :=
  let n := nat_of_ascii c in
  ((n =? 32) || ((9 <=? n) && (n <=? 13)))%nat.

Definition is_digit (c : ascii) : bool :=
  let n := nat_of_ascii c in ((48 <=? n) && (n <=? 57))%nat.

Definition is_alpha (c : ascii) : bool :=
  let n := nat_of_ascii c in
  (((65 <=? n) && (n <=? 90)) || ((97 <=? n) && (n <=? 122)))%nat.

(** [\w] *)
Definition is_word (c : ascii) : bool :=
  is_alpha c || is_digit c || Ascii.eqb c "_".

(** [s.indexOf(p)], or [-1]. *)
Fixpoint indexOf (s p : string) : Z :=
  if String.prefix p s then 0%Z
  else
    match s with
    | EmptyString => (-1)%Z
    | String _ s' =>
        let i := indexOf s' p in
        if (i <? 0)%Z then (-1)%Z else (i + 1)%Z
    end.

(** [s.substring(0, finish)] *)
Definition substring_to (finish : Z) (s : string) : string :=
  String.substring 0 (Z.to_nat finish) s.

(** [s.trim()], on ASCII white space. *)
Fixpoint trimStart (s : string) : string :=
  match s with
  | String c s' => if is_space c then trimStart s' else s
  | EmptyString => EmptyString
  end.

Fixpoint trimEnd (s : string) : string :=
  match s with
  | EmptyString => EmptyString
  | String c s' =>
      match trimEnd s' with
      | EmptyString => if is_space c then EmptyString else of_char c
      | t => String c t
      end
  end.

Definition trim (s : string) : string := trimEnd (trimStart s).

(** [s.split(sep)] for a one-character separator. *)
Fixpoint split (sep : ascii) (s : string) : list string :=
  match s with
  | EmptyString => [EmptyString]
  | String c s' =>
      if Ascii.eqb c sep then EmptyString :: split sep s'
      else match split sep s' with
           | seg :: segs => String c seg :: segs
           | [] => [of_char c]
           end
  end.

(** [parts.join(sep)] *)
Definition join (sep : string) (parts : list string) : string :=
  String.concat sep parts.

(** The length of a string in bytes, as a binary number. *)
Fixpoint size (s : string) : N :=
  match s with
  | EmptyString => 0%N
  | String _ s' => N.succ (size s')
  end.

(** [c.repeat(n)] for a one-character string. *)
Definition repeat (c : ascii) (n : N) : string :=
  N.iter n (String c) EmptyString.

(** [String(n)] for a natural number. *)
Definition of_N (n : N) : string :=
  DecimalString.NilEmpty.string_of_uint (N.to_uint n).

End Str.

(** ** Regular expressions

    The fragment of ECMAScript regular expressions that
    [sanitizeErrorMessage] uses, with the backtracking semantics of the
    language specification: greedy quantifiers, capture groups (never
    referred to), [\b], and a negative look-behind on a literal. *)

Module Regex.

(** The members of a character class [[...]]. *)
Inductive cset : Type :=
| CChar (c : ascii)
| CRange (lo hi : ascii)
| CSpace                        (* \s *)
| CDigit                        (* \d *)
| CWord.                        (* \w *)

Definition in_cset (c : ascii) (i : cset) : bool :=
  match i with
  | CChar d => Ascii.eqb c d
  | CRange lo hi =>
      ((nat_of_ascii lo <=? nat_of_ascii c) && (nat_of_ascii c <=? nat_of_ascii hi))%nat
  | CSpace => Str.is_space c
  | CDigit => Str.is_digit c
  | CWord => Str.is_word c
  end.

Inductive regex : Type :=
| Eps
| Lit (c : ascii)
| Cls (negated : bool) (items : list cset)
| Cat (r1 r2 : regex)
| Rep (r : regex) (lo : nat) (hi : option nat)   (* r{lo,hi}, greedy *)
| Grp (r : regex)                                (* (r) and (?:r) *)
| WordBoundary                                   (* \b *)
| NotBehind (lit : string).                      (* (?<!lit) *)

Definition Seq (rs : list regex) : regex := fold_right Cat Eps rs.
Definition Plus (r : regex) : regex := Rep r 1 None.
Definition Star (r : regex) : regex := Rep r 0 None.

Definition in_class (negated : bool) (items : list cset) (c : ascii) : bool :=
  xorb negated (existsb (in_cset c) items).

Definition word_at (l : list ascii) : bool :=
  match l with
  | c :: _ => Str.is_word c
  | [] => false
  end.

(** [lit] read backwards is a prefix of the reversed text before the
    current position. *)
Fixpoint behind (rev_lit before : list ascii) : bool :=
  match rev_lit, before with
  | [], _ => true
  | c :: l, d :: b => Ascii.eqb c d && behind l b
  | _ :: _, [] => false
  end.

(** A position in the subject: the text before it, reversed, and the text
    after it. *)
Definition cont : Type := list ascii -> list ascii -> option (list ascii * list ascii).

(** [rmatch r before after k]: match [r] at the position, then continue
    with [k]; [None] is failure, which makes the caller backtrack. *)
Fixpoint rmatch (r : regex) (before after : list ascii) (k : cont)
  : option (list ascii * list ascii) :=
  match r with
  | Eps => k before after
  | Lit c =>
      match after with
      | d :: after' => if Ascii.eqb c d then k (d :: before) after' else None
      | [] => None
      end
  | Cls negated items =>
      match after with
      | d :: after' =>
          if in_class negated items d then k (d :: before) after' else None
      | [] => None
      end
  | Cat r1 r2 =>
      rmatch r1 before after (fun b a => rmatch r2 b a k)
  | Grp r1 => rmatch r1 before after k
  | WordBoundary =>
      if xorb (word_at before) (word_at after) then k before after else None
  | NotBehind lit =>
      if behind (rev (list_ascii_of_string lit)) before then None
      else k before after
  | Rep r1 lo hi =>
      (fix loop (fuel count : nat) (before after : list ascii)
         : option (list ascii * list ascii) :=
         match fuel with
         | O => None
         | S fuel' =>
             if match hi with Some h => (h <=? count)%nat | None => false end
             then k before after
             else
               match
                 rmatch r1 before after
                   (fun b a =>
                      if ((lo <=? count) && (length a =? length after))%nat
                      then None          (* an empty iteration is refused *)
                      else loop fuel' (S count) b a)
               with
               | Some res => Some res
               | None => if (count <? lo)%nat then None else k before after
               end
         end) (S (lo + length after)) 0 before after
  end.

(** [subject.replace(/r/g, by)], for a replacement text without [$]. *)
Fixpoint replace_from (r : regex) (by_ : list ascii) (fuel : nat)
  (before after : list ascii) : list ascii :=
  match fuel with
  | O => after
  | S fuel' =>
      match rmatch r before after (fun b a => Some (b, a)) with
      | Some (b, a) =>
          if (length a =? length after)%nat
          then match after with
               | c :: after' => by_ ++ c :: replace_from r by_ fuel' (c :: before) after'
               | [] => by_
               end
          else by_ ++ replace_from r by_ fuel' b a
      | None =>
          match after with
          | c :: after' => c :: replace_from r by_ fuel' (c :: before) after'
          | [] => []
          end
      end
  end.

Definition replace (r : regex) (by_ : string) (subject : string) : string :=
  let s := list_ascii_of_string subject in
  string_of_list_ascii
    (replace_from r (list_ascii_of_string by_) (S (length s)) [] s).

End Regex.

(** ** Node's [path] module, POSIX flavour

    [path.resolve], [path.normalize], [path.dirname], [path.basename] and
    [path.join] as Node implements them on POSIX systems.  Node's
    [normalizeString] walks the characters and keeps the segments seen so
    far in a string; here the same walk is done segment by segment, with the
    kept segments on a stack (most recent first). *)

Module Path.

Definition is_absolute (p : string) : bool :=
  match p with
  | String "/" _ => true
  | _ => false
  end.

Definition ends_with_slash (p : string) : bool :=
  match rev (list_ascii_of_string p) with
  | "/"%char :: _ => true
  | _ => false
  end.

(** One segment of [normalizeString]: empty segments and [.] are dropped,
    [..] removes the last kept segment unless that is itself [..] (or there
    is none), in which case it is kept only when [allowAboveRoot]. *)
Definition normalize_step (allowAboveRoot : bool) (kept : list string) (seg : string)
  : list string :=
  if String.eqb seg "" || String.eqb seg "." then kept
  else if String.eqb seg ".." then
    match kept with
    | top :: below =>
        if String.eqb top ".." then
          if allowAboveRoot then ".." :: kept else kept
        else below
    | [] => if allowAboveRoot then [".."] else []
    end
  else seg :: kept.

Definition normalizeString (p : string) (allowAboveRoot : bool) : string :=
  Str.join "/" (rev (fold_left (normalize_step allowAboveRoot) (Str.split "/" p) [])).

(** The loop of [path.resolve]: from the last argument to the first, then
    the current directory, until an absolute path has been prepended. *)
Fixpoint resolve_prepend (cwd : string) (rev_args : list string) (resolvedPath : string)
  : string * bool :=
  match rev_args with
  | [] =>
      if String.eqb cwd "" then (resolvedPath, false)
      else (cwd ++ "/" ++ resolvedPath, is_absolute cwd)
  | p :: rest =>
      if String.eqb p "" then resolve_prepend cwd rest resolvedPath
      else if is_absolute p then (p ++ "/" ++ resolvedPath, true)
      else resolve_prepend cwd rest (p ++ "/" ++ resolvedPath)
  end.

(** [path.resolve(...args)] in a process whose working directory is [cwd]. *)
Definition resolve (cwd : string) (args : list string) : string :=
  let '(resolvedPath, resolvedAbsolute) := resolve_prepend cwd (rev args) "" in
  let resolvedPath := normalizeString resolvedPath (negb resolvedAbsolute) in
  if resolvedAbsolute then "/" ++ resolvedPath
  else if String.eqb resolvedPath "" then "." else resolvedPath.

(** [path.normalize(p)] *)
Definition normalize (p : string) : string :=
  if String.eqb p "" then "."
  else
    let isAbsolute := is_absolute p in
    let trailingSeparator := ends_with_slash p in
    let q := normalizeString p (negb isAbsolute) in
    if String.eqb q "" then
      if isAbsolute then "/" else if trailingSeparator then "./" else "."
    else
      let q := if trailingSeparator then q ++ "/" else q in
      if isAbsolute then "/" ++ q else q.

(** [path.join(...args)] *)
Definition join (args : list string) : string :=
  let joined := Str.join "/" (filter (fun a => negb (String.eqb a "")) args) in
  if String.eqb joined "" then "." else normalize joined.

Fixpoint drop_slashes (l : list ascii) : list ascii :=
  match l with
  | "/"%char :: l' => drop_slashes l'
  | _ => l
  end.

Fixpoint drop_segment (l : list ascii) : list ascii :=
  match l with
  | [] => []
  | "/"%char :: _ => l
  | _ :: l' => drop_segment l'
  end.

Fixpoint take_segment (l : list ascii) : list ascii :=
  match l with
  | [] => []
  | "/"%char :: _ => []
  | c :: l' => c :: take_segment l'
  end.

(** [path.dirname(p)]: the scan runs from the end of [p] down to its second
    character; [end] is the position of the separator found. *)
Definition dirname (p : string) : string :=
  match p with
  | EmptyString => "."
  | String first tail =>
      let hasRoot := Ascii.eqb first "/" in
      match drop_segment (drop_slashes (rev (list_ascii_of_string tail))) with
      | [] => if hasRoot then "/" else "."
      | _ :: rev_before =>
          if hasRoot && (length rev_before =? 0)%nat then "//"
          else String first (string_of_list_ascii (rev rev_before))
      end
  end.

(** [path.basename(p)] *)
Definition basename (p : string) : string :=
  string_of_list_ascii
    (rev (take_segment (drop_slashes (rev (list_ascii_of_string p))))).

End Path.

(** ** [src/utils/errors.js] *)

Module Errors.
Import Regex.

Definition hex : regex := Cls false [CRange "0" "9"; CRange "a" "f"; CRange "A" "F"].
Definition hex_group : regex := Grp (Cat (Rep hex 1 (Some 4)) (Lit ":")).
(** [[^\s\x22'<>|]], where \x22 stands for the double quote *)
Definition path_char : regex :=
  Cls true [CSpace; CChar Str.dquote; CChar "'"; CChar "<"; CChar ">"; CChar "|"].
(** [[\\/]] *)
Definition slash : regex := Cls false [CChar "\"; CChar "/"].

(** [/([0-9a-fA-F]{1,4}:){7}[0-9a-fA-F]{1,4}/g] *)
Definition re_ipv6_full : regex :=
  Cat (Rep hex_group 7 (Some 7)) (Rep hex 1 (Some 4)).
(** [/([0-9a-fA-F]{1,4}:){1,7}:/g] *)
Definition re_ipv6_compressed_tail : regex :=
  Cat (Rep hex_group 1 (Some 7)) (Lit ":").
(** [/:([0-9a-fA-F]{1,4}:){1,7}/g] *)
Definition re_ipv6_compressed_head : regex :=
  Cat (Lit ":") (Rep hex_group 1 (Some 7)).
(** [/([0-9a-fA-F]{1,4}:){2,}[0-9a-fA-F]{0,4}/g] *)
Definition re_ipv6_like : regex :=
  Cat (Rep hex_group 2 None) (Rep hex 0 (Some 4)).
(** [/\.{1,2}([\\/][^\s\x22'<>|]* )+/g] (the space is not part of it) *)
Definition re_relative_path : regex :=
  Cat (Rep (Lit ".") 1 (Some 2)) (Plus (Grp (Cat slash (Star path_char)))).
(** [/[a-zA-Z]:[\\//][^\s\x22'<>|]+/g] *)
Definition re_windows_path : regex :=
  Seq [Cls false [CRange "a" "z"; CRange "A" "Z"]; Lit ":";
       Cls false [CChar "\"; CChar "/"; CChar "/"]; Plus path_char].
(** [/(?<!<path>)\/[^\s\x22'<>|]+/g] *)
Definition re_unix_path : regex :=
  Seq [NotBehind "<path>"; Lit "/"; Plus path_char].
(** [/\\\\[^\s\x22'<>|]+/g] *)
Definition re_unc_path : regex :=
  Seq [Lit "\"; Lit "\"; Plus path_char].
(** [/[0-9a-fA-F]{8}-[0-9a-fA-F]{4}-[0-9a-fA-F]{4}-[0-9a-fA-F]{4}-[0-9a-fA-F]{12}/g] *)
Definition re_uuid : regex :=
  Seq [Rep hex 8 (Some 8); Lit "-"; Rep hex 4 (Some 4); Lit "-";
       Rep hex 4 (Some 4); Lit "-"; Rep hex 4 (Some 4); Lit "-";
       Rep hex 12 (Some 12)].
(** [/\b\d{4,}\b/g] *)
Definition re_id : regex :=
  Seq [WordBoundary; Rep (Cls false [CDigit]) 4 None; WordBoundary].
(** [/\b[A-Za-z0-9._%+-]+@[A-Za-z0-9.-]+\.[A-Z|a-z]{2,}\b/g] *)
Definition re_email : regex :=
  Seq [WordBoundary;
       Plus (Cls false [CRange "A" "Z"; CRange "a" "z"; CRange "0" "9";
                        CChar "."; CChar "_"; CChar "%"; CChar "+"; CChar "-"]);
       Lit "@";
       Plus (Cls false [CRange "A" "Z"; CRange "a" "z"; CRange "0" "9";
                        CChar "."; CChar "-"]);
       Lit ".";
       Rep (Cls false [CRange "A" "Z"; CChar "|"; CRange "a" "z"]) 2 None;
       WordBoundary].
(** [/\b(?:\d{1,3}\.){3}\d{1,3}\b/g] *)
Definition re_ipv4 : regex :=
  Seq [WordBoundary;
       Rep (Grp (Cat (Rep (Cls false [CDigit]) 1 (Some 3)) (Lit "."))) 3 (Some 3);
       Rep (Cls false [CDigit]) 1 (Some 3);
       WordBoundary].
(** [/\b[a-fA-F0-9]{32,}\b/g] *)
Definition re_hex_token : regex :=
  Seq [WordBoundary;
       Rep (Cls false [CRange "a" "f"; CRange "A" "F"; CRange "0" "9"]) 32 None;
       WordBoundary].
(** [/[A-Za-z0-9+/]{20,}={0,2}/g] *)
Definition re_base64_token : regex :=
  Cat (Rep (Cls false [CRange "A" "Z"; CRange "a" "z"; CRange "0" "9";
                       CChar "+"; CChar "/"]) 20 None)
      (Rep (Lit "=") 0 (Some 2)).

(** [sanitizeErrorMessage(message)], for a message that is a string. *)
Definition sanitizeErrorMessage (message : string) : string :=
  let safe := message in
  let safe := replace re_ipv6_full "<ip>" safe in
  let safe := replace re_ipv6_compressed_tail "<ip>" safe in
  let safe := replace re_ipv6_compressed_head "<ip>" safe in
  let safe := replace re_ipv6_like "<ip>" safe in
  let safe := replace re_relative_path "<path>" safe in
  let safe := replace re_windows_path "<path>" safe in
  let safe := replace re_unix_path "<path>" safe in
  let safe := replace re_unc_path "<path>" safe in
  let safe := replace re_uuid "<uuid>" safe in
  let safe := replace re_id "<id>" safe in
  let safe := replace re_email "<email>" safe in
  let safe := replace re_ipv4 "<ip>" safe in
  let safe := replace re_hex_token "<token>" safe in
  let safe := replace re_base64_token "<token>" safe in
  safe.

(** The error objects of the program.  Every object stores the message
    computed by its constructor; the other components are the own
    properties the constructor sets. *)
Inductive error : Type :=
| NativeError (message : string) (code : option string)
| MkSecurityError (message : string) (details : list (string * string))
| MkPathTraversalError (message : string) (details : list (string * string))
    (attemptedPath : string)
| MkCommandInjectionError (message : string) (details : list (string * string))
    (command : string)
| MkValidationError (message field requirement : string) (value : option string)
| MkPermissionError (message operation : string).

(** [error.message], the text that is displayed. *)
Definition message (e : error) : string :=
  match e with
  | NativeError m _ => m
  | MkSecurityError m _ => m
  | MkPathTraversalError m _ _ => m
  | MkCommandInjectionError m _ _ => m
  | MkValidationError m _ _ _ => m
  | MkPermissionError m _ => m
  end.

(** [error.code] *)
Definition code (e : error) : option string :=
  match e with
  | NativeError _ c => c
  | MkSecurityError _ _ | MkPathTraversalError _ _ _
  | MkCommandInjectionError _ _ _ => Some "SECURITY_ERROR"
  | MkValidationError _ _ _ _ => Some "VALIDATION_ERROR"
  | MkPermissionError _ _ => Some "PERMISSION_ERROR"
  end.

(** [error.name], which is [this.constructor.name]. *)
Definition name (e : error) : string :=
  match e with
  | NativeError _ _ => "Error"
  | MkSecurityError _ _ => "SecurityError"
  | MkPathTraversalError _ _ _ => "PathTraversalError"
  | MkCommandInjectionError _ _ _ => "CommandInjectionError"
  | MkValidationError _ _ _ _ => "ValidationError"
  | MkPermissionError _ _ => "PermissionError"
  end.

(** [error instanceof SecurityError] *)
Definition instanceof_SecurityError (e : error) : bool :=
  match e with
  | MkSecurityError _ _ | MkPathTraversalError _ _ _
  | MkCommandInjectionError _ _ _ => true
  | _ => false
  end.

Definition instanceof_ValidationError (e : error) : bool :=
  match e with MkValidationError _ _ _ _ => true | _ => false end.

Definition instanceof_PermissionError (e : error) : bool :=
  match e with MkPermissionError _ _ => true | _ => false end.

Definition instanceof_PathTraversalError (e : error) : bool :=
  match e with MkPathTraversalError _ _ _ => true | _ => false end.

Definition instanceof_CommandInjectionError (e : error) : bool :=
  match e with MkCommandInjectionError _ _ _ => true | _ => false end.

(** [new SecurityError(message, details = {})] *)
Definition SecurityError (message : string) (details : list (string * string)) : error :=
  let safeMessage := sanitizeErrorMessage message in
  MkSecurityError safeMessage details.

(** [new ValidationError(field, requirement, value = undefined)] *)
Definition ValidationError (field requirement : string) (value : option string) : error :=
  let message := "Invalid " ++ field ++ ": " ++ requirement in
  let message :=
    match value with
    | Some v => message ++ " (got: " ++ sanitizeErrorMessage v ++ ")"
    | None => message
    end in
  MkValidationError message field requirement value.

(** [new PermissionError(operation, filePath)] *)
Definition PermissionError (operation filePath : string) : error :=
  let safePath := if String.eqb filePath "" then "file" else Path.basename filePath in
  MkPermissionError ("Permission denied: Cannot " ++ operation ++ " " ++ safePath) operation.

(** [new PathTraversalError(attemptedPath)]: the super-constructor call
    [super('Invalid path: Path traversal attempt detected')], then the
    assignment of [this.attemptedPath]. *)
Definition PathTraversalError (attemptedPath : string) : error :=
  match SecurityError "Invalid path: Path traversal attempt detected" [] with
  | MkSecurityError m d => MkPathTraversalError m d attemptedPath
  | e => e
  end.

(** [new CommandInjectionError(command)] *)
Definition CommandInjectionError (command : string) : error :=
  match SecurityError "Invalid command: Potentially unsafe characters detected" [] with
  | MkSecurityError m d => MkCommandInjectionError m d command
  | e => e
  end.

(** What [handleError(error, { exit: true })] writes to the error stream
    before it calls [process.exit(1)]; [verbose] is off. *)
Definition handleError (e : error) : list string :=
  if instanceof_SecurityError e then ["Security violation: " ++ message e]
  else if instanceof_ValidationError e then ["Validation failed: " ++ message e]
  else if instanceof_PermissionError e then ["Permission denied: " ++ message e]
  else ["An unexpected error occurred"].

(** The outcome of a call that may throw. *)
Inductive result (A : Type) : Type :=
| Ok (a : A)
| Throw (e : error).
Arguments Ok {A} a.
Arguments Throw {A} e.

End Errors.

(** ** [src/utils/validation.js] *)

Module Validation.
Import Errors.

Definition suspicious : list string :=
  [".."; "./"; "~"; "$"; "`"; "|"; ";"; "&"; ">"; "<"; "\"].

(** [validateSafePath(targetPath, basePath = process.cwd())], in a process
    whose working directory is [cwd]. *)
Definition validateSafePath (cwd : string) (targetPath basePath : string)
  : result string :=
  if String.eqb targetPath "" then
    Throw (ValidationError "path" targetPath (Some "Path cannot be empty"))
  else
    let resolvedTarget := Path.resolve cwd [basePath; targetPath] in
    let resolvedBase := Path.resolve cwd [basePath] in
    if negb (Str.startsWith resolvedTarget resolvedBase) then
      Throw (PathTraversalError targetPath)
    else
      let normalizedPath := Path.normalize targetPath in
      if existsb (fun pattern => Str.includes normalizedPath pattern) suspicious
      then Throw (PathTraversalError targetPath)
      else Ok resolvedTarget.

(** [sanitizePath(inputPath)] *)
Definition sanitizePath (cwd : string) (inputPath : string) : result string :=
  if String.eqb inputPath "" then
    Throw (ValidationError "path" inputPath (Some "Path must be a non-empty string"))
  else if Str.includes inputPath (Str.of_char Str.nul) then
    Throw (PathTraversalError inputPath)
  else
    let sanitized := Path.normalize inputPath in
    let sanitized := Str.trim sanitized in
    validateSafePath cwd sanitized cwd.

Definition dangerousChars : list string :=
  ["|"; ";"; "&"; "$"; "`"; ">"; "<"; "("; ")"; "{"; "}"; "["; "]"].

(** [validateCommand(command)] *)
Definition validateCommand (command : string) : result string :=
  if String.eqb command "" then
    Throw (ValidationError "command" command (Some "Command must be a non-empty string"))
  else if Str.includes command (Str.of_char Str.newline)
          || Str.includes command (Str.of_char Str.carriage_return) then
    Throw (CommandInjectionError command)
  else if existsb (fun char => Str.includes command char) dangerousChars then
    Throw (CommandInjectionError command)
  else Ok command.

End Validation.

(** ** [JSON]

    JSON texts and the values they denote.  A number is an integer: the
    values of the program's records are strings, booleans and small
    integers, and the fractional and exponent parts of a number would need
    floating point.  The members of an object are kept in enumeration order
    and have distinct keys. *)

Module Json.
Local Open Scope list_scope.

#[warnings="-register-all"]
Inductive json : Type :=
| JNull
| JBool (b : bool)
| JNumber (n : Z)
| JString (s : string)
| JArray (elements : list json)
| JObject (members : list (string * json)).

(** The trees that stand for JavaScript values: the keys of an object are
    distinct, and a number is an integer that a double holds exactly. *)
Fixpoint representable (x : json) : bool :=
  match x with
  | JNull | JBool _ | JString _ => true
  | JNumber n => (Z.abs n <=? 9007199254740991)%Z
  | JArray elements => forallb representable elements
  | JObject members =>
      bool_decide (NoDup (map fst members))
      && forallb (fun m => representable (snd m)) members
  end.

(** *** JavaScript values in memory

    What [JSON.stringify] is given: a primitive, or a reference to an array
    or an object in the heap, whose components are values again.  This is
    where cyclic structures live. *)

Definition loc : Type := nat.

Inductive value : Type :=
| VNull
| VBool (b : bool)
| VNumber (n : Z)
| VString (s : string)
| VRef (l : loc).

Inductive cell : Type :=
| CArray (elements : list value)
| CObject (properties : list (string * value)).

Abbreviation heap := (gmap loc cell).

Definition children (c : cell) : list value :=
  match c with
  | CArray elements => elements
  | CObject properties => map snd properties
  end.

(** [mapM] for [option]. *)
Fixpoint all_some {A} (l : list (option A)) : option (list A) :=
  match l with
  | [] => Some []
  | Some a :: l' => option_map (cons a) (all_some l')
  | None :: _ => None
  end.

(** The walk of [SerializeJSONProperty], [SerializeJSONObject] and
    [SerializeJSONArray] through the heap: [stack] holds the objects being
    serialized, and meeting one of them again is the cyclic-structure
    [TypeError] ([None]).  The walk yields the tree that is written out. *)
Fixpoint walk (h : heap) (fuel : nat) (stack : list loc) (v : value) : option json :=
  match v with
  | VNull => Some JNull
  | VBool b => Some (JBool b)
  | VNumber n => Some (JNumber n)
  | VString s => Some (JString s)
  | VRef l =>
      if bool_decide (l ∈ stack) then None
      else
        match fuel with
        | O => None
        | S fuel' =>
            match h !! l with
            | None => None
            | Some (CArray elements) =>
                option_map JArray
                  (all_some (map (walk h fuel' (l :: stack)) elements))
            | Some (CObject properties) =>
                option_map JObject
                  (all_some
                     (map (fun kv => option_map (pair (fst kv))
                                       (walk h fuel' (l :: stack) (snd kv)))
                          properties))
            end
        end
  end.

(** The stack never holds more objects than the heap has, so this much
    fuel is never used up. *)
Definition tree_of (h : heap) (v : value) : option json :=
  walk h (size h) [] v.

(** *** Writing *)

Definition chars (s : string) : list ascii := list_ascii_of_string s.

Definition hex_digit (n : N) : ascii :=
  if (n <? 10)%N then ascii_of_N (48 + n) else ascii_of_N (87 + n).

(** One character of [QuoteJSONString]. *)
Definition escape (c : ascii) : list ascii :=
  let n := N_of_ascii c in
  if (n =? 8)%N then chars "\b"
  else if (n =? 9)%N then chars "\t"
  else if (n =? 10)%N then chars "\n"
  else if (n =? 12)%N then chars "\f"
  else if (n =? 13)%N then chars "\r"
  else if (n =? 34)%N then ["\"%char; Str.dquote]
  else if (n =? 92)%N then chars "\\"
  else if (n <? 32)%N then
    chars "\u00" ++ [hex_digit (N.shiftr n 4); hex_digit (N.land n 15)]
  else [c].

Definition quote (s : string) : list ascii :=
  Str.dquote :: flat_map escape (chars s) ++ [Str.dquote].

(** [Number::toString] of an integer. *)
Definition print_number (n : Z) : list ascii :=
  match n with
  | Z0 => chars "0"
  | Zpos p => chars (DecimalString.NilEmpty.string_of_uint (Pos.to_uint p))
  | Zneg p => "-"%char :: chars (DecimalString.NilEmpty.string_of_uint (Pos.to_uint p))
  end.

Fixpoint join_with (sep : list ascii) (parts : list (list ascii)) : list ascii :=
  match parts with
  | [] => []
  | [p] => p
  | p :: parts' => p ++ sep ++ join_with sep parts'
  end.

(** A line break followed by the indentation, when there is a gap. *)
Definition line (gap indent : list ascii) : list ascii :=
  match gap with
  | [] => []
  | _ => Str.newline :: indent
  end.

Definition colon (gap : list ascii) : list ascii :=
  match gap with
  | [] => [":"%char]
  | _ => [":"; " "]%char
  end.

Fixpoint print (gap indent : list ascii) (v : json) : list ascii :=
  match v with
  | JNull => chars "null"
  | JBool true => chars "true"
  | JBool false => chars "false"
  | JNumber n => print_number n
  | JString s => quote s
  | JArray [] => chars "[]"
  | JArray elements =>
      let stepback := indent in
      let indent := indent ++ gap in
      "["%char :: line gap indent
        ++ join_with (","%char :: line gap indent) (map (print gap indent) elements)
        ++ line gap stepback ++ ["]"%char]
  | JObject [] => chars "{}"
  | JObject members =>
      let stepback := indent in
      let indent := indent ++ gap in
      "{"%char :: line gap indent
        ++ join_with (","%char :: line gap indent)
             (map (fun m => let '(k, x) := m in quote k ++ colon gap ++ print gap indent x)
                  members)
        ++ line gap stepback ++ ["}"%char]
  end.

(** The gap of [JSON.stringify(value, null, spaces)]: at most ten spaces. *)
Definition gap_of (spaces : nat) : list ascii :=
  List.repeat " "%char (Nat.min spaces 10).

(** [JSON.stringify(data, null, spaces)] for [data] in heap [h]; [None] is
    the [TypeError] for a cyclic structure. *)
Definition stringify (h : heap) (data : value) (spaces : nat) : option string :=
  option_map (fun t => string_of_list_ascii (print (gap_of spaces) [] t)) (tree_of h data).

(** *** Reading *)

Definition is_ws (c : ascii) : bool :=
  let n := N_of_ascii c in
  ((n =? 32) || (n =? 9) || (n =? 10) || (n =? 13))%N.

Fixpoint skip_ws (s : list ascii) : list ascii :=
  match s with
  | c :: s' => if is_ws c then skip_ws s' else s
  | [] => []
  end.

Definition hex_value (c : ascii) : option N :=
  let n := N_of_ascii c in
  if ((48 <=? n) && (n <=? 57))%N then Some (n - 48)%N
  else if ((97 <=? n) && (n <=? 102))%N then Some (n - 87)%N
  else if ((65 <=? n) && (n <=? 70))%N then Some (n - 55)%N
  else None.

Definition hex4 (a b c d : ascii) : option N :=
  match hex_value a, hex_value b, hex_value c, hex_value d with
  | Some x, Some y, Some z, Some w => Some (((x * 16 + y) * 16 + z) * 16 + w)%N
  | _, _, _, _ => None
  end.

(** The UTF-8 encoding of a code point. *)
Definition utf8 (cp : N) : list ascii :=
  let cont n := ascii_of_N (128 + N.land n 63) in
  if (cp <? 128)%N then [ascii_of_N cp]
  else if (cp <? 2048)%N then [ascii_of_N (192 + N.shiftr cp 6); cont cp]
  else if (cp <? 65536)%N then
    [ascii_of_N (224 + N.shiftr cp 12); cont (N.shiftr cp 6); cont cp]
  else
    [ascii_of_N (240 + N.shiftr cp 18); cont (N.shiftr cp 12);
     cont (N.shiftr cp 6); cont cp].

Definition is_high_surrogate (u : N) : bool := ((55296 <=? u) && (u <=? 56319))%N.
Definition is_low_surrogate (u : N) : bool := ((56320 <=? u) && (u <=? 57343))%N.

(** The rest of a string literal, after the opening quote; [acc] holds the
    bytes read so far, reversed. *)
Fixpoint parse_string (s acc : list ascii) {struct s} : option (string * list ascii) :=
  match s with
  | [] => None
  | c :: s1 =>
      if Ascii.eqb c Str.dquote then Some (string_of_list_ascii (rev acc), s1)
      else if Ascii.eqb c "\" then
        match s1 with
        | [] => None
        | e :: s2 =>
            if Ascii.eqb e Str.dquote then parse_string s2 (Str.dquote :: acc)
            else if Ascii.eqb e "\" then parse_string s2 ("\"%char :: acc)
            else if Ascii.eqb e "/" then parse_string s2 ("/"%char :: acc)
            else if Ascii.eqb e "b" then parse_string s2 ("008"%char :: acc)
            else if Ascii.eqb e "f" then parse_string s2 ("012"%char :: acc)
            else if Ascii.eqb e "n" then parse_string s2 ("010"%char :: acc)
            else if Ascii.eqb e "r" then parse_string s2 ("013"%char :: acc)
            else if Ascii.eqb e "t" then parse_string s2 ("009"%char :: acc)
            else if Ascii.eqb e "u" then
              match s2 with
              | h1 :: h2 :: h3 :: h4 :: s3 =>
                  match hex4 h1 h2 h3 h4 with
                  | None => None
                  | Some u =>
                      if is_high_surrogate u then
                        match s3 with
                        | b :: v :: l1 :: l2 :: l3 :: l4 :: s4 =>
                            match hex4 l1 l2 l3 l4 with
                            | Some w =>
                                if Ascii.eqb b "\" && Ascii.eqb v "u" && is_low_surrogate w
                                then parse_string s4
                                       (rev (utf8 (65536 + (u - 55296) * 1024 + (w - 56320))%N)
                                          ++ acc)
                                else parse_string s3 (rev (utf8 u) ++ acc)
                            | None => parse_string s3 (rev (utf8 u) ++ acc)
                            end
                        | _ => parse_string s3 (rev (utf8 u) ++ acc)
                        end
                      else parse_string s3 (rev (utf8 u) ++ acc)
                  end
              | _ => None
              end
            else None
        end
      else if (N_of_ascii c <? 32)%N then None
      else parse_string s1 (c :: acc)
  end.

(** The longest prefix of digits, and what follows it. *)
Fixpoint span_digits (s : list ascii) : list ascii * list ascii :=
  match s with
  | c :: s' =>
      if Str.is_digit c then
        let '(ds, rest) := span_digits s' in (c :: ds, rest)
      else ([], s)
  | [] => ([], [])
  end.

Definition starts_fraction_or_exponent (s : list ascii) : bool :=
  match s with
  | c :: _ => Ascii.eqb c "." || Ascii.eqb c "e" || Ascii.eqb c "E"
  | [] => false
  end.

(** The digits of an integer, without a leading zero; a fraction or an
    exponent is outside the integers and is not read. *)
Definition parse_digits (s : list ascii) : option (N * list ascii) :=
  let '(ds, rest) := span_digits s in
  match ds with
  | [] => None
  | d :: ds' =>
      if Ascii.eqb d "0" && negb (length ds' =? 0)%nat then None
      else if starts_fraction_or_exponent rest then None
      else
        match DecimalString.NilEmpty.uint_of_string (string_of_list_ascii ds) with
        | Some u => Some (N.of_uint u, rest)
        | None => None
        end
  end.

Definition parse_number (s : list ascii) : option (Z * list ascii) :=
  match s with
  | "-"%char :: s' =>
      option_map (fun nr => (Z.opp (Z.of_N (fst nr)), snd nr)) (parse_digits s')
  | _ => option_map (fun nr => (Z.of_N (fst nr), snd nr)) (parse_digits s)
  end.

(** [s] without the prefix [lit]. *)
Fixpoint expect (lit s : list ascii) : option (list ascii) :=
  match lit, s with
  | [], _ => Some s
  | c :: lit', d :: s' => if Ascii.eqb c d then expect lit' s' else None
  | _ :: _, [] => None
  end.

(** Defining a property on an object under construction: a key that is
    already there keeps its place and takes the new value. *)
Fixpoint set_member (members : list (string * json)) (k : string) (x : json)
  : list (string * json) :=
  match members with
  | [] => [(k, x)]
  | (k', x') :: members' =>
      if String.eqb k' k then (k', x) :: members'
      else (k', x') :: set_member members' k x
  end.

Definition define_all (pairs : list (string * json)) : list (string * json) :=
  fold_left (fun members kx => set_member members (fst kx) (snd kx)) pairs [].

Section Parser.
(** The parser of the values nested one level deeper. *)
Variable parse_nested : list ascii -> option (json * list ascii).

(** The elements of a non-empty array, up to and including the closing
    bracket. *)
Fixpoint parse_elements (fuel : nat) (s : list ascii)
  : option (list json * list ascii) :=
  match fuel with
  | O => None
  | S fuel' =>
      match parse_nested s with
      | None => None
      | Some (x, rest) =>
          match skip_ws rest with
          | c :: rest' =>
              if Ascii.eqb c "," then
                match parse_elements fuel' rest' with
                | Some (xs, rest'') => Some (x :: xs, rest'')
                | None => None
                end
              else if Ascii.eqb c "]" then Some ([x], rest')
              else None
          | [] => None
          end
      end
  end.

(** The members of a non-empty object, up to and including the closing
    brace. *)
Fixpoint parse_members (fuel : nat) (s : list ascii)
  : option (list (string * json) * list ascii) :=
  match fuel with
  | O => None
  | S fuel' =>
      match skip_ws s with
      | q :: s1 =>
          if negb (Ascii.eqb q Str.dquote) then None
          else
            match parse_string s1 [] with
            | None => None
            | Some (k, s2) =>
                match skip_ws s2 with
                | c :: s3 =>
                    if negb (Ascii.eqb c ":") then None
                    else
                      match parse_nested s3 with
                      | None => None
                      | Some (x, rest) =>
                          match skip_ws rest with
                          | d :: rest' =>
                              if Ascii.eqb d "," then
                                match parse_members fuel' rest' with
                                | Some (ms, rest'') => Some ((k, x) :: ms, rest'')
                                | None => None
                                end
                              else if Ascii.eqb d "}" then Some ([(k, x)], rest')
                              else None
                          | [] => None
                          end
                      end
                | [] => None
                end
            end
      | [] => None
      end
  end.
End Parser.

Fixpoint parse_value (fuel : nat) (s : list ascii) : option (json * list ascii) :=
  match fuel with
  | O => None
  | S fuel' =>
      match skip_ws s with
      | [] => None
      | c :: s1 =>
          if Ascii.eqb c "n" then
            option_map (pair JNull) (expect (chars "ull") s1)
          else if Ascii.eqb c "t" then
            option_map (pair (JBool true)) (expect (chars "rue") s1)
          else if Ascii.eqb c "f" then
            option_map (pair (JBool false)) (expect (chars "alse") s1)
          else if Ascii.eqb c Str.dquote then
            option_map (fun kr => (JString (fst kr), snd kr)) (parse_string s1 [])
          else if Ascii.eqb c "[" then
            match expect (chars "]") (skip_ws s1) with
            | Some rest => Some (JArray [], rest)
            | None =>
                option_map (fun xr => (JArray (fst xr), snd xr))
                  (parse_elements (parse_value fuel') (length s1) s1)
            end
          else if Ascii.eqb c "{" then
            match expect (chars "}") (skip_ws s1) with
            | Some rest => Some (JObject [], rest)
            | None =>
                option_map (fun mr => (JObject (define_all (fst mr)), snd mr))
                  (parse_members (parse_value fuel') (length s1) s1)
            end
          else
            option_map (fun nr => (JNumber (fst nr), snd nr)) (parse_number (c :: s1))
      end
  end.

(** [JSON.parse(text)]; [None] is the [SyntaxError]. *)
Definition parse (text : string) : option json :=
  let s := chars text in
  match parse_value (S (length s)) s with
  | Some (x, rest) =>
      match skip_ws rest with
      | [] => Some x
      | _ :: _ => None
      end
  | None => None
  end.

End Json.

(** ** The file system

    A file system maps absolute paths to files and directories.  The process
    owns every node, so [access] looks at the owner bits of a node's mode.
    Every primitive that changes the file system records the states it goes
    through: a reader running beside the program sees exactly those. *)

Module Fs.
Import Errors.

Inductive node : Type :=
| File (content : string) (mode : N)
| Dir (mode : N).

Abbreviation fs := (gmap string node).

(** Failures injected into the primitives of one atomic write: [writeFile]
    fails after the given number of bytes, [rename] fails, [unlink]
    fails. *)
Record faults : Type := {
  writeFile_fails_after : option nat;
  rename_fails : bool;
  unlink_fails : bool
}.

Definition no_faults : faults :=
  {| writeFile_fails_after := None; rename_fails := false; unlink_fails := false |}.

(** What the process is given from outside: [process.cwd()], the six bytes
    [crypto.randomBytes(6)] will return, and the injected failures. *)
Record env : Type := {
  cwd : string;
  randomBytes : list ascii;
  injected : faults
}.

(** A computation on the file system: the states it passes through after
    the initial one, the state it ends in, and its outcome. *)
Definition io (A : Type) : Type := fs -> list fs * fs * result A.

Definition ret {A} (a : A) : io A := fun s => ([], s, Ok a).
Definition throw {A} (e : error) : io A := fun s => ([], s, Throw e).
Definition lift {A} (r : result A) : io A := fun s => ([], s, r).

Definition bind {A B} (m : io A) (f : A -> io B) : io B :=
  fun s =>
    match m s with
    | (t1, s1, Ok a) =>
        match f a s1 with
        | (t2, s2, r) => ((t1 ++ t2)%list, s2, r)
        end
    | (t1, s1, Throw e) => (t1, s1, Throw e)
    end.

(** [try { m } catch (error) { handler(error) }] *)
Definition try_catch {A} (m : io A) (handler : error -> io A) : io A :=
  fun s =>
    match m s with
    | (t1, s1, Ok a) => (t1, s1, Ok a)
    | (t1, s1, Throw e) =>
        match handler e s1 with
        | (t2, s2, r) => ((t1 ++ t2)%list, s2, r)
        end
    end.

Definition get : io fs := fun s => ([], s, Ok s).

(** The successive states [states], then [final], which stays. *)
Definition pass_through (states : list fs) (final : fs) : io unit :=
  fun _ => ((states ++ [final])%list, final, Ok tt).

Definition update (f : fs -> fs) : io unit :=
  fun s => ([f s], f s, Ok tt).

#[global] Instance io_ret : MRet io := @ret.
#[global] Instance io_bind : MBind io := fun A B f m => bind m f.

Definition R_OK : N := 4.
Definition W_OK : N := 2.

Definition node_mode (n : node) : N :=
  match n with File _ m => m | Dir m => m end.

(** [fs.access(path, amode)] succeeds. *)
Definition access (s : fs) (p : string) (amode : N) : bool :=
  match s !! p with
  | Some n => N.eqb (N.land (N.shiftr (node_mode n) 6) amode) amode
  | None => false
  end.

Definition pathExists (p : string) : io bool :=
  s ← get; ret (bool_decide (is_Some (s !! p))).

Definition system_error {A} (code syscall : string) : io A :=
  throw (NativeError (code ++ ": " ++ syscall) (Some code)).

(** The directory a new entry [p] is created in must exist and be
    writable. *)
Definition check_parent (syscall : string) (p : string) : io unit :=
  s ← get;
  match s !! Path.dirname p with
  | Some (Dir _) =>
      if access s (Path.dirname p) W_OK then ret tt else system_error "EACCES" syscall
  | Some (File _ _) => system_error "ENOTDIR" syscall
  | None => system_error "ENOENT" syscall
  end.

(** The directories from the root down to [dir]. *)
Fixpoint ancestors (fuel : nat) (dir : string) : list string :=
  match fuel with
  | O => [dir]
  | S fuel' =>
      if String.eqb (Path.dirname dir) dir then [dir]
      else (ancestors fuel' (Path.dirname dir) ++ [dir])%list
  end.

Definition mkdir (p : string) (mode : N) : io unit :=
  s ← get;
  match s !! p with
  | Some (Dir _) => ret tt
  | Some (File _ _) => system_error "EEXIST" "mkdir"
  | None =>
      (if String.eqb (Path.dirname p) p then ret tt else check_parent "mkdir" p) ;;
      update (fun s => <[p := Dir mode]> s)
  end.

Fixpoint mkdirs (ps : list string) (mode : N) : io unit :=
  match ps with
  | [] => ret tt
  | p :: ps' => mkdir p mode ;; mkdirs ps' mode
  end.

(** [fs.ensureDir(dir, mode)] of fs-extra: [mkdir -p]. *)
Definition ensureDir (dir : string) (mode : N) : io unit :=
  mkdirs (ancestors (String.length dir) dir) mode.

(** The first [n] bytes of a string. *)
Definition take_bytes (n : nat) (content : string) : string :=
  String.substring 0 n content.

(** [fs.writeFile(p, content, { mode })]: the file is created or truncated,
    then filled byte by byte; an injected failure stops the filling. *)
Definition writeFile (f : faults) (p : string) (content : string) (mode : N) : io unit :=
  s ← get;
  m ← match s !! p with
      | Some (Dir _) => system_error "EISDIR" "open"
      | Some (File _ m) =>
          if access s p W_OK then ret m else system_error "EACCES" "open"
      | None => check_parent "open" p ;; ret mode
      end;
  let written :=
    match writeFile_fails_after f with
    | Some k => Nat.min k (String.length content)
    | None => String.length content
    end in
  pass_through
    (map (fun n => <[p := File (take_bytes n content) m]> s) (seq 0 written))
    (<[p := File (take_bytes written content) m]> s) ;;
  match writeFile_fails_after f with
  | Some _ => system_error "EIO" "write"
  | None => ret tt
  end.

(** [fs.rename(from, to)]: one step. *)
Definition rename (f : faults) (from to : string) : io unit :=
  if rename_fails f then system_error "EIO" "rename"
  else
    s ← get;
    match s !! from, s !! to with
    | None, _ => system_error "ENOENT" "rename"
    | Some (File _ _), Some (Dir _) => system_error "EISDIR" "rename"
    | Some (Dir _), Some (File _ _) => system_error "ENOTDIR" "rename"
    | Some n, _ =>
        check_parent "rename" from ;;
        check_parent "rename" to ;;
        update (fun s => <[to := n]> (delete from s))
    end.

(** [fs.unlink(p)] *)
Definition unlink (f : faults) (p : string) : io unit :=
  if unlink_fails f then system_error "EIO" "unlink"
  else
    s ← get;
    match s !! p with
    | None => system_error "ENOENT" "unlink"
    | Some (Dir _) => system_error "EISDIR" "unlink"
    | Some (File _ _) =>
        check_parent "unlink" p ;;
        update (fun s => delete p s)
    end.

(** [(await fs.stat(p)).size] *)
Definition stat_size (p : string) : io N :=
  s ← get;
  match s !! p with
  | Some (File content _) => ret (Str.size content)
  | Some (Dir _) => ret 4096%N
  | None => system_error "ENOENT" "stat"
  end.

(** [fs.readFile(p, encoding)] *)
Definition readFile (p : string) : io string :=
  s ← get;
  match s !! p with
  | Some (File content _) =>
      if access s p R_OK then ret content else system_error "EACCES" "open"
  | Some (Dir _) => system_error "EISDIR" "read"
  | None => system_error "ENOENT" "open"
  end.

(** [fs.copy(src, dest, { overwrite })] of fs-extra, for a source that is a
    file: an existing destination is left alone unless [overwrite]. *)
Definition copy (src dest : string) (overwrite : bool) : io unit :=
  s ← get;
  match s !! src with
  | None => system_error "ENOENT" "lstat"
  | Some (Dir _) => system_error "EISDIR" "copyfile"
  | Some (File content mode) =>
      match s !! dest with
      | Some (Dir _) => system_error "EISDIR" "copyfile"
      | Some (File _ _) =>
          if overwrite then update (fun s => <[dest := File content mode]> s)
          else ret tt
      | None =>
          check_parent "copyfile" dest ;;
          update (fun s => <[dest := File content mode]> s)
      end
  end.

(** [Buffer.toString('hex')] *)
Definition hex_digit (n : N) : ascii :=
  if (n <? 10)%N then ascii_of_N (48 + n) else ascii_of_N (87 + n).

Definition to_hex (bytes : list ascii) : string :=
  string_of_list_ascii
    (flat_map (fun b => [hex_digit (N.shiftr (N_of_ascii b) 4);
                         hex_digit (N.land (N_of_ascii b) 15)]) bytes).

End Fs.

(** ** [src/utils/file-security.js] *)

Module FileSecurity.
Import Errors Fs.

Definition default_maxSize : N := 10 * 1024 * 1024.
Definition default_mode : N := 420.      (* 0o644 *)

(** [checkPermissions(filePath, mode)] *)
Definition checkPermissions (filePath : string) (mode : N) : io bool :=
  s ← get; ret (access s filePath mode).

(** [secureReadFile(filePath, { maxSize })] *)
Definition secureReadFile (e : env) (filePath : string) (maxSize : N) : io string :=
  safePath ← lift (Validation.validateSafePath (cwd e) filePath (cwd e));
  readable ← checkPermissions safePath R_OK;
  (if negb readable then throw (PermissionError "read" filePath) else ret tt) ;;
  size ← stat_size safePath;
  (if (maxSize <? size)%N then
     throw (SecurityError
              ("File too large: " ++ Str.of_N size ++ " bytes exceeds maximum of "
                 ++ Str.of_N maxSize ++ " bytes") [])
   else ret tt) ;;
  readFile safePath.

(** [secureWriteFile(filePath, content, { mode })] *)
Definition secureWriteFile (e : env) (filePath content : string) (mode : N) : io unit :=
  safePath ← lift (Validation.validateSafePath (cwd e) filePath (cwd e));
  let dir := Path.dirname safePath in
  ensureDir dir 511 ;;
  dirWritable ← checkPermissions dir W_OK;
  (if negb dirWritable then throw (PermissionError "write to directory" dir) else ret tt) ;;
  exists_ ← pathExists safePath;
  (if exists_ : bool then
     writable ← checkPermissions safePath W_OK;
     if negb writable then throw (PermissionError "write" filePath) else ret tt
   else ret tt) ;;
  let tmpPath := safePath ++ ".tmp." ++ to_hex (randomBytes e) in
  try_catch
    (writeFile (injected e) tmpPath content mode ;;
     rename (injected e) tmpPath safePath)
    (fun error =>
       try_catch (unlink (injected e) tmpPath) (fun _ => ret tt) ;;
       throw error).

(** [secureCopyFile(source, destination, { overwrite })] *)
Definition secureCopyFile (e : env) (source destination : string) (overwrite : bool)
  : io unit :=
  safeSource ← lift (Validation.validateSafePath (cwd e) source (cwd e));
  safeDestination ← lift (Validation.validateSafePath (cwd e) destination (cwd e));
  sourceExists ← pathExists safeSource;
  (if negb sourceExists then
     throw (ValidationError "source" source (Some "File does not exist"))
   else ret tt) ;;
  readable ← checkPermissions safeSource R_OK;
  (if negb readable then throw (PermissionError "read" source) else ret tt) ;;
  destExists ← pathExists safeDestination;
  (if destExists && negb overwrite then
     throw (ValidationError "destination" destination (Some "File already exists"))
   else ret tt) ;;
  let destDir := Path.dirname safeDestination in
  ensureDir destDir 511 ;;
  dirWritable ← checkPermissions destDir W_OK;
  (if negb dirWritable then throw (PermissionError "write to directory" destDir)
   else ret tt) ;;
  copy safeSource safeDestination overwrite.

(** [securePathExists(filePath)] *)
Definition securePathExists (e : env) (filePath : string) : io bool :=
  try_catch
    (safePath ← lift (Validation.validateSafePath (cwd e) filePath (cwd e));
     pathExists safePath)
    (fun _ => ret false).

(** [secureReadJSON(filePath, { maxSize })] *)
Definition secureReadJSON (e : env) (filePath : string) (maxSize : N) : io Json.json :=
  content ← secureReadFile e filePath maxSize;
  match Json.parse content with
  | Some x => ret x
  | None => throw (ValidationError "json" filePath (Some "Invalid JSON format"))
  end.

(** [secureWriteJSON(filePath, data, { spaces, mode })], for [data] in the
    heap [h]. *)
Definition secureWriteJSON (e : env) (filePath : string) (h : Json.heap)
  (data : Json.value) (spaces : nat) (mode : N) : io unit :=
  match Json.stringify h data spaces with
  | None => throw (ValidationError "data" "object" (Some "Cannot serialize to JSON"))
  | Some content => secureWriteFile e filePath content mode
  end.

End FileSecurity.

(** ** [src/wrapper/claude-wrapper.js]

    The messages written to the console are left out; what is kept is what
    the wrapper does to the file system, whether and how it spawns the real
    binary, and the exit code of the process. *)

Module Wrapper.
Import Errors Fs FileSecurity.
Local Open Scope list_scope.

(** The call [spawn(file, args, { stdio: 'inherit', env, shell })]; [env]
    is [None] when the option is absent. *)
Record spawn_call : Type := {
  file : string;
  args : list string;
  env_option : option (gmap string string);
  shell : bool
}.

(** What the child process reports: the ['error'] event with its code, or
    the ['exit'] event with the exit code ([None] when a signal ended it). *)
Inductive child_event : Type :=
| ChildError (code : string)
| ChildExit (code : option Z).

(** A run of the wrapper: the spawn it made, if any, and the code it gave
    to [process.exit]. *)
Record run : Type := {
  spawned : option spawn_call;
  exit_code : Z
}.

(** The test applied to every scanned argument ([typeof arg !== 'string']
    never holds for an element of [process.argv]). *)
Definition invalid_argument (arg : string) : bool :=
  Str.includes arg ";" || Str.includes arg "|" || Str.includes arg "&"
  || Str.includes arg "`" || Str.includes arg "$".

Definition is_context_flag (arg : string) : bool :=
  String.eqb arg "--context-file" || String.eqb arg "-c".

(** The loop over [args] in supervised mode; [None] is
    [process.exit(1)]. *)
Fixpoint scan_args (args : list string) (skipNext : bool) (safeArgs : list string)
  : option (list string) :=
  match args with
  | [] => Some safeArgs
  | arg :: rest =>
      if skipNext then scan_args rest false safeArgs
      else if invalid_argument arg then None
      else
        let safeArgs := safeArgs ++ [arg] in
        if is_context_flag arg then
          scan_args rest true
            (match rest with
             | next :: _ => safeArgs ++ [next]
             | [] => safeArgs
             end)
        else scan_args rest false safeArgs
  end.

(** The loop that looks for a context-file flag followed by [CLAUDE.md]. *)
Fixpoint hasClaudeMd (safeArgs : list string) : bool :=
  match safeArgs with
  | arg :: rest =>
      match rest with
      | next :: _ =>
          if is_context_flag arg && String.eqb next "CLAUDE.md" then true
          else hasClaudeMd rest
      | [] => false
      end
  | [] => false
  end.

Definition array_includes (l : list string) (x : string) : bool :=
  existsb (String.eqb x) l.

(** "Force include CLAUDE.md in context if not already included". *)
Definition include_context (safeArgs : list string) : list string :=
  if negb (array_includes safeArgs "--context-file") && negb (array_includes safeArgs "-c")
  then safeArgs ++ ["--context-file"; "CLAUDE.md"]
  else if negb (hasClaudeMd safeArgs)
       then safeArgs ++ ["--context-file"; "CLAUDE.md"]
       else safeArgs.

(** The handlers of the child's ['error'] and ['exit'] events. *)
Definition after_spawn (call : spawn_call) (child : child_event) : run :=
  match child with
  | ChildError _ => {| spawned := Some call; exit_code := 1 |}
  | ChildExit (Some code) => {| spawned := Some call; exit_code := code |}
  | ChildExit None => {| spawned := Some call; exit_code := 0 |}
  end.

Definition exit_before_spawn : run := {| spawned := None; exit_code := 1 |}.

(** [runClaudeWithGuardian()] in a process started with the arguments
    [argv] (after the script name) and the environment [process_env], from
    the script directory [dirname]. *)
Definition runClaudeWithGuardian (e : env) (dirname : string) (argv : list string)
  (process_env : gmap string string) (child : child_event) : io run :=
  try_catch
    (guardianMarkerPath ← lift (Validation.validateSafePath (cwd e) ".proguardian" (cwd e));
     claudeMdPath ← lift (Validation.validateSafePath (cwd e) "CLAUDE.md" (cwd e));
     active ← securePathExists e guardianMarkerPath;
     if active : bool then
       present ← securePathExists e claudeMdPath;
       (if negb present then
          let templateRelativePath := Path.join [".."; ".."; "templates"; "CLAUDE.md"] in
          templatePath ← lift (Validation.validateSafePath (cwd e) templateRelativePath dirname);
          secureCopyFile e templatePath claudeMdPath false
        else ret tt) ;;
       let args := argv in
       match scan_args args false [] with
       | None => ret exit_before_spawn
       | Some safeArgs =>
           let safeArgs := include_context safeArgs in
           let env :=
             <["CLAUDE_SYSTEM_PROMPT_PREPEND" := "You must follow the instructions in CLAUDE.md"]>
               (<["CLAUDE_GUARDIAN_MODE" := "active"]> process_env) in
           ret (after_spawn {| file := "claude-original"; args := safeArgs;
                               env_option := Some env; shell := false |} child)
       end
     else
       let args := argv in
       if existsb invalid_argument args then ret exit_before_spawn
       else
         ret (after_spawn {| file := "claude-original"; args := args;
                             env_option := None; shell := false |} child))
    (fun error => ret exit_before_spawn).

End Wrapper.

(** ** [src/commands/init.js]

    The console output is left out. *)

Module Init.
Import Errors Fs FileSecurity.

Record options : Type := {
  force : bool;
  cli : option string;
  verbose : bool;
  baseDir : option string;
  path : option string
}.

Definition VALID_CLI_TYPES : list string := ["claude"; "gemini"].

(** [validateOptions('init', options)]: the types of the options are those
    of the record, which leaves the check of [cli] against its [enum]. *)
Definition validateOptions (o : options) : result bool :=
  match cli o with
  | Some c =>
      if existsb (String.eqb c) VALID_CLI_TYPES then Ok true
      else Throw (ValidationError "cli" c (Some "Must be one of: claude, gemini"))
  | None => Ok true
  end.

(** [getTargetFilename(cliType)] of [cli-detector.js]. *)
Definition getTargetFilename (cliType : string) : result string :=
  if String.eqb cliType "claude" then Ok "CLAUDE.md"
  else if String.eqb cliType "gemini" then Ok "GEMINI.md"
  else Throw (NativeError ("Invalid CLI type: " ++ cliType) None).

(** The dependencies that [initCommand] takes from [deps]:
    [determineCLI] answers [None] when no CLI is available. *)
Record deps : Type := {
  determineCLI : options -> option string;
  targetFilenameOf : string -> result string
}.

Definition guardianMarker : string := "## 🛡️ GUARDIAN MODE ACTIVE".

Definition nl : string := Str.of_char Str.newline.

(** [a || b] on strings that may be [undefined]. *)
Definition or_else (a : option string) (b : string) : string :=
  match a with
  | Some x => if String.eqb x "" then b else x
  | None => b
  end.

(** The marker record, as an object in a fresh heap. *)
Definition markerContent (now cliType targetFilename : string) (enhanced : bool)
  : Json.heap * Json.value :=
  ({[ 0%nat := Json.CObject
        [("version", Json.VString "0.1.0");
         ("initialized", Json.VString now);
         ("mode", Json.VString "guardian");
         ("cliType", Json.VString cliType);
         ("targetFile", Json.VString targetFilename);
         ("enhanced", Json.VBool enhanced)] ]}, Json.VRef 0%nat).

(** How [initCommand] ends: it returns, or [handleError] exits with 1. *)
Inductive ending : Type :=
| Returned
| Exited (code : Z).

(** [initCommand(options, deps)], run from the script directory [dirname]
    at the time [now] (an ISO-8601 text). *)
Definition initCommand (e : env) (dirname now : string) (o : options) (d : deps)
  : io ending :=
  try_catch
    (_ ← lift (validateOptions o);
     match determineCLI d o with
     | None => ret Returned
     | Some cliType =>
         targetFilename ←
           match path o with
           | Some p => if String.eqb p "" then lift (targetFilenameOf d cliType) else ret p
           | None => lift (targetFilenameOf d cliType)
           end;
         let baseDir := or_else (baseDir o) (cwd e) in
         targetPath ← lift (Validation.validateSafePath (cwd e) targetFilename baseDir);
         found ← securePathExists e targetPath;
         written ←
           (if found : bool then
              existingContent ← secureReadFile e targetPath (5 * 1024 * 1024);
              let already := Str.includes existingContent guardianMarker in
              if already && negb (force o) then ret false
              else
                let existingContent :=
                  if already then
                    let guardianStart := Str.indexOf existingContent guardianMarker in
                    Str.trim (Str.substring_to guardianStart existingContent)
                  else existingContent in
                let templatePath :=
                  Path.resolve (cwd e) [dirname; ".."; ".."; "templates"; targetFilename] in
                templateExists ← pathExists templatePath;
                (if negb templateExists then
                   throw (NativeError ("Template file not found: " ++ targetFilename) None)
                 else ret tt) ;;
                guardianContent ← readFile templatePath;
                let enhancedContent :=
                  existingContent ++ nl ++ nl ++ guardianMarker ++ nl ++ nl ++ guardianContent in
                secureWriteFile e targetPath enhancedContent default_mode ;;
                ret true
            else
              if negb (force o) then ret false
              else
                let templatePath :=
                  Path.resolve (cwd e) [dirname; ".."; ".."; "templates"; targetFilename] in
                templateExists ← pathExists templatePath;
                (if negb templateExists then
                   throw (NativeError ("Template file not found: " ++ targetFilename) None)
                 else ret tt) ;;
                guardianContent ← readFile templatePath;
                let fullContent := guardianMarker ++ nl ++ nl ++ guardianContent in
                secureWriteFile e targetPath fullContent default_mode ;;
                ret true);
         if negb written then ret Returned
         else
           markerPath ← lift (Validation.validateSafePath (cwd e) ".proguardian" baseDir);
           enhanced ← securePathExists e targetPath;
           let '(h, data) := markerContent now cliType targetFilename enhanced in
           secureWriteJSON e markerPath h data 2 default_mode ;;
           ret Returned
     end)
    (fun err => ret (Exited 1)).

End Init.

(** * The vocabulary of the specification

    The notions that the statements below are written in, and the examples
    that they are run on. *)

Module Spec.
(** The character [c] occurs in [s]. *)
Definition occurs (c : ascii) (s : string) : Prop :=
  exists a b, s = a ++ String c b.

(** The characters that the command sanitizer refuses:
    [| ; & $ ` > < ( ) { } [ ]], line feed and carriage return. *)
Definition shell_metacharacters : list ascii :=
  ["|"; ";"; "&"; "$"; "`"; ">"; "<"; "("; ")"; "{"; "}"; "["; "]";
   Str.newline; Str.carriage_return]%char.
End Spec.

Module SpecPath.
Import Errors Validation.

(** The substrings that the specification lists for the scan of the raw
    input, besides a leading [~]. *)
Definition listed_substrings : list string :=
  [".."; "$"; "`"; "|"; ";"; "&"; ">"; "<"; "\"; Str.of_char Str.nul].

(** C2 as the specification states it. *)
Definition raw_input_is_scanned : Prop :=
  forall cwd targetPath basePath : string,
    (String.prefix "~" targetPath = true
     \/ exists p, In p listed_substrings /\ Str.includes targetPath p = true) ->
    exists e, validateSafePath cwd targetPath basePath = Throw e
              /\ instanceof_PathTraversalError e = true.
End SpecPath.

Module SpecRedaction.
Import Errors.
Local Open Scope list_scope.

Definition all_chars (f : ascii -> bool) (s : string) : bool :=
  forallb f (list_ascii_of_string s).

(** One to three decimal digits. *)
Definition octet (s : string) : bool :=
  (1 <=? String.length s)%nat && (String.length s <=? 3)%nat
  && all_chars Str.is_digit s.

(** Four octets separated by dots. *)
Definition ipv4_literal (s : string) : bool :=
  match Str.split "." s with
  | [a; b; c; d] => octet a && octet b && octet c && octet d
  | _ => false
  end.

Definition label (s : string) : bool :=
  (1 <=? String.length s)%nat
  && all_chars (fun c => Str.is_alpha c || Str.is_digit c || Ascii.eqb c "-") s.

(** [local@domain], the domain with at least two labels, the last one of
    letters only. *)
Definition email_address (s : string) : bool :=
  match Str.split "@" s with
  | [local; domain] =>
      (1 <=? String.length local)%nat
      && all_chars (fun c => Str.is_word c || Ascii.eqb c "." || Ascii.eqb c "-"
                             || Ascii.eqb c "+") local
      && let labels := Str.split "." domain in
         (2 <=? length labels)%nat && forallb label labels
         && let tld := List.last labels "" in
            (2 <=? String.length tld)%nat && all_chars Str.is_alpha tld
  | _ => false
  end.

(** A path from the root, without white space. *)
Definition absolute_path (s : string) : bool :=
  Str.startsWith s "/" && (2 <=? String.length s)%nat
  && all_chars (fun c => negb (Str.is_space c)) s.

(** C5 as the specification states it: whatever message embeds a path, an
    email address and an IPv4 literal, the message of the [SecurityError]
    built from it holds none of the three. *)
Definition redaction_complete : Prop :=
  forall raw p a i : string,
    absolute_path p = true -> email_address a = true -> ipv4_literal i = true ->
    Str.includes raw p = true -> Str.includes raw a = true -> Str.includes raw i = true ->
    let shown := message (SecurityError raw []) in
    Str.includes shown p = false
    /\ Str.includes shown a = false
    /\ Str.includes shown i = false.
End SpecRedaction.

Module SpecWrapper.
Import Errors Fs FileSecurity Wrapper.

(** Supervised mode: the marker file [.proguardian] is found in the
    working directory. *)
Definition supervised (e : env) (s : fs) : bool :=
  match Validation.validateSafePath (cwd e) ".proguardian" (cwd e) with
  | Ok guardianMarkerPath =>
      match securePathExists e guardianMarkerPath s with
      | (_, _, Ok active) => active
      | (_, _, Throw _) => false
      end
  | Throw _ => false
  end.

(** C4 as the specification states it: an argument that the command
    sanitizer refuses makes the wrapper exit without a spawn. *)
Definition sanitizer_guards_spawn : Prop :=
  forall (e : env) (dirname : string) (argv : list string)
         (process_env : gmap string string) (child : child_event) (s : fs) (arg : string),
    In arg argv ->
    (exists err, Validation.validateCommand arg = Throw err) ->
    (runClaudeWithGuardian e dirname argv process_env child s).2 = Ok exit_before_spawn.

(** The run ends before any spawn, or an error is thrown. *)
Definition exits_or_throws (x : list fs * fs * result run) : Prop :=
  x.2 = Ok exit_before_spawn \/ exists err, x.2 = Throw err.
End SpecWrapper.

Module SpecContext.
Import Errors Fs FileSecurity Wrapper.
Local Open Scope list_scope.

(** The context file is there: [securePathExists] finds [CLAUDE.md]. *)
Definition context_file_present (e : env) (s : fs) : bool :=
  match Validation.validateSafePath (cwd e) "CLAUDE.md" (cwd e) with
  | Ok claudeMdPath =>
      match securePathExists e claudeMdPath s with
      | (_, _, Ok present) => present
      | (_, _, Throw _) => false
      end
  | Throw _ => false
  end.

(** The context file is referenced: a context-file flag, in either
    spelling, is directly followed by [CLAUDE.md]. *)
Definition context_referenced (args : list string) : Prop :=
  exists pre flag post,
    args = pre ++ flag :: "CLAUDE.md" :: post
    /\ (flag = "--context-file" \/ flag = "-c").

(** The environment given to the child in supervised mode. *)
Definition guardian_env (process_env : gmap string string) : gmap string string :=
  <["CLAUDE_SYSTEM_PROMPT_PREPEND" := "You must follow the instructions in CLAUDE.md"]>
    (<["CLAUDE_GUARDIAN_MODE" := "active"]> process_env).
End SpecContext.

Module SpecFs.
Import Fs.

(** The content of the file at [p], if there is a file. *)
Definition file_content (s : fs) (p : string) : option string :=
  match s !! p with
  | Some (File content _) => Some content
  | _ => None
  end.

(** From [s] to [s'] nothing changed but for directories that were
    created. *)
Definition only_dirs_added (s s' : fs) : Prop :=
  forall p, s' !! p = s !! p \/ (s !! p = None /\ exists m, s' !! p = Some (Dir m)).

(** The directory of [p] exists and is writable. *)
Definition parent_writable (s : fs) (p : string) : bool :=
  match s !! Path.dirname p with
  | Some (Dir _) => access s (Path.dirname p) W_OK
  | _ => false
  end.

(** The temporary file of an atomic write to [safePath]. *)
Definition tmpPath_of (e : env) (safePath : string) : string :=
  safePath ++ ".tmp." ++ to_hex (randomBytes e).

(** The bytes that [writeFile] gets to write. *)
Definition written_bytes (f : faults) (content : string) : nat :=
  match writeFile_fails_after f with
  | Some k => Nat.min k (String.length content)
  | None => String.length content
  end.

(** A project directory with one file, and a run in which the write fails
    after two bytes. *)
Definition atomic_example_fs : fs :=
  {[ "/" := Dir 493%N; "/w" := Dir 493%N; "/w/a.txt" := File "old" 420%N ]}.

Definition atomic_example_env : env :=
  {| cwd := "/w";
     randomBytes := ["001"; "171"; "205"; "000"; "255"; "016"]%char;
     injected := {| writeFile_fails_after := Some 2;
                    rename_fails := false;
                    unlink_fails := false |} |}.
End SpecFs.

Module JsonText.
Import Json.
Local Open Scope list_scope.

Definition all_digits (l : list ascii) : Prop := Forall (fun c => Str.is_digit c = true) l.

(** What may follow a number: not a digit, and not the start of a fraction
    or of an exponent. *)
Definition delimits (rest : list ascii) : bool :=
  match rest with
  | [] => true
  | c :: _ => negb (Str.is_digit c) && negb (starts_fraction_or_exponent rest)
  end.

Definition all_ws (l : list ascii) : Prop := Forall (fun c => is_ws c = true) l.

(** The text of one member of an object. *)
Definition member_text (gap indent : list ascii) (m : string * json) : list ascii :=
  let '(k, x) := m in quote k ++ colon gap ++ print gap indent x.
Arguments member_text : simpl never.
End JsonText.

Module SpecHeap.
Import Json.

(** The object at [l] is reached from the value [v]. *)
Inductive reach (h : heap) : value -> loc -> Prop :=
| reach_here (l : loc) : reach h (VRef l) l
| reach_child (l : loc) (c : cell) (v : value) (l' : loc) :
    h !! l = Some c -> In v (children c) -> reach h v l' -> reach h (VRef l) l'.

(** A cyclic structure: some object reached from [v] is reached again from
    one of its own components. *)
Definition cyclic (h : heap) (v : value) : Prop :=
  exists l c v', reach h v l /\ h !! l = Some c /\ In v' (children c) /\ reach h v' l.

(** Every reference reached from [v] points to an object of the heap. *)
Definition closed (h : heap) (v : value) : Prop :=
  forall l, reach h v l -> is_Some (h !! l).
End SpecHeap.

Module SpecJson.
Import Errors Fs FileSecurity Json.
Local Open Scope list_scope.

(** C6, first half, as the specification states it: what was written is
    read back, for every value that can be serialized and every valid path
    (the write succeeds and leaves a readable file). *)
Definition json_always_round_trips : Prop :=
  forall (e : env) (p : string) (h : heap) (data : value) (t : json)
         (s s' : fs) (trace : list fs) (safePath : string),
    tree_of h data = Some t ->
    representable t = true ->
    Validation.validateSafePath (cwd e) p (cwd e) = Ok safePath ->
    secureWriteJSON e p h data 2 default_mode s = (trace, s', Ok tt) ->
    access s' safePath R_OK = true ->
    secureReadJSON e p default_maxSize s' = ([], s', Ok t).

(** A working directory for the examples. *)
Definition json_example_env : env :=
  {| cwd := "/w"; randomBytes := []; injected := no_faults |}.

Definition json_example_fs : fs :=
  <["/w" := Dir 493]> (<["/" := Dir 493]> ∅).

(** [{ text: s }] *)
Definition text_example_heap (s : string) : heap :=
  {[ 0 := CObject [("text", VString s)] ]}.

(** [const o = {}; o.self = o] *)
Definition cyclic_example_heap : heap :=
  {[ 0 := CObject [("self", VRef 0)] ]}.

(** [{ name: "guardian", version: 2, tags: ["a", null] }] *)
Definition tree_example_heap : heap :=
  {[ 0 := CObject [("name", VString "guardian"); ("version", VNumber 2);
                   ("tags", VRef 1)];
     1 := CArray [VString "a"; VNull] ]}.
End SpecJson.

Module InitExample.
Import Fs Init.

(** An empty project directory "/w", and the installed package with its
    template. *)
Definition project : fs :=
  {[ "/" := Dir 493%N; "/w" := Dir 493%N; "/pkg" := Dir 493%N;
     "/pkg/templates" := Dir 493%N;
     "/pkg/templates/CLAUDE.md" := File "# Guardian rules" 420%N ]}.

Definition environment : env :=
  {| cwd := "/w"; randomBytes := ["018"; "052"; "086"]%char; injected := no_faults |}.

(** [{ force: true }] *)
Definition forced : options :=
  {| force := true; cli := None; verbose := false; baseDir := None; path := None |}.

Definition claude : deps :=
  {| determineCLI := fun _ => Some "claude"; targetFilenameOf := getTargetFilename |}.

Definition run : list fs * fs * Errors.result ending :=
  initCommand environment "/pkg/src/commands" "2024-05-01T10:00:00.000Z" forced claude
    project.
End InitExample.

(** Unfolds the operations of the [io] monad. *)
Ltac io_unfold :=
  unfold mbind, Fs.io_bind, Fs.bind, Fs.try_catch, mret, Fs.io_ret, Fs.ret, Fs.throw,
    Fs.lift, Fs.get, Fs.update, Fs.pass_through, Fs.system_error in *.

(** The shape of the absolute paths that [path.resolve] returns: a slash,
    then segments separated by single slashes, none of them empty, [.] or
    [..]. *)
Module SpecResolved.
Local Open Scope list_scope.

Fixpoint slash_free (s : string) : bool :=
  match s with
  | EmptyString => true
  | String c s' => negb (Ascii.eqb c "/") && slash_free s'
  end.

Definition normal_segment (seg : string) : bool :=
  slash_free seg && negb (String.eqb seg "") && negb (String.eqb seg ".")
  && negb (String.eqb seg "..").

Definition resolved_absolute (r : string) : Prop :=
  exists segs, Forall (fun seg => normal_segment seg = true) segs
               /\ r = String "/" (Str.join "/" segs).
End SpecResolved.

(** The context file that [initCommand] works on. *)
Module SpecInit.
Import Errors Fs FileSecurity Init.
Local Open Scope list_scope.

(** [options.path || _getTargetFilename(cliType)] *)
Definition target_filename (o : options) (d : deps) (cliType : string) : result string :=
  match path o with
  | Some p => if String.eqb p "" then targetFilenameOf d cliType else Ok p
  | None => targetFilenameOf d cliType
  end.

(** The CLI type, the name and the path of the context file, when the
    options are valid, a CLI is determined and the file name passes
    [validateSafePath]. *)
Definition plan (e : env) (o : options) (d : deps) : option (string * string * string) :=
  match validateOptions o, determineCLI d o with
  | Ok _, Some cliType =>
      match target_filename o d cliType with
      | Ok targetFilename =>
          match Validation.validateSafePath (cwd e) targetFilename
                  (or_else (baseDir o) (cwd e)) with
          | Ok targetPath => Some (cliType, targetFilename, targetPath)
          | Throw _ => None
          end
      | Throw _ => None
      end
  | _, _ => None
  end.

(** The path of the template that is read for the context file. *)
Definition template_path (e : env) (dirname targetFilename : string) : string :=
  Path.resolve (cwd e) [dirname; ".."; ".."; "templates"; targetFilename].

(** What [initCommand] keeps of an existing context file: all of it, or,
    when it holds the marker line, what stands before the marker line,
    trimmed. *)
Definition kept (existingContent : string) : string :=
  if Str.includes existingContent guardianMarker then
    Str.trim (Str.substring_to (Str.indexOf existingContent guardianMarker) existingContent)
  else existingContent.

(** The path of the marker file. *)
Definition marker (e : env) (o : options) : option string :=
  match Validation.validateSafePath (cwd e) ".proguardian" (or_else (baseDir o) (cwd e)) with
  | Ok markerPath => Some markerPath
  | Throw _ => None
  end.

(** The size limit of [initCommand] for an existing context file. *)
Definition context_limit : N := 5 * 1024 * 1024.

(** The marker record that a run of [initCommand] leaves. *)
Definition marker_record (now cliType targetFilename : string) : Json.json :=
  Json.JObject
    [("version", Json.JString "0.1.0");
     ("initialized", Json.JString now);
     ("mode", Json.JString "guardian");
     ("cliType", Json.JString cliType);
     ("targetFile", Json.JString targetFilename);
     ("enhanced", Json.JBool true)].
End SpecInit.

(** ** [escapeShellArg] of [src/utils/validation.js] *)

Module Shell.
Import Regex.
Local Open Scope list_scope.

(** [r.test(subject)], for a regular expression without flags: the first
    position from which [r] matches. *)
Fixpoint test_from (r : regex) (before after : list ascii) : bool :=
  match rmatch r before after (fun b a => Some (b, a)) with
  | Some _ => true
  | None =>
      match after with
      | c :: after' => test_from r (c :: before) after'
      | [] => false
      end
  end.

Definition test (r : regex) (subject : string) : bool :=
  test_from r [] (list_ascii_of_string subject).

(** [/[^A-Za-z0-9_.,@:/-]/] *)
Definition re_special : regex :=
  Cls true [CRange "A" "Z"; CRange "a" "z"; CRange "0" "9"; CChar "_"; CChar ".";
            CChar ","; CChar "@"; CChar ":"; CChar "/"; CChar "-"].

(** [/'/g] *)
Definition re_single_quote : regex := Lit "'".

(** The replacement text: a single quote, a double quote, a single quote, a
    double quote, a single quote. *)
Definition quoted_single_quote : string :=
  String "'" (String Str.dquote (String "'" (String Str.dquote (String "'" EmptyString)))).

(** [escapeShellArg(arg)], for a string. *)
Definition escapeShellArg (arg : string) : string :=
  if String.eqb arg "" then String Str.dquote (String Str.dquote EmptyString)
  else
    let str := arg in
    if test re_special str then
      ("'" ++ replace re_single_quote quoted_single_quote str ++ "'")%string
    else str.

End Shell.

(** How a POSIX shell reads a word: outside quotes a character stands for
    itself unless the shell gives it a meaning; between single quotes every
    character stands for itself; between double quotes every character but
    [$], the backquote and the backslash does.  [None] is a text that is not
    one plain word: an unquoted blank, operator, expansion or escape, or a
    quote left open. *)
Module SpecShell.
Local Open Scope list_scope.

Inductive quoting : Type := Unquoted | SingleQuoted | DoubleQuoted.

(** The characters with a meaning of their own outside quotes. *)
Definition meaningful : list ascii :=
  [" "; Str.tab; Str.newline; "|"; "&"; ";"; "<"; ">"; "("; ")"; "$"; "`"; "\";
   "*"; "?"; "["; "#"; "~"; "="; "%"; "!"; "{"; "}"]%char.

Fixpoint sh_word (q : quoting) (text : list ascii) : option (list ascii) :=
  match text with
  | [] => match q with Unquoted => Some [] | _ => None end
  | c :: text' =>
      match q with
      | Unquoted =>
          if Ascii.eqb c "'" then sh_word SingleQuoted text'
          else if Ascii.eqb c Str.dquote then sh_word DoubleQuoted text'
          else if existsb (Ascii.eqb c) meaningful then None
          else option_map (cons c) (sh_word Unquoted text')
      | SingleQuoted =>
          if Ascii.eqb c "'" then sh_word Unquoted text'
          else option_map (cons c) (sh_word SingleQuoted text')
      | DoubleQuoted =>
          if Ascii.eqb c Str.dquote then sh_word Unquoted text'
          else if Ascii.eqb c "$" || Ascii.eqb c "`" || Ascii.eqb c "\" then None
          else option_map (cons c) (sh_word DoubleQuoted text')
      end
  end.

End SpecShell.

(** ** [validateOptions] of [src/utils/validation.js]

    The options of a command are an object whose values may have any type.
    A value is [undefined], a boolean, a string, or something else, of which
    only the text [String(value)] matters. *)

Module Options.
Import Errors.
Local Open Scope list_scope.

Inductive jsvalue : Type :=
| VUndefined
| VBoolean (b : bool)
| VString (s : string)
| VOther (text : string).

(** [String(value)] *)
Definition to_string (v : jsvalue) : string :=
  match v with
  | VUndefined => "undefined"
  | VBoolean true => "true"
  | VBoolean false => "false"
  | VString s => s
  | VOther text => text
  end.

Inductive option_type : Type := TBoolean | TString.

Record rules : Type := {
  type : option_type;
  required : bool;
  enum : option (list string)
}.

Definition schema : Type := list (string * rules).

Definition VALID_CLI_TYPES : list string := ["claude"; "gemini"].

Definition boolean_option : rules := {| type := TBoolean; required := false; enum := None |}.
Definition string_option : rules := {| type := TString; required := false; enum := None |}.

Definition OPTION_SCHEMAS : list (string * schema) :=
  [("init",
    [("force", boolean_option);
     ("cli", {| type := TString; required := false; enum := Some VALID_CLI_TYPES |});
     ("verbose", boolean_option);
     ("baseDir", string_option);
     ("path", string_option)]);
   ("check", [("fix", boolean_option); ("verbose", boolean_option)]);
   ("install-wrapper",
    [("global", boolean_option); ("force", boolean_option); ("verbose", boolean_option)])].

(** The properties that [OPTION_SCHEMAS] inherits from [Object.prototype]:
    their values are functions and objects, which are truthy and have no
    enumerable keys of their own. *)
Definition inherited_keys : list string :=
  ["constructor"; "__defineGetter__"; "__defineSetter__"; "hasOwnProperty";
   "__lookupGetter__"; "__lookupSetter__"; "isPrototypeOf"; "propertyIsEnumerable";
   "toString"; "valueOf"; "__proto__"; "toLocaleString"].

Fixpoint assoc {A} (key : string) (l : list (string * A)) : option A :=
  match l with
  | [] => None
  | (k, v) :: l' => if String.eqb key k then Some v else assoc key l'
  end.

(** [OPTION_SCHEMAS[command]], when it is truthy. *)
Definition lookup_schema (command : string) : option schema :=
  match assoc command OPTION_SCHEMAS with
  | Some s => Some s
  | None => if existsb (String.eqb command) inherited_keys then Some [] else None
  end.

(** [options[key]] for a key of a schema. *)
Definition get (options : list (string * jsvalue)) (key : string) : jsvalue :=
  match assoc key options with
  | Some v => v
  | None => VUndefined
  end.

(** The loop over [Object.entries(schema)]. *)
Fixpoint check_entries (entries : schema) (options : list (string * jsvalue))
  : result bool :=
  match entries with
  | [] => Ok true
  | (key, rules) :: rest =>
      let value := get options key in
      match value with
      | VUndefined =>
          if required rules then
            Throw (ValidationError key "undefined" (Some "This option is required"))
          else check_entries rest options
      | _ =>
          match type rules, value with
          | TBoolean, VBoolean _ | TString, VString _ =>
              match enum rules with
              | Some allowed =>
                  if negb (match value with
                           | VString s => existsb (String.eqb s) allowed
                           | _ => false
                           end)
                  then Throw (ValidationError key (to_string value)
                                (Some ("Must be one of: " ++ Str.join ", " allowed)%string))
                  else check_entries rest options
              | None => check_entries rest options
              end
          | TBoolean, _ =>
              Throw (ValidationError key (to_string value) (Some "Must be a boolean"))
          | TString, _ =>
              Throw (ValidationError key (to_string value) (Some "Must be a string"))
          end
      end
  end.

(** [validateOptions(command, options)] *)
Definition validateOptions (command : string) (options : list (string * jsvalue))
  : result bool :=
  match lookup_schema command with
  | None => Throw (ValidationError "command" command (Some "Unknown command"))
  | Some schema =>
      let validKeys := map fst schema in
      let providedKeys := map fst options in
      let unknownKeys :=
        List.filter (fun key => negb (existsb (String.eqb key) validKeys)) providedKeys in
      if (0 <? length unknownKeys)%nat then
        Throw (ValidationError "options" (Str.join ", " unknownKeys)
                 (Some "Unknown options provided"))
      else check_entries schema options
  end.

(** The options object of [initCommand], for options of the expected
    types. *)
Definition object_of (o : Init.options) : list (string * jsvalue) :=
  let text (x : option string) :=
    match x with Some s => VString s | None => VUndefined end in
  [("force", VBoolean (Init.force o)); ("cli", text (Init.cli o));
   ("verbose", VBoolean (Init.verbose o)); ("baseDir", text (Init.baseDir o));
   ("path", text (Init.path o))].

End Options.

(** What the schemas ask of an options object. *)
Module SpecOptions.
Import Options.
Local Open Scope list_scope.

(** The value is absent, or of the type of the rules and, when the rules
    list the allowed values, one of them. *)
Definition conforms (r : rules) (v : jsvalue) : Prop :=
  match v with
  | VUndefined => required r = false
  | VBoolean _ => type r = TBoolean /\ enum r = None
  | VString s =>
      type r = TString
      /\ match enum r with Some allowed => In s allowed | None => True end
  | VOther _ => False
  end.

Definition acceptable (s : schema) (options : list (string * jsvalue)) : Prop :=
  (forall key, In key (map fst options) -> In key (map fst s))
  /\ forall key r, In (key, r) s -> conforms r (get options key).
End SpecOptions.

(** ** [src/utils/cli-detector.js], with [validateCLIType] of
    [src/utils/validation.js]

    What the process is given from outside: which of the two binaries
    [which] finds, and the standard input, which is not a terminal
    ([None]) or is one on which a line is typed. *)

Module CliDetector.
Import Errors.
Local Open Scope list_scope.

Definition CLI_CLAUDE : string := "claude".
Definition CLI_GEMINI : string := "gemini".
Definition VALID_CLI_TYPES : list string := ["claude"; "gemini"].

(** [validateCLIType(cliType)] *)
Definition validateCLIType (cliType : string) : result string :=
  if String.eqb cliType "" then
    Throw (ValidationError "cliType" cliType (Some "CLI type cannot be empty"))
  else if negb (existsb (String.eqb cliType) VALID_CLI_TYPES) then
    Throw (ValidationError "cliType" cliType
             (Some ("Must be one of: " ++ Str.join ", " VALID_CLI_TYPES)%string))
  else Ok cliType.

(** [getTargetFilename(cliType)] *)
Definition getTargetFilename (cliType : string) : result string :=
  match validateCLIType cliType with
  | Throw err =>
      if instanceof_ValidationError err then
        Throw (NativeError ("Invalid CLI type: " ++ cliType)%string None)
      else Throw err
  | Ok _ =>
      if String.eqb cliType CLI_CLAUDE then Ok "CLAUDE.md"
      else if String.eqb cliType CLI_GEMINI then Ok "GEMINI.md"
      else Throw (NativeError ("Unknown CLI type: " ++ cliType)%string None)
  end.

(** The result of [detectCLI()]. *)
Record available : Type := {
  claude : bool;
  gemini : bool
}.

(** [promptForCLIAsync(available)] *)
Definition promptForCLIAsync (a : available) (stdin : option string) : result string :=
  let options :=
    (if claude a then [("1", CLI_CLAUDE)] else [])
      ++ (if gemini a then [("2", CLI_GEMINI)] else []) in
  let first_option :=
    match options with
    | (_, value) :: _ => Ok value
    | [] =>
        Throw (NativeError "Cannot read properties of undefined (reading 'value')" None)
    end in
  match stdin with
  | None => first_option
  | Some answer =>
      match find (fun opt => String.eqb (fst opt) (Str.trim answer)) options with
      | Some selected => Ok (snd selected)
      | None => first_option
      end
  end.

(** The options that [determineCLI] looks at: [cli], and the two flags of
    earlier versions. *)
Record options : Type := {
  cli : option string;
  claude_flag : bool;
  gemini_flag : bool
}.

(** [determineCLI(options)]; [None] is [null]. *)
Definition determineCLI (o : options) (a : available) (stdin : option string)
  : result (option string) :=
  let detect :=
    if claude_flag o then Ok (Some CLI_CLAUDE)
    else if gemini_flag o then Ok (Some CLI_GEMINI)
    else if negb (claude a) && negb (gemini a) then Ok None
    else if claude a && negb (gemini a) then Ok (Some CLI_CLAUDE)
    else if gemini a && negb (claude a) then Ok (Some CLI_GEMINI)
    else
      match promptForCLIAsync a stdin with
      | Ok selected => Ok (Some selected)
      | Throw err => Throw err
      end in
  match cli o with
  | Some c =>
      if String.eqb c "" then detect
      else
        match validateCLIType c with
        | Ok valid => Ok (Some valid)
        | Throw _ => Ok None
        end
  | None => detect
  end.

End CliDetector.

(** ** [secureCreateDir] of [src/utils/file-security.js] *)

Module Directories.
Import Errors Fs FileSecurity.
Local Open Scope list_scope.

Definition default_dir_mode : N := 493.      (* 0o755 *)

(** [secureCreateDir(dirPath, { mode })] *)
Definition secureCreateDir (e : env) (dirPath : string) (mode : N) : io unit :=
  safePath ← lift (Validation.validateSafePath (cwd e) dirPath (cwd e));
  let parentDir := Path.dirname safePath in
  parentExists ← pathExists parentDir;
  (if parentExists : bool then
     writable ← checkPermissions parentDir W_OK;
     if negb writable then throw (PermissionError "create directory in" parentDir)
     else ret tt
   else ret tt) ;;
  ensureDir safePath mode.

End Directories.

(** ** Example runs *)

Module Examples.
Import Fs.
Local Open Scope list_scope.

(** A process in the working directory "/w". *)
Definition process : env :=
  {| cwd := "/w"; randomBytes := ["018"; "052"; "086"]%char; injected := no_faults |}.

(** A working directory with a file that can be written and one that is
    read-only (mode 0o444). *)
Definition files : fs :=
  {[ "/" := Dir 493%N; "/w" := Dir 493%N;
     "/w/notes.txt" := File "remember" 420%N;
     "/w/locked.txt" := File "keep" 292%N ]}.

(** A supervised project whose context file is missing. *)
Definition marker_only : fs :=
  {[ "/" := Dir 493%N; "/w" := Dir 493%N; "/w/.proguardian" := File "{}" 420%N ]}.

(** The project of [InitExample], with a context file of its own. *)
Definition project_with_context : fs :=
  <["/w/CLAUDE.md" := File "# My project" 420%N]> InitExample.project.

(** [{}]: no option set. *)
Definition plain : Init.options :=
  {| Init.force := false; Init.cli := None; Init.verbose := false;
     Init.baseDir := None; Init.path := None |}.

(** A process in a working directory whose path contains [&], and a
    project in it that has its marker file and its context file. *)
Definition special_directory_env : env :=
  {| cwd := "/home/dev/R&D/app"; randomBytes := []; injected := no_faults |}.

Definition special_directory_fs : fs :=
  {[ "/home/dev/R&D/app" := Dir 493%N;
     "/home/dev/R&D/app/.proguardian" := File "{}" 420%N;
     "/home/dev/R&D/app/CLAUDE.md" := File "# notes" 420%N ]}.

End Examples.

(** * Properties *)

(** ** Strings, the command sanitizer, the error messages and the path validator *)

Section StringFacts.

Lemma append_nil (s : string) : "" ++ s = s.
Proof. reflexivity. Qed.

Lemma append_cons (c : ascii) (a b : string) : String c a ++ b = String c (a ++ b).
Proof. reflexivity. Qed.

Lemma prefix_nil (s : string) : String.prefix "" s = true.
Proof. destruct s; reflexivity. Qed.

Lemma prefix_spec (p s : string) :
  String.prefix p s = true <-> exists b, s = p ++ b.
Proof.
  revert p. induction s as [|d s IH]; intros p.
  - destruct p as [|c p]; simpl.
    + split; [intros _; exists ""; reflexivity | reflexivity].
    + split; [discriminate | intros [b Hb]; discriminate].
  - destruct p as [|c p].
    + rewrite prefix_nil. split; [intros _; eexists; reflexivity | reflexivity].
    + simpl. destruct (ascii_dec c d) as [->|Hne].
      * rewrite IH. split; intros [b Hb]; exists b; rewrite append_cons in *; congruence.
      * split; [discriminate | intros [b Hb]; rewrite append_cons in Hb; congruence].
Qed.

Lemma includes_nil (p : string) :
  Str.includes "" p = String.prefix p "" || false.
Proof. reflexivity. Qed.

Lemma includes_cons (c : ascii) (s p : string) :
  Str.includes (String c s) p = String.prefix p (String c s) || Str.includes s p.
Proof. reflexivity. Qed.

(** [s.includes(p)] holds exactly when [p] occurs in [s]. *)
Lemma includes_spec (s p : string) :
  Str.includes s p = true <-> exists a b, s = a ++ p ++ b.
Proof.
  induction s as [|c s IH]; [rewrite includes_nil | rewrite includes_cons].
  - rewrite orb_false_r, prefix_spec. split.
    + intros [b Hb]. exists "", b. exact Hb.
    + intros [a [b Hab]]. destruct a; [rewrite append_nil in Hab; eauto | discriminate].
  - rewrite orb_true_iff, prefix_spec, IH. split.
    + intros [[b Hb] | [a [b Hab]]].
      * exists "", b. exact Hb.
      * exists (String c a), b. rewrite append_cons. congruence.
    + intros [a [b Hab]]. destruct a as [|d a].
      * left. rewrite append_nil in Hab. eauto.
      * right. exists a, b. rewrite append_cons in Hab. congruence.
Qed.

Lemma includes_false (s p : string) :
  Str.includes s p = false <-> ~ exists a b, s = a ++ p ++ b.
Proof.
  rewrite <- includes_spec. destruct (Str.includes s p); split; intros H; congruence.
Qed.

End StringFacts.

Section Sanitizer.
Import Errors Validation Spec.

Lemma includes_char (s : string) (c : ascii) :
  Str.includes s (Str.of_char c) = true <-> occurs c s.
Proof.
  rewrite includes_spec. unfold occurs, Str.of_char.
  split; intros [a [b H]]; exists a, b; exact H.
Qed.

Lemma occurs_nonempty (c : ascii) (s : string) : occurs c s -> s <> "".
Proof. intros [a [b ->]] H. destruct a; discriminate. Qed.

Lemma eqb_empty_false (s : string) : s <> "" -> String.eqb s "" = false.
Proof. intros H. destruct (String.eqb_spec s ""); congruence. Qed.

Lemma dangerousChars_shell (c : ascii) :
  In c shell_metacharacters ->
  c = Str.newline \/ c = Str.carriage_return \/ In (Str.of_char c) dangerousChars.
Proof.
  unfold shell_metacharacters, dangerousChars. simpl.
  intros H. repeat (destruct H as [<- | H]; [tauto |]). contradiction.
Qed.

Lemma shell_dangerousChars (p : string) :
  In p dangerousChars -> exists c, p = Str.of_char c /\ In c shell_metacharacters.
Proof.
  unfold shell_metacharacters, dangerousChars. simpl.
  intros H.
  repeat (destruct H as [<- | H]; [eexists; split; [reflexivity | tauto] |]).
  contradiction.
Qed.

(** C7.  A string that contains one of [| ; & $ ` > < ( ) { } [ ]], a line
    feed or a carriage return makes [validateCommand] fail with a
    [CommandInjectionError]; a non-empty string that contains none of them
    is returned unchanged. *)
Theorem validateCommand_rejects_exactly_metacharacters (command : string) :
  (forall c, In c shell_metacharacters -> occurs c command ->
     validateCommand command = Throw (CommandInjectionError command)
     /\ instanceof_CommandInjectionError (CommandInjectionError command) = true)
  /\ (command <> "" ->
      (forall c, In c shell_metacharacters -> ~ occurs c command) ->
      validateCommand command = Ok command).
Proof.
  split.
  - intros c Hc Hocc. split; [| reflexivity].
    unfold validateCommand.
    rewrite (eqb_empty_false _ (occurs_nonempty _ _ Hocc)).
    destruct (Str.includes command (Str.of_char Str.newline)
              || Str.includes command (Str.of_char Str.carriage_return)) eqn:Hnl;
      [reflexivity |].
    apply orb_false_iff in Hnl as [Hn Hr].
    destruct (dangerousChars_shell c Hc) as [-> | [-> | Hd]].
    + apply includes_char in Hocc. congruence.
    + apply includes_char in Hocc. congruence.
    + replace (existsb _ dangerousChars) with true; [reflexivity |].
      symmetry. apply existsb_exists. exists (Str.of_char c).
      split; [exact Hd | apply includes_char; exact Hocc].
  - intros Hne Hfree. unfold validateCommand.
    rewrite (eqb_empty_false _ Hne).
    assert (Hn : Str.includes command (Str.of_char Str.newline) = false).
    { apply not_true_is_false. rewrite includes_char.
      apply Hfree. unfold shell_metacharacters. simpl. tauto. }
    assert (Hr : Str.includes command (Str.of_char Str.carriage_return) = false).
    { apply not_true_is_false. rewrite includes_char.
      apply Hfree. unfold shell_metacharacters. simpl. tauto. }
    rewrite Hn, Hr. cbn [orb].
    replace (existsb _ dangerousChars) with false; [reflexivity |].
    symmetry. apply not_true_is_false. rewrite existsb_exists.
    intros [p [Hp Hinc]].
    destruct (shell_dangerousChars p Hp) as [c [-> Hc]].
    apply includes_char in Hinc. exact (Hfree c Hc Hinc).
Qed.

Lemma validateCommand_witness :
  validateCommand "npm test; ls" = Throw (CommandInjectionError "npm test; ls")
  /\ validateCommand "npm test" = Ok "npm test"
  /\ validateCommand "node script.js" = Ok "node script.js".
Proof.
  split; [| split].
  - apply (proj1 (validateCommand_rejects_exactly_metacharacters "npm test; ls") ";"%char).
    + unfold shell_metacharacters. simpl. tauto.
    + exists "npm test", " ls". reflexivity.
  - apply (proj2 (validateCommand_rejects_exactly_metacharacters "npm test")).
    + discriminate.
    + intros c Hc Hocc. apply includes_char in Hocc.
      unfold shell_metacharacters in Hc. simpl in Hc.
      repeat (destruct Hc as [<- | Hc]; [vm_compute in Hocc; discriminate |]).
      contradiction.
  - apply (proj2 (validateCommand_rejects_exactly_metacharacters "node script.js")).
    + discriminate.
    + intros c Hc Hocc. apply includes_char in Hocc.
      unfold shell_metacharacters in Hc. simpl in Hc.
      repeat (destruct Hc as [<- | Hc]; [vm_compute in Hocc; discriminate |]).
      contradiction.
Defined.

End Sanitizer.

Section SecurityMessages.
Import Errors.

Lemma sanitize_path_traversal_text :
  sanitizeErrorMessage "Invalid path: Path traversal attempt detected"
  = "Invalid path: Path traversal attempt detected".
Proof. vm_compute. reflexivity. Qed.

Lemma sanitize_command_injection_text :
  sanitizeErrorMessage "Invalid command: Potentially unsafe characters detected"
  = "Invalid command: Potentially unsafe characters detected".
Proof. vm_compute. reflexivity. Qed.

Lemma PathTraversalError_eq (attempted : string) :
  PathTraversalError attempted
  = MkPathTraversalError "Invalid path: Path traversal attempt detected" [] attempted.
Proof.
  unfold PathTraversalError, SecurityError.
  rewrite sanitize_path_traversal_text. reflexivity.
Qed.

Lemma CommandInjectionError_eq (command : string) :
  CommandInjectionError command
  = MkCommandInjectionError "Invalid command: Potentially unsafe characters detected" []
      command.
Proof.
  unfold CommandInjectionError, SecurityError.
  rewrite sanitize_command_injection_text. reflexivity.
Qed.

(** C10.  The message of a [PathTraversalError] is the fixed text
    "Invalid path: Path traversal attempt detected" whatever the offending
    path, and the message of a [CommandInjectionError] is the fixed text
    "Invalid command: Potentially unsafe characters detected" whatever the
    offending command: two offending inputs give the same message.  The
    input is kept in a field of its own ([attemptedPath], [command]), and
    [details] is empty. *)
Theorem security_error_message_independent_of_input :
  (forall p1 p2 : string,
      message (PathTraversalError p1) = "Invalid path: Path traversal attempt detected"
      /\ message (PathTraversalError p1) = message (PathTraversalError p2)
      /\ PathTraversalError p1
         = MkPathTraversalError "Invalid path: Path traversal attempt detected" [] p1)
  /\ (forall c1 c2 : string,
      message (CommandInjectionError c1)
      = "Invalid command: Potentially unsafe characters detected"
      /\ message (CommandInjectionError c1) = message (CommandInjectionError c2)
      /\ CommandInjectionError c1
         = MkCommandInjectionError
             "Invalid command: Potentially unsafe characters detected" [] c1).
Proof.
  split.
  - intros p1 p2. rewrite !PathTraversalError_eq. repeat split.
  - intros c1 c2. rewrite !CommandInjectionError_eq. repeat split.
Qed.

End SecurityMessages.

Section PathValidation.
Import Errors Validation SpecPath.

(** C3, at the input that the specification names: the base directory
    [/base] and a target that resolves to [/basefoo].  The target is
    accepted, because [resolvedTarget.startsWith(resolvedBase)] compares
    the two strings without a separator after the base. *)
Theorem validateSafePath_accepts_sibling_with_base_as_prefix (cwd : string) :
  Path.resolve cwd ["/base"; "/basefoo"] = "/basefoo"
  /\ Path.resolve cwd ["/base"] = "/base"
  /\ validateSafePath cwd "/basefoo" "/base" = Ok "/basefoo".
Proof. repeat split. Qed.

(** C2 fails as stated: the input [a/../b] contains [..] and is accepted,
    because the scan reads the normalized path [b]; and an input with a NUL
    byte is accepted, because NUL is not on the list. *)
Lemma raw_input_is_not_scanned : ~ raw_input_is_scanned.
Proof.
  intros H.
  destruct (H "/w" "a/../b" "/base") as [e [He _]].
  - right. exists "..". split; [simpl; tauto | reflexivity].
  - vm_compute in He. discriminate.
Qed.

Lemma nul_byte_is_accepted :
  Str.includes (String "a" (String Str.nul "b")) (Str.of_char Str.nul) = true
  /\ validateSafePath "/w" (String "a" (String Str.nul "b")) "/base"
     = Ok (String "/" (String "b" (String "a" (String "s" (String "e"
            (String "/" (String "a" (String Str.nul "b")))))))).
Proof. split; vm_compute; reflexivity. Qed.

Lemma normalize_empty_not_suspicious (pattern : string) :
  In pattern suspicious -> Str.includes (Path.normalize "") pattern = false.
Proof.
  unfold suspicious. simpl.
  intros H. repeat (destruct H as [<- | H]; [reflexivity |]). contradiction.
Qed.

(** C2, amended.  The scan reads the normalized form of the input: when
    [path.normalize(input)] contains one of [..], [./], [~], [$], a
    backtick, [|], [;], [&], [>], [<] or a backslash, [validateSafePath]
    fails with a [PathTraversalError], whatever the base directory. *)
Theorem validateSafePath_scans_normalized_input
  (cwd targetPath basePath pattern : string) :
  In pattern suspicious ->
  Str.includes (Path.normalize targetPath) pattern = true ->
  validateSafePath cwd targetPath basePath = Throw (PathTraversalError targetPath)
  /\ instanceof_PathTraversalError (PathTraversalError targetPath) = true.
Proof.
  intros Hin Hinc. split; [| reflexivity].
  unfold validateSafePath.
  destruct (String.eqb_spec targetPath "") as [-> | Hne].
  - rewrite (normalize_empty_not_suspicious _ Hin) in Hinc. discriminate.
  - destruct (negb _); [reflexivity |].
    replace (existsb _ suspicious) with true; [reflexivity |].
    symmetry. apply existsb_exists. exists pattern. split; assumption.
Qed.

Lemma validateSafePath_scans_normalized_input_witness :
  validateSafePath "/w" "~/.ssh/id_rsa" "/base" = Throw (PathTraversalError "~/.ssh/id_rsa")
  /\ instanceof_PathTraversalError (PathTraversalError "~/.ssh/id_rsa") = true.
Proof.
  apply (validateSafePath_scans_normalized_input "/w" "~/.ssh/id_rsa" "/base" "~").
  - unfold suspicious. simpl. tauto.
  - vm_compute. reflexivity.
Defined.

End PathValidation.

(** ** Redaction of error messages *)

Section Redaction.
Import Errors SpecRedaction.
Local Open Scope list_scope.


(** The message of the counterexample, as it is shown. *)
Lemma ipv4_after_word_character_message :
  message (SecurityError "see /etc/passwd mail bob@example.com host_10.0.0.1" [])
  = "see <path> mail <email> host_10.0.0.1".
Proof. vm_compute. reflexivity. Qed.


End Redaction.

(** ** The [io] monad, and the wrapper's argument check *)

Section IoFacts.
Import Errors Fs.
Local Open Scope list_scope.
Context {A B : Type}.

Lemma bind_pure (m : io A) (f : A -> io B) (s : fs) (a : A) :
  m s = ([], s, Ok a) -> (m ≫= f) s = f a s.
Proof.
  intros H. unfold mbind, io_bind, bind. rewrite H.
  destruct (f a s) as [[t2 s2] r]. reflexivity.
Qed.

Lemma bind_ok (m : io A) (f : A -> io B) (s s1 : fs) (t : list fs) (a : A) :
  m s = (t, s1, Ok a) ->
  (m ≫= f) s = ((t ++ (f a s1).1.1), (f a s1).1.2, (f a s1).2).
Proof.
  intros H. unfold mbind, io_bind, bind. rewrite H.
  destruct (f a s1) as [[t2 s2] r]. reflexivity.
Qed.

Lemma bind_throw (m : io A) (f : A -> io B) (s s1 : fs) (t : list fs) (err : error) :
  m s = (t, s1, Throw err) -> (m ≫= f) s = (t, s1, Throw err).
Proof. intros H. unfold mbind, io_bind, bind. rewrite H. reflexivity. Qed.

End IoFacts.

Section WrapperFacts.
Import Errors Fs FileSecurity Wrapper SpecWrapper.
Local Open Scope list_scope.

Lemma exits_or_throws_bind_pure {A} (m : io A) (f : A -> io run) (s : fs) (a : A) :
  m s = ([], s, Ok a) -> exits_or_throws (f a s) -> exits_or_throws ((m ≫= f) s).
Proof. intros H Hf. rewrite (bind_pure m f s a H). exact Hf. Qed.

Lemma exits_or_throws_bind_throw {A} (m : io A) (f : A -> io run) (s : fs)
  (t : list fs) (s1 : fs) (err : error) :
  m s = (t, s1, Throw err) -> exits_or_throws ((m ≫= f) s).
Proof. intros H. rewrite (bind_throw m f s s1 t err H). right. eauto. Qed.

Lemma exits_or_throws_bind {A} (m : io A) (f : A -> io run) (s : fs) :
  (forall t s1 a, m s = (t, s1, Ok a) -> exits_or_throws (f a s1)) ->
  exits_or_throws ((m ≫= f) s).
Proof.
  intros Hf. destruct (m s) as [[t s1] [a | err]] eqn:Hm.
  - rewrite (bind_ok m f s s1 t a Hm). exact (Hf t s1 a eq_refl).
  - rewrite (bind_throw m f s s1 t err Hm). right. eauto.
Qed.

Lemma try_catch_exits (m : io run) (s : fs) :
  exits_or_throws (m s) ->
  (try_catch m (fun _ => ret exit_before_spawn) s).2 = Ok exit_before_spawn.
Proof.
  unfold exits_or_throws, try_catch. destruct (m s) as [[t s1] [a | err]]; simpl.
  - intros [H | [err H]]; [exact H | discriminate].
  - reflexivity.
Qed.

(** [securePathExists] never throws and leaves the file system alone. *)
Lemma securePathExists_pure (e : env) (p : string) (s : fs) :
  exists b, securePathExists e p s = ([], s, Ok b).
Proof.
  unfold securePathExists, try_catch, mbind, io_bind, bind, lift.
  destruct (Validation.validateSafePath (cwd e) p (cwd e)); simpl; eauto.
Qed.

(** A scan that ends normally has copied every argument. *)
Lemma scan_args_copies (args : list string) :
  forall acc r,
    (scan_args args false acc = Some r -> r = acc ++ args)
    /\ (scan_args args true acc = Some r -> r = acc ++ tl args).
Proof.
  induction args as [|arg rest IH]; intros acc r; simpl.
  - split; intros H; injection H as <-; rewrite app_nil_r; reflexivity.
  - split.
    + destruct (invalid_argument arg); [discriminate |].
      destruct (is_context_flag arg).
      * intros H. apply (IH _ r) in H. subst r.
        destruct rest; simpl; rewrite <- ?app_assoc; reflexivity.
      * intros H. apply (IH _ r) in H. subst r.
        rewrite <- app_assoc. reflexivity.
    + intros H. apply (IH _ r) in H. exact H.
Qed.

(** An argument with one of [; | & ` $] stops the scan, unless it stands
    right after a context-file flag. *)
Lemma scan_args_rejects (arg : string) (post : list string) :
  invalid_argument arg = true ->
  forall pre skipNext acc,
    (pre = [] -> skipNext = false) ->
    (forall f, last pre = Some f -> is_context_flag f = false) ->
    scan_args (pre ++ arg :: post) skipNext acc = None.
Proof.
  intros Hbad. induction pre as [|a pre IH]; intros skipNext acc Hskip Hlast.
  - rewrite (Hskip eq_refl). simpl. rewrite Hbad. reflexivity.
  - assert (Hlast' : forall f, last pre = Some f -> is_context_flag f = false).
    { intros f Hf. apply Hlast. destruct pre; [discriminate | exact Hf]. }
    simpl. destruct skipNext.
    + apply IH; [reflexivity | exact Hlast'].
    + destruct (invalid_argument a); [reflexivity |].
      destruct (is_context_flag a) eqn:Hflag.
      * apply IH; [| exact Hlast'].
        intros ->. rewrite (Hlast a eq_refl) in Hflag. discriminate.
      * apply IH; [reflexivity | exact Hlast'].
Qed.

Lemma existsb_invalid_middle (pre post : list string) (arg : string) :
  invalid_argument arg = true ->
  existsb invalid_argument (pre ++ arg :: post) = true.
Proof.
  intros H. rewrite existsb_app. simpl. rewrite H.
  rewrite orb_true_r. reflexivity.
Qed.

(** C4 fails as stated: [echo>out] is refused by [validateCommand], and the
    wrapper, which has its own test for [; | & ` $] only, spawns the real
    binary with it. *)
Lemma sanitizer_does_not_guard_spawn : ~ sanitizer_guards_spawn.
Proof.
  intros H.
  specialize (H {| cwd := "/w"; randomBytes := []; injected := no_faults |}
                "/pkg/src/wrapper" ["echo>out"] ∅ (ChildExit (Some 0%Z))
                {[ "/" := Dir 493%N; "/w" := Dir 493%N ]} "echo>out").
  assert (Hrun : (runClaudeWithGuardian
                    {| cwd := "/w"; randomBytes := []; injected := no_faults |}
                    "/pkg/src/wrapper" ["echo>out"] ∅ (ChildExit (Some 0%Z))
                    {[ "/" := Dir 493%N; "/w" := Dir 493%N ]}).2
                 = Ok {| spawned := Some {| file := "claude-original";
                                            args := ["echo>out"];
                                            env_option := None;
                                            shell := false |};
                         exit_code := 0 |}).
  { vm_compute. reflexivity. }
  rewrite Hrun in H.
  assert (Habs : Ok {| spawned := Some {| file := "claude-original";
                                           args := ["echo>out"];
                                           env_option := None;
                                           shell := false |};
                        exit_code := 0 |} = Ok exit_before_spawn).
  { apply H; [left; reflexivity |]. eexists. vm_compute. reflexivity. }
  discriminate Habs.
Qed.

(** C4, amended.  The wrapper exits with code 1 and spawns nothing when an
    argument contains one of [; | & ` $]; in supervised mode this is for an
    argument that does not stand right after a context-file flag. *)
Theorem wrapper_rejects_invalid_argument
  (e : env) (dirname : string) (pre post : list string) (arg : string)
  (process_env : gmap string string) (child : child_event) (s : fs) :
  invalid_argument arg = true ->
  (supervised e s = true -> forall f, last pre = Some f -> is_context_flag f = false) ->
  (runClaudeWithGuardian e dirname (pre ++ arg :: post) process_env child s).2
  = Ok exit_before_spawn.
Proof.
  intros Hbad Hflag.
  unfold runClaudeWithGuardian. apply try_catch_exits.
  unfold supervised in Hflag.
  destruct (Validation.validateSafePath (cwd e) ".proguardian" (cwd e))
    as [guardianMarkerPath | err]; [| apply exits_or_throws_bind_throw with [] s err; reflexivity].
  apply exits_or_throws_bind_pure with guardianMarkerPath; [reflexivity |].
  destruct (Validation.validateSafePath (cwd e) "CLAUDE.md" (cwd e))
    as [claudeMdPath | err]; [| apply exits_or_throws_bind_throw with [] s err; reflexivity].
  apply exits_or_throws_bind_pure with claudeMdPath; [reflexivity |].
  destruct (securePathExists_pure e guardianMarkerPath s) as [active Hactive].
  rewrite Hactive in Hflag.
  apply exits_or_throws_bind_pure with active; [exact Hactive |].
  destruct active.
  - destruct (securePathExists_pure e claudeMdPath s) as [present Hpresent].
    apply exits_or_throws_bind_pure with present; [exact Hpresent |].
    apply exits_or_throws_bind. intros t s1 [] _.
    rewrite (scan_args_rejects arg post Hbad pre false []);
      [| reflexivity | apply Hflag; reflexivity].
    left. reflexivity.
  - rewrite (existsb_invalid_middle pre post arg Hbad). left. reflexivity.
Qed.

Lemma wrapper_rejects_invalid_argument_witness :
  (runClaudeWithGuardian
     {| cwd := "/w"; randomBytes := []; injected := no_faults |}
     "/pkg/src/wrapper" (["--print"] ++ "hello; rm -rf x" :: ["--verbose"]) ∅
     (ChildExit (Some 0%Z))
     {[ "/" := Dir 493%N; "/w" := Dir 493%N;
        "/w/.proguardian" := File "{}" 420%N;
        "/w/CLAUDE.md" := File "# notes" 420%N ]}).2
  = Ok exit_before_spawn.
Proof.
  apply wrapper_rejects_invalid_argument.
  - vm_compute. reflexivity.
  - intros _ f Hf. injection Hf as <-. vm_compute. reflexivity.
Defined.

End WrapperFacts.

(** ** The context flag *)

Section ContextFlag.
Import Errors Fs FileSecurity Wrapper SpecWrapper SpecContext.
Local Open Scope list_scope.

Lemma is_context_flag_spec (flag : string) :
  is_context_flag flag = true <-> flag = "--context-file" \/ flag = "-c".
Proof.
  unfold is_context_flag. rewrite orb_true_iff, !String.eqb_eq. reflexivity.
Qed.

Lemma hasClaudeMd_cons (a : string) (rest : list string) :
  hasClaudeMd (a :: rest)
  = match rest with
    | next :: _ =>
        if is_context_flag a && String.eqb next "CLAUDE.md" then true
        else hasClaudeMd rest
    | [] => false
    end.
Proof. reflexivity. Qed.

Lemma hasClaudeMd_spec (args : list string) :
  hasClaudeMd args = true <-> context_referenced args.
Proof.
  unfold context_referenced. induction args as [|a rest IH].
  - split; [discriminate |]. intros [pre [flag [post [H _]]]].
    destruct pre; discriminate.
  - rewrite hasClaudeMd_cons. destruct rest as [|next rest'].
    + split; [discriminate |]. intros [pre [flag [post [H _]]]].
      destruct pre as [|? [|? ?]]; discriminate.
    + destruct (is_context_flag a && String.eqb next "CLAUDE.md") eqn:Hhere.
      * split; [intros _ | reflexivity].
        apply andb_true_iff in Hhere as [Hflag Hnext].
        apply String.eqb_eq in Hnext. subst next.
        exists [], a, rest'. split; [reflexivity | apply is_context_flag_spec, Hflag].
      * rewrite IH. split.
        -- intros [pre [flag [post [H Hflag]]]].
           exists (a :: pre), flag, post. split; [simpl; congruence | exact Hflag].
        -- intros [pre [flag [post [H Hflag]]]].
           destruct pre as [|b pre]; simpl in H.
           ++ injection H as -> -> ->.
              apply is_context_flag_spec in Hflag. rewrite Hflag in Hhere.
              discriminate.
           ++ injection H as -> H. exists pre, flag, post. split; assumption.
Qed.

Lemma hasClaudeMd_includes (args : list string) :
  hasClaudeMd args = true ->
  array_includes args "--context-file" || array_includes args "-c" = true.
Proof.
  intros H. apply hasClaudeMd_spec in H as [pre [flag [post [-> Hflag]]]].
  unfold array_includes. rewrite !existsb_app. simpl.
  destruct Hflag as [-> | ->]; simpl; rewrite ?orb_true_r; reflexivity.
Qed.

Lemma include_context_eq (safeArgs : list string) :
  include_context safeArgs
  = if hasClaudeMd safeArgs then safeArgs
    else safeArgs ++ ["--context-file"; "CLAUDE.md"].
Proof.
  unfold include_context.
  destruct (hasClaudeMd safeArgs) eqn:Hhas.
  - apply hasClaudeMd_includes in Hhas.
    destruct (array_includes safeArgs "--context-file"),
             (array_includes safeArgs "-c"); simpl in *; congruence.
  - destruct (negb _ && negb _); reflexivity.
Qed.

Lemma hasClaudeMd_augmented (safeArgs : list string) :
  hasClaudeMd (safeArgs ++ ["--context-file"; "CLAUDE.md"]) = true.
Proof.
  apply hasClaudeMd_spec. exists safeArgs, "--context-file", []. split; [reflexivity | tauto].
Qed.

Lemma scan_context_pair (acc : list string) :
  scan_args ["--context-file"; "CLAUDE.md"] false acc
  = Some (acc ++ ["--context-file"; "CLAUDE.md"])
  /\ scan_args ["--context-file"; "CLAUDE.md"] true acc = Some (acc ++ ["CLAUDE.md"]).
Proof.
  split.
  - change (scan_args ["--context-file"; "CLAUDE.md"] false acc)
      with (Some ((acc ++ ["--context-file"]) ++ ["CLAUDE.md"])).
    rewrite <- app_assoc. reflexivity.
  - reflexivity.
Qed.

(** A scan that ends normally still does so when the context-file flag and
    [CLAUDE.md] are added at the end, and copies them too. *)
Lemma scan_args_augmented (args : list string) :
  (forall acc r, scan_args args false acc = Some r ->
      forall acc', scan_args (args ++ ["--context-file"; "CLAUDE.md"]) false acc'
                   = Some (acc' ++ args ++ ["--context-file"; "CLAUDE.md"]))
  /\ (forall acc r, scan_args args true acc = Some r ->
      forall acc', scan_args (args ++ ["--context-file"; "CLAUDE.md"]) true acc'
                   = Some (acc' ++ tl (args ++ ["--context-file"; "CLAUDE.md"]))).
Proof.
  induction args as [|a args [IHf IHt]].
  - split; intros acc r _ acc'; apply scan_context_pair.
  - split; intros acc r H acc'.
    + simpl in H. simpl.
      destruct (invalid_argument a); [discriminate |].
      destruct (is_context_flag a).
      * rewrite (IHt _ _ H).
        destruct args; simpl; rewrite <- ?app_assoc; reflexivity.
      * rewrite (IHf _ _ H). rewrite <- app_assoc. reflexivity.
    + simpl in H. simpl. exact (IHf _ _ H acc').
Qed.



End ContextFlag.

(** ** Atomic writes *)

Section PathLengths.
Local Open Scope list_scope.

Lemma drop_slashes_length (l : list ascii) :
  length (Path.drop_slashes l) <= length l.
Proof.
  induction l as [|c l IH]; simpl; [lia |].
  destruct (Ascii.eqb_spec c "/") as [-> | Hne]; [simpl; lia |].
  destruct c as [[] [] [] [] [] [] [] []]; simpl; try lia; congruence.
Qed.

Lemma drop_segment_length (l : list ascii) :
  length (Path.drop_segment l) <= length l.
Proof.
  induction l as [|c l IH]; simpl; [lia |].
  destruct (Ascii.eqb_spec c "/") as [-> | Hne]; [simpl; lia |].
  destruct c as [[] [] [] [] [] [] [] []]; simpl; try lia; congruence.
Qed.

Lemma string_length_of_list (l : list ascii) :
  String.length (string_of_list_ascii l) = length l.
Proof. induction l; simpl; congruence. Qed.

Lemma list_length_of_string (s : string) :
  length (list_ascii_of_string s) = String.length s.
Proof. induction s; simpl; congruence. Qed.

(** [path.dirname] never gives a longer path, but for [.] and [/]. *)
Lemma dirname_length (p : string) :
  String.length (Path.dirname p) <= Nat.max 1 (String.length p).
Proof.
  destruct p as [|first tail]; [simpl; lia |].
  unfold Path.dirname.
  pose proof (drop_segment_length (Path.drop_slashes (rev (list_ascii_of_string tail)))) as H1.
  pose proof (drop_slashes_length (rev (list_ascii_of_string tail))) as H2.
  rewrite length_rev, list_length_of_string in H2.
  destruct (Path.drop_segment _) as [|c rev_before].
  - destruct (Ascii.eqb first "/"); simpl; lia.
  - simpl in H1.
    destruct (Ascii.eqb first "/" && (length rev_before =? 0)%nat) eqn:Hroot.
    + simpl. lia.
    + simpl. rewrite string_length_of_list, length_rev. lia.
Qed.

(** A path of three characters or more is not its own directory. *)
Lemma dirname_shorter (p : string) :
  3 <= String.length p -> String.length (Path.dirname p) < String.length p.
Proof.
  destruct p as [|first tail]; [simpl; lia |].
  unfold Path.dirname. intros Hlen.
  pose proof (drop_segment_length (Path.drop_slashes (rev (list_ascii_of_string tail)))) as H1.
  pose proof (drop_slashes_length (rev (list_ascii_of_string tail))) as H2.
  rewrite length_rev, list_length_of_string in H2.
  destruct (Path.drop_segment _) as [|c rev_before].
  - destruct (Ascii.eqb first "/"); simpl in *; lia.
  - simpl in H1.
    destruct (Ascii.eqb first "/" && (length rev_before =? 0)%nat) eqn:Hroot.
    + simpl in *. lia.
    + simpl in *. rewrite string_length_of_list, length_rev. lia.
Qed.

Lemma ancestors_length (fuel : nat) (dir q : string) :
  In q (Fs.ancestors fuel dir) -> String.length q <= Nat.max 1 (String.length dir).
Proof.
  revert dir. induction fuel as [|fuel IH]; intros dir; simpl.
  - intros [<- | []]. lia.
  - destruct (String.eqb (Path.dirname dir) dir).
    + intros [<- | []]. lia.
    + rewrite in_app_iff. intros [H | [<- | []]]; [| lia].
      apply IH in H. pose proof (dirname_length dir). lia.
Qed.

Lemma append_length (a b : string) :
  String.length (a ++ b)%string = String.length a + String.length b.
Proof. induction a; simpl; [reflexivity |]. rewrite IHa. reflexivity. Qed.

End PathLengths.

Section FsFacts.
Import Errors Fs SpecFs.
Local Open Scope list_scope.

Lemma check_parent_cases (syscall p : string) (s : fs) :
  (parent_writable s p = true /\ check_parent syscall p s = ([], s, Ok tt))
  \/ (parent_writable s p = false /\ exists err, check_parent syscall p s = ([], s, Throw err)).
Proof.
  unfold check_parent, parent_writable. io_unfold. simpl.
  destruct (s !! Path.dirname p) as [[content m | m] |].
  - right. split; [reflexivity | eexists; reflexivity].
  - destruct (access s (Path.dirname p) W_OK).
    + left. split; reflexivity.
    + right. split; [reflexivity | eexists; reflexivity].
  - right. split; [reflexivity | eexists; reflexivity].
Qed.

Lemma parent_writable_insert (s : fs) (p q : string) (n : node) :
  Path.dirname p <> q ->
  parent_writable (<[q := n]> s) p = parent_writable s p.
Proof.
  intros Hne. unfold parent_writable, access.
  rewrite lookup_insert_ne by congruence. reflexivity.
Qed.

Lemma take_bytes_all (content : string) :
  take_bytes (String.length content) content = content.
Proof.
  unfold take_bytes. induction content as [|c content IH]; simpl; congruence.
Qed.

Lemma map_seq_last {X} (g : nat -> X) (w : nat) :
  map g (seq 0 w) ++ [g w] = map g (seq 0 (S w)).
Proof. rewrite seq_S, map_app. reflexivity. Qed.

Lemma writeFile_fresh_denied (f : faults) (p content : string) (mode : N) (s : fs) :
  s !! p = None -> parent_writable s p = false ->
  exists err, writeFile f p content mode s = ([], s, Throw err).
Proof.
  intros Hfresh Hparent. unfold writeFile.
  destruct (check_parent_cases "open" p s) as [[H _] | [_ [err Herr]]]; [congruence |].
  exists err. rewrite (bind_pure get _ s s eq_refl). rewrite Hfresh.
  apply bind_throw. apply bind_throw. exact Herr.
Qed.

Lemma writeFile_fresh_allowed (f : faults) (p content : string) (mode : N) (s : fs) :
  s !! p = None -> parent_writable s p = true ->
  writeFile f p content mode s
  = (map (fun n => <[p := File (take_bytes n content) mode]> s)
         (seq 0 (S (written_bytes f content))),
     <[p := File (take_bytes (written_bytes f content) content) mode]> s,
     match writeFile_fails_after f with
     | Some _ => Throw (NativeError "EIO: write" (Some "EIO"))
     | None => Ok tt
     end).
Proof.
  intros Hfresh Hparent. unfold writeFile, written_bytes.
  destruct (check_parent_cases "open" p s) as [[_ Hok] | [H _]]; [| congruence].
  rewrite (bind_pure get _ s s eq_refl). rewrite Hfresh.
  rewrite (bind_pure _ _ s mode); [| rewrite (bind_pure _ _ s tt Hok); reflexivity].
  erewrite bind_ok; [| reflexivity].
  rewrite (map_seq_last (fun n => <[p := File (take_bytes n content) mode]> s)).
  destruct (writeFile_fails_after f); simpl; rewrite app_nil_r; reflexivity.
Qed.

Lemma unlink_cases (f : faults) (p : string) (s : fs) :
  (exists err, unlink f p s = ([], s, Throw err))
  \/ unlink f p s = ([delete p s], delete p s, Ok tt).
Proof.
  unfold unlink. destruct (unlink_fails f).
  - left. eexists. reflexivity.
  - io_unfold. simpl. destruct (s !! p) as [[content m | m] |].
    + destruct (check_parent_cases "unlink" p s) as [[_ Hok] | [_ [err Herr]]].
      * right. io_unfold. rewrite Hok. reflexivity.
      * left. exists err. io_unfold. rewrite Herr. reflexivity.
    + left. eexists. reflexivity.
    + left. eexists. reflexivity.
Qed.

Lemma unlink_file (f : faults) (p content : string) (m : N) (s : fs) :
  unlink_fails f = false -> s !! p = Some (File content m) ->
  parent_writable s p = true ->
  unlink f p s = ([delete p s], delete p s, Ok tt).
Proof.
  intros Hf Hp Hparent. unfold unlink. rewrite Hf.
  io_unfold. simpl. rewrite Hp.
  destruct (check_parent_cases "unlink" p s) as [[_ Hok] | [H _]]; [| congruence].
  io_unfold. rewrite Hok. reflexivity.
Qed.

Lemma rename_cases (f : faults) (from to : string) (s : fs) :
  (exists err, rename f from to s = ([], s, Throw err))
  \/ (rename_fails f = false
      /\ exists n, s !! from = Some n
                   /\ rename f from to s
                      = ([<[to := n]> (delete from s)], <[to := n]> (delete from s), Ok tt)).
Proof.
  unfold rename. destruct (rename_fails f); [left; eexists; reflexivity |].
  rewrite (bind_pure get _ s s eq_refl).
  assert (Hgo : forall n, s !! from = Some n ->
            (exists err,
                (check_parent "rename" from ;; check_parent "rename" to ;;
                 update (fun s => <[to := n]> (delete from s))) s = ([], s, Throw err))
            \/ (check_parent "rename" from ;; check_parent "rename" to ;;
                update (fun s => <[to := n]> (delete from s))) s
               = ([<[to := n]> (delete from s)], <[to := n]> (delete from s), Ok tt)).
  { intros n Hn.
    destruct (check_parent_cases "rename" from s) as [[_ H1] | [_ [err H1]]].
    - rewrite (bind_pure _ _ s tt H1).
      destruct (check_parent_cases "rename" to s) as [[_ H2] | [_ [err H2]]].
      + rewrite (bind_pure _ _ s tt H2). right. reflexivity.
      + rewrite (bind_throw _ _ s s [] err H2). left. eauto.
    - rewrite (bind_throw _ _ s s [] err H1). left. eauto. }
  destruct (s !! from) as [[c1 m1 | m1] |] eqn:Hfrom.
  - destruct (s !! to) as [[c2 m2 | m2] |] eqn:Hto;
      try (left; eexists; reflexivity);
      (destruct (Hgo _ eq_refl) as [[err H] | H];
       [left; exists err; exact H
       | right; split; [reflexivity |]; eexists; split; [reflexivity | exact H]]).
  - destruct (s !! to) as [[c2 m2 | m2] |] eqn:Hto;
      try (left; eexists; reflexivity);
      (destruct (Hgo _ eq_refl) as [[err H] | H];
       [left; exists err; exact H
       | right; split; [reflexivity |]; eexists; split; [reflexivity | exact H]]).
  - left. eexists. reflexivity.
Qed.

End FsFacts.

Section AtomicWrite.
Import Errors Fs FileSecurity SpecFs.
Local Open Scope list_scope.

Lemma bind_inv {A B} (m : io A) (f : A -> io B) (s s' : fs) (t : list fs) (r : result B) :
  (m ≫= f) s = (t, s', r) ->
  (exists t1 s1 a t2, m s = (t1, s1, Ok a) /\ f a s1 = (t2, s', r) /\ t = t1 ++ t2)
  \/ (exists err, m s = (t, s', Throw err) /\ r = Throw err).
Proof.
  unfold mbind, io_bind, bind. destruct (m s) as [[t1 s1] [a | err]].
  - destruct (f a s1) as [[t2 s2] r2] eqn:Hf. intros H. injection H as <- <- <-.
    left. exists t1, s1, a, t2. auto.
  - intros H. injection H as <- <- <-. right. eauto.
Qed.

Lemma only_dirs_added_refl (s : fs) : only_dirs_added s s.
Proof. intros p. left. reflexivity. Qed.

Lemma only_dirs_added_trans (s1 s2 s3 : fs) :
  only_dirs_added s1 s2 -> only_dirs_added s2 s3 -> only_dirs_added s1 s3.
Proof.
  intros H12 H23 p. destruct (H23 p) as [H | [Hnone [m Hm]]].
  - rewrite H. apply H12.
  - destruct (H12 p) as [H | [Hnone' [m' Hm']]]; [| congruence].
    right. split; [congruence | eauto].
Qed.

Lemma only_dirs_added_mkdir (s : fs) (p : string) (mode : N) :
  s !! p = None -> only_dirs_added s (<[p := Dir mode]> s).
Proof.
  intros Hp q. destruct (decide (p = q)) as [<- | Hne].
  - right. rewrite lookup_insert_eq. eauto.
  - left. apply lookup_insert_ne. exact Hne.
Qed.

Lemma file_content_only_dirs_added (s s' : fs) (p : string) :
  only_dirs_added s s' -> file_content s' p = file_content s p.
Proof.
  intros H. unfold file_content. destruct (H p) as [-> | [-> [m ->]]]; reflexivity.
Qed.

Lemma mkdir_cases (p : string) (mode : N) (s : fs) :
  (exists r, mkdir p mode s = ([], s, r))
  \/ (s !! p = None
      /\ mkdir p mode s = ([<[p := Dir mode]> s], <[p := Dir mode]> s, Ok tt)).
Proof.
  unfold mkdir. rewrite (bind_pure get _ s s eq_refl).
  destruct (s !! p) as [[content m | m] |] eqn:Hp.
  - left. eexists. reflexivity.
  - left. eexists. reflexivity.
  - destruct (String.eqb (Path.dirname p) p).
    + right. split; [reflexivity |]. rewrite (bind_pure _ _ s tt eq_refl). reflexivity.
    + destruct (check_parent_cases "mkdir" p s) as [[_ Hok] | [_ [err Herr]]].
      * right. split; [reflexivity |]. rewrite (bind_pure _ _ s tt Hok). reflexivity.
      * left. eexists. apply bind_throw. exact Herr.
Qed.

(** [ensureDir] goes only through states that differ from the first by new
    directories, all of them among the paths it was asked to create. *)
Lemma mkdirs_states (ps : list string) (mode : N) :
  forall (s s' : fs) (t : list fs) (r : result unit),
    mkdirs ps mode s = (t, s', r) ->
    forall st, st = s' \/ In st t ->
               (forall q, ~ In q ps -> st !! q = s !! q) /\ only_dirs_added s st.
Proof.
  induction ps as [|p ps IH]; intros s s' t r Hrun st Hst.
  - injection Hrun as <- <- <-. destruct Hst as [-> | []].
    split; [reflexivity | apply only_dirs_added_refl].
  - simpl in Hrun. apply bind_inv in Hrun
      as [[t1 [s1 [[] [t2 [Hm [Hrest ->]]]]]] | [err [Hm ->]]].
    + destruct (mkdir_cases p mode s) as [[r0 H0] | [Hfresh H0]];
        rewrite H0 in Hm; injection Hm as <- <-.
      * intros. destruct (IH _ _ _ _ Hrest st Hst) as [Hq Hd].
        split; [| exact Hd]. intros q Hnot. apply Hq. intros Hin. apply Hnot. right. exact Hin.
      * assert (Hcase : st = <[p := Dir mode]> s \/ (st = s' \/ In st t2)).
        { destruct Hst as [-> | [<- | Hin]]; auto. }
        destruct Hcase as [-> | Hst'].
        -- split; [| apply only_dirs_added_mkdir; exact Hfresh].
           intros q Hnot. apply lookup_insert_ne. intros ->. apply Hnot. left. reflexivity.
        -- destruct (IH _ _ _ _ Hrest st Hst') as [Hq Hd]. split.
           ++ intros q Hnot. rewrite Hq by (intros Hin; apply Hnot; right; exact Hin).
              apply lookup_insert_ne. intros ->. apply Hnot. left. reflexivity.
           ++ eapply only_dirs_added_trans; [| exact Hd].
              apply only_dirs_added_mkdir. exact Hfresh.
    + destruct (mkdir_cases p mode s) as [[r0 H0] | [Hfresh H0]];
        rewrite H0 in Hm; [| discriminate].
      injection Hm as <- <- _. destruct Hst as [-> | []].
      split; [reflexivity | apply only_dirs_added_refl].
Qed.

(** The cleanup in the [catch] block: [unlink], errors ignored, then the
    error is thrown again. *)
Lemma cleanup_cases (f : faults) (tmp : string) (error : error) (s : fs) :
  (try_catch (unlink f tmp) (fun _ => ret tt) ;; @throw unit error) s = ([], s, Throw error)
  \/ (try_catch (unlink f tmp) (fun _ => ret tt) ;; @throw unit error) s
     = ([delete tmp s], delete tmp s, Throw error).
Proof.
  destruct (unlink_cases f tmp s) as [[err H] | H].
  - left. rewrite (bind_pure _ _ s tt); [reflexivity |].
    unfold try_catch. rewrite H. reflexivity.
  - right. erewrite bind_ok; [| unfold try_catch; rewrite H; reflexivity].
    reflexivity.
Qed.

Lemma cleanup_removes (f : faults) (tmp content : string) (m : N) (error : error) (s : fs) :
  unlink_fails f = false -> s !! tmp = Some (File content m) ->
  parent_writable s tmp = true ->
  (try_catch (unlink f tmp) (fun _ => ret tt) ;; @throw unit error) s
  = ([delete tmp s], delete tmp s, Throw error).
Proof.
  intros Hf Htmp Hparent.
  erewrite bind_ok;
    [| unfold try_catch; rewrite (unlink_file f tmp content m s Hf Htmp Hparent); reflexivity].
  reflexivity.
Qed.

Lemma cleanup_absent (f : faults) (tmp : string) (error : error) (s : fs) :
  s !! tmp = None ->
  (try_catch (unlink f tmp) (fun _ => ret tt) ;; @throw unit error) s = ([], s, Throw error).
Proof.
  intros Htmp. destruct (cleanup_cases f tmp error s) as [H | H]; [exact H |].
  rewrite H. rewrite delete_id by exact Htmp.
  destruct (unlink_cases f tmp s) as [[err Hu] | Hu].
  - rewrite (bind_pure _ _ s tt) in H; [| unfold try_catch; rewrite Hu; reflexivity].
    discriminate H.
  - unfold unlink in Hu. destruct (unlink_fails f); [discriminate |].
    rewrite (bind_pure get _ s s eq_refl) in Hu. rewrite Htmp in Hu. discriminate.
Qed.

End AtomicWrite.

Section AtomicPhase.
Import Errors Fs FileSecurity SpecFs.
Local Open Scope list_scope.

Lemma try_catch_ok {A} (m : io A) (h : error -> io A) (s s1 : fs) (t : list fs) (a : A) :
  m s = (t, s1, Ok a) -> try_catch m h s = (t, s1, Ok a).
Proof. intros H. unfold try_catch. rewrite H. reflexivity. Qed.

Lemma try_catch_throw {A} (m : io A) (h : error -> io A) (s s1 s2 : fs)
  (t t2 : list fs) (err : error) (r : result A) :
  m s = (t, s1, Throw err) -> h err s1 = (t2, s2, r) ->
  try_catch m h s = (t ++ t2, s2, r).
Proof. intros H Hh. unfold try_catch. rewrite H, Hh. reflexivity. Qed.

(** The [try] block of [secureWriteFile] and its [catch], from a state in
    which the temporary file does not exist yet. *)
Lemma atomic_phase (f : faults) (tmp safe content : string) (mode : N)
  (s0 s' : fs) (t : list fs) (r : result unit) :
  s0 !! tmp = None -> tmp <> safe -> Path.dirname tmp <> tmp ->
  try_catch (writeFile f tmp content mode ;; rename f tmp safe)
    (fun error => try_catch (unlink f tmp) (fun _ => ret tt) ;; @throw unit error) s0
  = (t, s', r) ->
  (forall st, In st t ->
      st = s0 \/ (exists x, st = <[tmp := File x mode]> s0)
      \/ (r = Ok tt /\ st = <[safe := File content mode]> s0))
  /\ (forall err, r = Throw err -> unlink_fails f = false -> s' = s0)
  /\ (r = Ok tt -> s' = <[safe := File content mode]> s0)
  /\ (writeFile_fails_after f <> None \/ rename_fails f = true -> exists err, r = Throw err).
Proof.
  intros Hfresh Hne Hdir Hrun.
  destruct (parent_writable s0 tmp) eqn:Hparent.
  - (* the temporary file is created *)
    pose proof (writeFile_fresh_allowed f tmp content mode s0 Hfresh Hparent) as Hw.
    remember (<[tmp := File (take_bytes (written_bytes f content) content) mode]> s0)
      as s1 eqn:Es1.
    remember (map (fun n => <[tmp := File (take_bytes n content) mode]> s0)
                (seq 0 (S (written_bytes f content)))) as states eqn:Estates.
    assert (Hstates : forall st, In st states -> exists x, st = <[tmp := File x mode]> s0).
    { intros st Hst. rewrite Estates in Hst. apply in_map_iff in Hst as [n [<- _]]. eauto. }
    assert (Hparent1 : parent_writable s1 tmp = true).
    { rewrite Es1. rewrite parent_writable_insert by exact Hdir. exact Hparent. }
    assert (Htmp1 : s1 !! tmp
                    = Some (File (take_bytes (written_bytes f content) content) mode)).
    { rewrite Es1. apply lookup_insert_eq. }
    assert (Hdel : delete tmp s1 = s0).
    { rewrite Es1. rewrite delete_insert_eq. apply delete_id. exact Hfresh. }
    assert (Hcleanup : forall (error : error) t2 s2 r2,
               (try_catch (unlink f tmp) (fun _ => ret tt) ;; @throw unit error) s1
               = (t2, s2, r2) ->
               r2 = Throw error
               /\ (forall st, In st t2 -> st = s0)
               /\ (unlink_fails f = false -> s2 = s0)).
    { intros error t2 s2 r2 Hc.
      destruct (cleanup_cases f tmp error s1) as [H | H]; rewrite H in Hc;
        injection Hc as <- <- <-.
      - split; [reflexivity |]. split; [intros st [] |].
        intros Hu. rewrite (cleanup_removes f tmp _ mode error s1 Hu Htmp1 Hparent1) in H.
        discriminate H.
      - rewrite Hdel. split; [reflexivity |]. split; [| reflexivity].
        intros st [<- | []]. reflexivity. }
    destruct (writeFile_fails_after f) as [k |] eqn:Hfault.
    + (* the write fails *)
      destruct ((try_catch (unlink f tmp) (fun _ => ret tt) ;;
                 @throw unit (NativeError "EIO: write" (Some "EIO"))) s1)
        as [[t2 s2] r2] eqn:Hc.
      rewrite (try_catch_throw _ _ s0 s1 s2 states t2
                 (NativeError "EIO: write" (Some "EIO")) r2) in Hrun;
        [| apply bind_throw; exact Hw | exact Hc].
      injection Hrun as <- <- <-.
      destruct (Hcleanup _ _ _ _ Hc) as [-> [Ht2 Hs2]].
      split; [| split; [| split]].
      * intros st Hst. apply in_app_iff in Hst as [Hst | Hst].
        -- right. left. apply Hstates. exact Hst.
        -- left. apply Ht2. exact Hst.
      * intros err _ Hu. apply Hs2. exact Hu.
      * discriminate.
      * intros _. eauto.
    + (* the write succeeds *)
      destruct (rename_cases f tmp safe s1) as [[err Hr] | [Hrf [n [Hn Hr]]]].
      * destruct ((try_catch (unlink f tmp) (fun _ => ret tt) ;; @throw unit err) s1)
          as [[t2 s2] r2] eqn:Hc.
        rewrite (try_catch_throw _ _ s0 s1 s2 (states ++ []) t2 err r2) in Hrun;
          [| erewrite bind_ok by exact Hw; rewrite Hr; reflexivity | exact Hc].
        injection Hrun as <- <- <-.
        destruct (Hcleanup _ _ _ _ Hc) as [-> [Ht2 Hs2]].
        split; [| split; [| split]].
        -- intros st Hst. rewrite app_nil_r in Hst.
           apply in_app_iff in Hst as [Hst | Hst].
           ++ right. left. apply Hstates. exact Hst.
           ++ left. apply Ht2. exact Hst.
        -- intros err' _ Hu. apply Hs2. exact Hu.
        -- discriminate.
        -- intros _. eauto.
      * rewrite Htmp1 in Hn. injection Hn as <-.
        rewrite Hdel in Hr.
        unfold written_bytes in Hr. rewrite Hfault, take_bytes_all in Hr.
        rewrite (try_catch_ok _ _ s0 (<[safe := File content mode]> s0)
                   (states ++ [<[safe := File content mode]> s0]) tt) in Hrun;
          [| erewrite bind_ok by exact Hw; rewrite Hr; reflexivity].
        injection Hrun as <- <- <-.
        split; [| split; [| split]].
        -- intros st Hst. apply in_app_iff in Hst as [Hst | [<- | []]].
           ++ right. left. apply Hstates. exact Hst.
           ++ right. right. split; reflexivity.
        -- discriminate.
        -- reflexivity.
        -- intros [H | H]; [congruence | congruence].
  - (* the temporary file cannot be created *)
    destruct (writeFile_fresh_denied f tmp content mode s0 Hfresh Hparent) as [err Hw].
    rewrite (try_catch_throw _ _ s0 s0 s0 [] [] err (Throw err)) in Hrun;
      [| apply bind_throw; exact Hw | apply cleanup_absent; exact Hfresh].
    injection Hrun as <- <- <-.
    split; [| split; [| split]].
    + intros st [].
    + reflexivity.
    + discriminate.
    + eauto.
Qed.

End AtomicPhase.

Section AtomicWriteTheorem.
Import Errors Fs FileSecurity SpecFs.
Local Open Scope list_scope.

Lemma tmpPath_length (e : env) (safePath : string) :
  String.length safePath + 5 <= String.length (tmpPath_of e safePath).
Proof.
  unfold tmpPath_of. rewrite !append_length. simpl. lia.
Qed.

Lemma tmpPath_not_target (e : env) (safePath : string) : tmpPath_of e safePath <> safePath.
Proof.
  intros H. pose proof (tmpPath_length e safePath) as Hlen. rewrite H in Hlen. lia.
Qed.

Lemma tmpPath_not_own_directory (e : env) (safePath : string) :
  Path.dirname (tmpPath_of e safePath) <> tmpPath_of e safePath.
Proof.
  intros H. pose proof (tmpPath_length e safePath) as Hlen.
  pose proof (dirname_shorter (tmpPath_of e safePath)) as Hshort.
  rewrite H in Hshort. lia.
Qed.

Lemma tmpPath_not_ancestor (e : env) (safePath : string) (fuel : nat) :
  ~ In (tmpPath_of e safePath) (ancestors fuel (Path.dirname safePath)).
Proof.
  intros H. apply ancestors_length in H.
  pose proof (dirname_length safePath) as Hdir.
  pose proof (tmpPath_length e safePath) as Hlen. lia.
Qed.

(** The course of [secureWriteFile]: the directories are made (states
    [t0], ending in [s0]); then either a check fails and the call stops
    there, or the [try] block runs from [s0]. *)
Lemma secureWriteFile_phases
  (e : env) (filePath content safePath : string) (mode : N)
  (s s' : fs) (trace : list fs) (r : result unit) :
  Validation.validateSafePath (cwd e) filePath (cwd e) = Ok safePath ->
  secureWriteFile e filePath content mode s = (trace, s', r) ->
  exists t0 s0 t2,
    trace = t0 ++ t2
    /\ (forall st, st = s0 \/ In st t0 ->
          (forall q, ~ In q (ancestors (String.length (Path.dirname safePath))
                               (Path.dirname safePath)) -> st !! q = s !! q)
          /\ only_dirs_added s st)
    /\ (try_catch (writeFile (injected e) (tmpPath_of e safePath) content mode ;;
                   rename (injected e) (tmpPath_of e safePath) safePath)
          (fun error =>
             try_catch (unlink (injected e) (tmpPath_of e safePath)) (fun _ => ret tt) ;;
             @throw unit error) s0 = (t2, s', r)
        \/ exists err, t2 = [] /\ s' = s0 /\ r = Throw err).
Proof.
  intros Hval Hrun.
  unfold secureWriteFile in Hrun. rewrite Hval in Hrun.
  rewrite (bind_pure _ _ s safePath eq_refl) in Hrun.
  fold (tmpPath_of e safePath) in Hrun.
  apply bind_inv in Hrun as [[t0 [s0 [[] [t2 [Hdirs [Hrest ->]]]]]] | [err [Hdirs ->]]].
  2: { exists trace, s', []. rewrite app_nil_r. split; [reflexivity |].
       split; [exact (mkdirs_states _ _ _ _ _ _ Hdirs) | right; eauto]. }
  exists t0, s0, t2. split; [reflexivity |].
  split; [exact (mkdirs_states _ _ _ _ _ _ Hdirs) |].
  cbv beta in Hrest.
  rewrite (bind_pure (checkPermissions (Path.dirname safePath) W_OK) _ s0
             (access s0 (Path.dirname safePath) W_OK) eq_refl) in Hrest.
  destruct (negb (access s0 (Path.dirname safePath) W_OK)).
  { rewrite (bind_throw _ _ s0 s0 [] _ eq_refl) in Hrest.
    injection Hrest as <- <- <-. right. eauto. }
  rewrite (bind_pure _ _ s0 tt eq_refl) in Hrest.
  rewrite (bind_pure (pathExists safePath) _ s0
             (bool_decide (is_Some (s0 !! safePath))) eq_refl) in Hrest.
  cbv beta in Hrest. destruct (bool_decide (is_Some (s0 !! safePath))); cbv iota in Hrest.
  - apply bind_inv in Hrest
      as [[t1 [s1 [[] [t3 [Hinner [Hphase ->]]]]]] | [err [Hinner ->]]];
      rewrite (bind_pure (checkPermissions safePath W_OK) _ s0
                 (access s0 safePath W_OK) eq_refl) in Hinner;
      cbv beta in Hinner;
      destruct (negb (access s0 safePath W_OK)); try discriminate Hinner.
    + injection Hinner as <- <-. left. exact Hphase.
    + injection Hinner as <- <- <-. right. eauto.
  - rewrite (bind_pure _ _ s0 tt eq_refl) in Hrest. left. exact Hrest.
Qed.

(** C1.  An atomic write to a validated target whose temporary file
    [target.tmp.<random hex>] does not exist beforehand.

    When a failure is injected after the temporary file is created and
    before the rename is done (the write to the temporary file fails part
    way, or the rename fails) and the cleanup can run, the call throws, the
    content of the target is what it was, no file was created or changed
    (only directories may have been created for the target's parents), the
    temporary file is gone, and the target had its old content in every
    state the file system went through.

    When the call succeeds, the target has the new content, the temporary
    file is gone, and in every state the file system went through the
    target had either its old content or the complete new content. *)
Theorem secureWriteFile_atomic
  (e : env) (filePath content safePath : string) (mode : N)
  (s s' : fs) (trace : list fs) (r : result unit) :
  Validation.validateSafePath (cwd e) filePath (cwd e) = Ok safePath ->
  s !! tmpPath_of e safePath = None ->
  secureWriteFile e filePath content mode s = (trace, s', r) ->
  ((writeFile_fails_after (injected e) <> None \/ rename_fails (injected e) = true) ->
   unlink_fails (injected e) = false ->
   (exists err, r = Throw err)
   /\ file_content s' safePath = file_content s safePath
   /\ only_dirs_added s s'
   /\ s' !! tmpPath_of e safePath = None
   /\ forall st, In st trace -> file_content st safePath = file_content s safePath)
  /\ (r = Ok tt ->
      file_content s' safePath = Some content
      /\ s' !! tmpPath_of e safePath = None
      /\ forall st, In st trace ->
                    file_content st safePath = file_content s safePath
                    \/ file_content st safePath = Some content).
Proof.
  intros Hval Hfresh Hrun.
  destruct (secureWriteFile_phases _ _ _ _ _ _ _ _ _ Hval Hrun)
    as [t0 [s0 [t2 [-> [Hst Hphase]]]]].
  set (tmp := tmpPath_of e safePath) in *.
  assert (Hbase : forall st, st = s0 \/ In st t0 ->
             file_content st safePath = file_content s safePath
             /\ only_dirs_added s st /\ st !! tmp = None).
  { intros st Hin. destruct (Hst st Hin) as [Hq Hd].
    split; [apply file_content_only_dirs_added, Hd |]. split; [exact Hd |].
    rewrite Hq by apply tmpPath_not_ancestor. exact Hfresh. }
  destruct (Hbase s0 (or_introl eq_refl)) as [Hc0 [Hd0 Ht0]].
  destruct Hphase as [Hphase | [err [-> [-> ->]]]].
  2: { split; [| discriminate]. intros _ _.
       split; [eauto |]. split; [exact Hc0 |]. split; [exact Hd0 |]. split; [exact Ht0 |].
       intros st Hin. rewrite app_nil_r in Hin. apply (Hbase st). right. exact Hin. }
  destruct (atomic_phase _ _ _ _ _ _ _ _ _ Ht0 (tmpPath_not_target e safePath)
              (tmpPath_not_own_directory e safePath) Hphase)
    as [Hstates [Hfail [Hok Hinj]]].
  assert (Htmp_state : forall x, file_content (<[tmp := File x mode]> s0) safePath
                                 = file_content s safePath).
  { intros x. unfold file_content.
    rewrite lookup_insert_ne by apply tmpPath_not_target. exact Hc0. }
  split.
  - intros Hfault Hunlink. destruct (Hinj Hfault) as [err ->].
    rewrite (Hfail err eq_refl Hunlink).
    split; [eauto |]. split; [exact Hc0 |]. split; [exact Hd0 |]. split; [exact Ht0 |].
    intros st Hin. apply in_app_iff in Hin as [Hin | Hin].
    + apply (Hbase st). right. exact Hin.
    + destruct (Hstates st Hin) as [-> | [[x ->] | [Habs _]]];
        [exact Hc0 | apply Htmp_state | discriminate].
  - intros ->. rewrite (Hok eq_refl). split; [| split].
    + unfold file_content. rewrite lookup_insert_eq. reflexivity.
    + rewrite lookup_insert_ne by (apply not_eq_sym, tmpPath_not_target). exact Ht0.
    + intros st Hin. apply in_app_iff in Hin as [Hin | Hin].
      * left. apply (Hbase st). right. exact Hin.
      * destruct (Hstates st Hin) as [-> | [[x ->] | [_ ->]]].
        -- left. exact Hc0.
        -- left. apply Htmp_state.
        -- right. unfold file_content. rewrite lookup_insert_eq. reflexivity.
Qed.

Lemma secureWriteFile_atomic_witness :
  (exists err, (secureWriteFile atomic_example_env "a.txt" "new!" 420 atomic_example_fs).2
               = Throw err)
  /\ file_content (secureWriteFile atomic_example_env "a.txt" "new!" 420
                     atomic_example_fs).1.2 "/w/a.txt"
     = Some "old".
Proof.
  destruct (secureWriteFile atomic_example_env "a.txt" "new!" 420 atomic_example_fs)
    as [[trace s'] r] eqn:Hrun.
  destruct (secureWriteFile_atomic atomic_example_env "a.txt" "new!" "/w/a.txt" 420
              atomic_example_fs s' trace r) as [Hfail _].
  - vm_compute. reflexivity.
  - vm_compute. reflexivity.
  - exact Hrun.
  - destruct Hfail as [Herr [Hcontent _]].
    + left. discriminate.
    + reflexivity.
    + cbn [fst snd]. split; [exact Herr |]. rewrite Hcontent. vm_compute. reflexivity.
Defined.

(** What a successful [writeFile] leaves at its path. *)
Lemma writeFile_ok (f : faults) (p content : string) (mode : N) (s s1 : fs)
  (t : list fs) :
  writeFile f p content mode s = (t, s1, Ok tt) ->
  exists m, s1 !! p = Some (File content m).
Proof.
  unfold writeFile. rewrite (bind_pure get _ s s eq_refl).
  intros H. apply bind_inv in H
    as [[t1 [s2 [m [t2 [Hm [Hrest ->]]]]]] | [err [_ Habs]]]; [| discriminate].
  assert (Hs2 : s2 = s).
  { destruct (s !! p) as [[c m0 | m0] |].
    - destruct (access s p W_OK); [injection Hm as _ <- _; reflexivity | discriminate].
    - discriminate.
    - apply bind_inv in Hm as [[t3 [s3 [[] [t4 [Hc [Hr _]]]]]] | [err [_ Habs]]];
        [| discriminate].
      injection Hr as _ <- _.
      destruct (check_parent_cases "open" p s) as [[_ Hok] | [_ [err Herr]]];
        rewrite Hc in *; congruence. }
  subst s2. cbv beta in Hrest.
  apply bind_inv in Hrest
    as [[t3 [s3 [[] [t4 [Hpass [Hend _]]]]]] | [err [_ Habs]]]; [| discriminate].
  injection Hpass as _ <-.
  destruct (writeFile_fails_after f); [discriminate |].
  injection Hend as _ <-. exists m.
  rewrite lookup_insert_eq, take_bytes_all. reflexivity.
Qed.

(** After a successful [secureWriteFile] the target holds the content. *)
Lemma secureWriteFile_ok_content
  (e : env) (filePath content safePath : string) (mode : N)
  (s s' : fs) (trace : list fs) :
  Validation.validateSafePath (cwd e) filePath (cwd e) = Ok safePath ->
  secureWriteFile e filePath content mode s = (trace, s', Ok tt) ->
  exists m, s' !! safePath = Some (File content m).
Proof.
  intros Hval Hrun.
  destruct (secureWriteFile_phases _ _ _ _ _ _ _ _ _ Hval Hrun)
    as [t0 [s0 [t2 [_ [_ [Hphase | [err [_ [_ Habs]]]]]]]]]; [| discriminate].
  destruct ((writeFile (injected e) (tmpPath_of e safePath) content mode ;;
             rename (injected e) (tmpPath_of e safePath) safePath) s0)
    as [[t1 s1] [[] | err]] eqn:Hinner.
  - rewrite (try_catch_ok _ _ _ _ _ _ Hinner) in Hphase.
    injection Hphase as _ <-.
    apply bind_inv in Hinner
      as [[t3 [s3 [[] [t4 [Hw [Hr _]]]]]] | [err [_ Habs]]]; [| discriminate].
    destruct (writeFile_ok _ _ _ _ _ _ _ Hw) as [m Hm].
    destruct (rename_cases (injected e) (tmpPath_of e safePath) safePath s3)
      as [[err Herr] | [_ [n [Hn Hren]]]]; [congruence |].
    rewrite Hren in Hr. injection Hr as _ <-.
    exists m. rewrite lookup_insert_eq. congruence.
  - destruct (cleanup_cases (injected e) (tmpPath_of e safePath) err s1) as [H | H];
      rewrite (try_catch_throw _ _ _ _ _ _ _ _ _ Hinner H) in Hphase; discriminate.
Qed.

End AtomicWriteTheorem.

(** ** JSON: strings and numbers read back *)

Section JsonStrings.
Import Json.
Local Open Scope list_scope.

Lemma skip_ws_app (ws s : list ascii) :
  Forall (fun c => is_ws c = true) ws -> skip_ws (ws ++ s) = skip_ws s.
Proof.
  induction 1 as [|c ws Hc _ IH]; [reflexivity |].
  simpl. rewrite Hc. exact IH.
Qed.

Lemma skip_ws_head (c : ascii) (s : list ascii) :
  is_ws c = false -> skip_ws (c :: s) = c :: s.
Proof. intros H. simpl. rewrite H. reflexivity. Qed.

(** Reading back one escaped character. *)
Lemma parse_string_escape (c : ascii) (rest acc : list ascii) :
  parse_string (escape c ++ rest) acc = parse_string rest (c :: acc).
Proof. destruct c as [[] [] [] [] [] [] [] []]; reflexivity. Qed.

Lemma parse_string_escaped (l rest acc : list ascii) :
  parse_string (flat_map escape l ++ Str.dquote :: rest) acc
  = Some (string_of_list_ascii (rev acc ++ l), rest).
Proof.
  revert acc. induction l as [|c l IH]; intros acc.
  - simpl. rewrite app_nil_r. reflexivity.
  - simpl flat_map. rewrite <- app_assoc, parse_string_escape, IH.
    simpl. rewrite <- app_assoc. reflexivity.
Qed.

(** A quoted string is read back as the string. *)
Lemma parse_string_quote (k : string) (rest : list ascii) :
  quote k ++ rest = Str.dquote :: (flat_map escape (chars k) ++ Str.dquote :: rest)
  /\ parse_string (flat_map escape (chars k) ++ Str.dquote :: rest) [] = Some (k, rest).
Proof.
  split.
  - unfold quote. simpl. rewrite <- app_assoc. reflexivity.
  - rewrite parse_string_escaped. simpl.
    unfold chars. rewrite string_of_list_ascii_of_string. reflexivity.
Qed.

End JsonStrings.

Section JsonNumbers.
Import Json JsonText.
Local Open Scope list_scope.

Lemma span_digits_app (ds rest : list ascii) :
  all_digits ds -> delimits rest = true -> span_digits (ds ++ rest) = (ds, rest).
Proof.
  intros Hds Hrest. induction Hds as [|c ds Hc _ IH].
  - destruct rest as [|c rest]; [reflexivity |].
    simpl in *. apply andb_true_iff in Hrest as [Hd _].
    destruct (Str.is_digit c); [discriminate | reflexivity].
  - simpl. rewrite Hc, IH. reflexivity.
Qed.

Lemma uint_all_digits (d : Decimal.uint) :
  all_digits (chars (NilEmpty.string_of_uint d)).
Proof. induction d; simpl; constructor; auto. Qed.

Lemma unorm_fixed_no_leading_zero (d d' : Decimal.uint) :
  Decimal.unorm d = d -> d <> Decimal.zero -> d <> Decimal.D0 d'.
Proof.
  intros Hnorm Hnz ->. rewrite unorm_D0 in Hnorm.
  destruct d' as [| | | | | | | | | |]; try (
    match type of Hnorm with
    | Decimal.unorm ?u = _ =>
        assert (Hu : u <> Decimal.Nil) by discriminate;
        pose proof (nb_digits_unorm u Hu) as Hlen;
        rewrite Hnorm in Hlen; simpl in Hlen; lia
    end).
  apply Hnz. reflexivity.
Qed.

Lemma pos_to_uint_normal (p : positive) : Decimal.unorm (Pos.to_uint p) = Pos.to_uint p.
Proof.
  rewrite <- (DecimalPos.Unsigned.to_of (Pos.to_uint p)).
  rewrite DecimalPos.Unsigned.of_to. reflexivity.
Qed.

(** The decimal text of a positive number starts with a digit other than
    zero. *)
Lemma pos_digits_head (p : positive) :
  exists c tl, chars (NilEmpty.string_of_uint (Pos.to_uint p)) = c :: tl
               /\ Str.is_digit c = true /\ Ascii.eqb c "0" = false.
Proof.
  pose proof (pos_to_uint_normal p) as Hnorm.
  pose proof (DecimalPos.Unsigned.to_uint_nonzero p) as Hnz.
  pose proof (DecimalPos.Unsigned.to_uint_nonnil p) as Hnn.
  destruct (Pos.to_uint p) as [| d | d | d | d | d | d | d | d | d | d] eqn:E;
    try (simpl; eexists _, _; split; [reflexivity | split; reflexivity]).
  - congruence.
  - exfalso. exact (unorm_fixed_no_leading_zero _ d Hnorm Hnz eq_refl).
Qed.

Lemma parse_digits_pos (p : positive) (rest : list ascii) :
  delimits rest = true ->
  parse_digits (chars (NilEmpty.string_of_uint (Pos.to_uint p)) ++ rest)
  = Some (Npos p, rest).
Proof.
  intros Hrest. unfold parse_digits.
  rewrite (span_digits_app _ rest (uint_all_digits _) Hrest).
  destruct (pos_digits_head p) as [c [tl [Hhead [_ Hzero]]]].
  rewrite Hhead at 1. rewrite Hzero. cbn [andb].
  assert (Hfrac : starts_fraction_or_exponent rest = false).
  { destruct rest as [|c' rest']; [reflexivity |].
    simpl in Hrest. apply andb_true_iff in Hrest as [_ H].
    apply negb_true_iff in H. exact H. }
  rewrite Hfrac. unfold chars. rewrite string_of_list_ascii_of_string.
  rewrite NilEmpty.usu. unfold N.of_uint.
  rewrite DecimalPos.Unsigned.of_to. reflexivity.
Qed.

Lemma parse_digits_zero (rest : list ascii) :
  delimits rest = true -> parse_digits ("0"%char :: rest) = Some (0%N, rest).
Proof.
  intros Hrest. unfold parse_digits.
  change ("0"%char :: rest) with (["0"%char] ++ rest).
  rewrite (span_digits_app ["0"%char] rest); [| repeat constructor | exact Hrest].
  assert (Hfrac : starts_fraction_or_exponent rest = false).
  { destruct rest as [|c' rest']; [reflexivity |].
    simpl in Hrest. apply andb_true_iff in Hrest as [_ H].
    apply negb_true_iff in H. exact H. }
  simpl. rewrite Hfrac. reflexivity.
Qed.

(** A printed number is read back as the number. *)
Lemma parse_number_print (n : Z) (rest : list ascii) :
  delimits rest = true ->
  parse_number (print_number n ++ rest) = Some (n, rest).
Proof.
  intros Hrest. destruct n as [| p | p].
  - change (print_number 0 ++ rest) with ("0"%char :: rest).
    unfold parse_number. rewrite (parse_digits_zero rest Hrest). reflexivity.
  - unfold print_number, parse_number.
    destruct (pos_digits_head p) as [c [tl [Hhead [Hdigit _]]]].
    assert (Hnot_minus : match chars (NilEmpty.string_of_uint (Pos.to_uint p)) ++ rest with
                         | "-"%char :: _ => False
                         | _ => True
                         end).
    { rewrite Hhead. simpl.
      destruct c as [[] [] [] [] [] [] [] []]; try exact I; discriminate Hdigit. }
    pose proof (parse_digits_pos p rest Hrest) as Hparse.
    destruct (chars (NilEmpty.string_of_uint (Pos.to_uint p)) ++ rest) as [|c' s'] eqn:E.
    + rewrite Hparse. reflexivity.
    + destruct c' as [[] [] [] [] [] [] [] []]; try (rewrite Hparse; reflexivity).
      contradiction.
  - unfold print_number, parse_number. simpl.
    rewrite (parse_digits_pos p rest Hrest). reflexivity.
Qed.

End JsonNumbers.

(** ** JSON: the text of a value is read back as the value *)

Section JsonRoundTrip.
Import Json JsonText.
Local Open Scope list_scope.

(** Induction on a value with the induction hypothesis for every element
    and every member. *)
Lemma json_nested_ind (P : json -> Prop) :
  P JNull -> (forall b, P (JBool b)) -> (forall n, P (JNumber n)) ->
  (forall s, P (JString s)) ->
  (forall elements, Forall P elements -> P (JArray elements)) ->
  (forall members, Forall (fun m => P (snd m)) members -> P (JObject members)) ->
  forall x, P x.
Proof.
  intros Hnull Hbool Hnum Hstr Harr Hobj.
  fix IH 1. intros [| b | n | s | elements | members].
  - exact Hnull.
  - apply Hbool.
  - apply Hnum.
  - apply Hstr.
  - apply Harr. induction elements as [|x elements IHl]; constructor; [apply IH | exact IHl].
  - apply Hobj. induction members as [|m members IHl]; constructor; [apply IH | exact IHl].
Qed.

Lemma ws_properties (c : ascii) :
  is_ws c = true ->
  Str.is_digit c = false
  /\ (Ascii.eqb c "." || Ascii.eqb c "e" || Ascii.eqb c "E") = false.
Proof.
  destruct c as [[] [] [] [] [] [] [] []]; intros H; try discriminate H;
    split; reflexivity.
Qed.

Lemma delimits_ws_then (ws : list ascii) (c : ascii) (rest : list ascii) :
  all_ws ws -> delimits (c :: rest) = true -> delimits (ws ++ c :: rest) = true.
Proof.
  intros Hws Hc. destruct Hws as [|w ws Hw _]; [exact Hc |].
  destruct (ws_properties w Hw) as [Hd Hf].
  simpl. rewrite Hd, Hf. reflexivity.
Qed.

Lemma all_ws_line (gap indent : list ascii) : all_ws indent -> all_ws (line gap indent).
Proof.
  intros H. unfold line. destruct gap; [constructor |].
  constructor; [reflexivity | exact H].
Qed.

Lemma all_ws_gap (spaces : nat) : all_ws (gap_of spaces).
Proof.
  unfold gap_of. induction (Nat.min spaces 10); simpl; constructor; auto.
Qed.

Lemma all_ws_app (a b : list ascii) : all_ws a -> all_ws b -> all_ws (a ++ b).
Proof. intros Ha Hb. apply Forall_app. split; assumption. Qed.

Lemma number_head_facts (c : ascii) :
  Str.is_digit c = true \/ c = "-"%char ->
  is_ws c = false /\ Ascii.eqb "]" c = false /\ Ascii.eqb "}" c = false
  /\ Ascii.eqb c "n" = false /\ Ascii.eqb c "t" = false /\ Ascii.eqb c "f" = false
  /\ Ascii.eqb c Str.dquote = false /\ Ascii.eqb c "[" = false
  /\ Ascii.eqb c "{" = false.
Proof.
  intros [H | ->]; [| repeat split].
  destruct c as [[] [] [] [] [] [] [] []]; try discriminate H; repeat split.
Qed.

Lemma print_number_head (n : Z) :
  exists c tl, print_number n = c :: tl /\ (Str.is_digit c = true \/ c = "-"%char).
Proof.
  destruct n as [| p | p].
  - eexists _, _. split; [reflexivity | left; reflexivity].
  - destruct (pos_digits_head p) as [c [tl [Hhead [Hdigit _]]]].
    exists c, tl. split; [exact Hhead | left; exact Hdigit].
  - eexists _, _. split; [reflexivity | right; reflexivity].
Qed.

(** A printed value starts with a character that is neither white space
    nor a closing bracket. *)
Lemma print_head (gap indent : list ascii) (x : json) :
  exists c tl, print gap indent x = c :: tl
               /\ is_ws c = false /\ Ascii.eqb "]" c = false /\ Ascii.eqb "}" c = false.
Proof.
  destruct x as [| [] | n | s | [|x elements] | [|m members]];
    try (eexists _, _; split; [reflexivity | repeat split]).
  destruct (print_number_head n) as [c [tl [Hhead Hc]]].
  exists c, tl. split; [exact Hhead |].
  destruct (number_head_facts c Hc) as [H1 [H2 [H3 _]]]. auto.
Qed.

Lemma print_nonempty (gap indent : list ascii) (x : json) :
  1 <= length (print gap indent x).
Proof.
  destruct (print_head gap indent x) as [c [tl [H _]]]. rewrite H. simpl. lia.
Qed.

Lemma join_with_length (sep : list ascii) (parts : list (list ascii)) (p : list ascii) :
  In p parts -> length p <= length (join_with sep parts).
Proof.
  induction parts as [|q parts IH]; [intros [] |].
  intros [-> | Hin].
  - destruct parts as [|q' parts]; [simpl; lia |].
    change (join_with sep (p :: q' :: parts))
      with (p ++ sep ++ join_with sep (q' :: parts)).
    rewrite !length_app. lia.
  - specialize (IH Hin). destruct parts as [|q' parts]; [destruct Hin |].
    change (join_with sep (q :: q' :: parts))
      with (q ++ sep ++ join_with sep (q' :: parts)).
    rewrite !length_app. lia.
Qed.

Lemma join_with_count (sep : list ascii) (parts : list (list ascii)) :
  (forall p, In p parts -> 1 <= length p) ->
  length parts <= length (join_with sep parts).
Proof.
  induction parts as [|q parts IH]; intros Hne; [simpl; lia |].
  assert (Hq : 1 <= length q) by (apply Hne; left; reflexivity).
  assert (IH' : length parts <= length (join_with sep parts)).
  { apply IH. intros p Hp. apply Hne. right. exact Hp. }
  destruct parts as [|q' parts]; [simpl; lia |].
  change (join_with sep (q :: q' :: parts))
    with (q ++ sep ++ join_with sep (q' :: parts)).
  rewrite !length_app. cbn [length] in *. lia.
Qed.

Lemma parse_value_skip (fuel : nat) (ws s : list ascii) :
  all_ws ws -> parse_value fuel (ws ++ s) = parse_value fuel s.
Proof.
  intros Hws. destruct fuel; [reflexivity |].
  unfold parse_value; fold parse_value. rewrite (skip_ws_app ws s Hws). reflexivity.
Qed.

Lemma expect_close_none (close c : ascii) (s : list ascii) :
  Ascii.eqb close c = false -> expect [close] (c :: s) = None.
Proof. intros H. simpl. rewrite H. reflexivity. Qed.

End JsonRoundTrip.

Section JsonRoundTripMain.
Import Json JsonText.
Local Open Scope list_scope.

Lemma delimits_comma (rest : list ascii) : delimits (","%char :: rest) = true.
Proof. reflexivity. Qed.

Lemma delimits_close_bracket (ws rest : list ascii) :
  all_ws ws -> delimits (ws ++ "]"%char :: rest) = true.
Proof. intros H. apply delimits_ws_then; [exact H | reflexivity]. Qed.

Lemma delimits_close_brace (ws rest : list ascii) :
  all_ws ws -> delimits (ws ++ "}"%char :: rest) = true.
Proof. intros H. apply delimits_ws_then; [exact H | reflexivity]. Qed.

(** The elements of a printed array are read back. *)
Lemma parse_elements_print
  (pv : list ascii -> option (json * list ascii)) (gap indent sepws endws : list ascii)
  (rest : list ascii) (xs : list json) :
  xs <> [] -> all_ws sepws -> all_ws endws ->
  (forall x, In x xs -> forall ws rest',
        all_ws ws -> delimits rest' = true ->
        pv (ws ++ print gap indent x ++ rest') = Some (x, rest')) ->
  forall fuel ws,
    all_ws ws -> length xs <= fuel ->
    parse_elements pv fuel
      (ws ++ join_with (","%char :: sepws) (map (print gap indent) xs)
          ++ endws ++ "]"%char :: rest)
    = Some (xs, rest).
Proof.
  intros Hne Hsep Hend. induction xs as [|x xs IH]; [congruence |].
  intros Hpv fuel ws Hws Hfuel.
  destruct fuel as [|fuel]; [simpl in Hfuel; lia |].
  destruct xs as [|x2 xs].
  - change (join_with (","%char :: sepws) (map (print gap indent) [x]))
      with (print gap indent x).
    cbn [parse_elements].
    rewrite (Hpv x (or_introl eq_refl) ws (endws ++ "]"%char :: rest) Hws
               (delimits_close_bracket endws rest Hend)).
    rewrite (skip_ws_app endws _ Hend). reflexivity.
  - change (join_with (","%char :: sepws) (map (print gap indent) (x :: x2 :: xs)))
      with (print gap indent x ++ ("," %char :: sepws)
              ++ join_with (","%char :: sepws) (map (print gap indent) (x2 :: xs))).
    rewrite <- !app_assoc, <- ?app_comm_cons. cbn [parse_elements].
    rewrite (Hpv x (or_introl eq_refl) ws _ Hws (delimits_comma _)).
    rewrite (skip_ws_head ","%char _ eq_refl).
    change (Ascii.eqb "," ",") with true. cbv iota.
    rewrite IH; [reflexivity | discriminate | | exact Hsep | simpl in *; lia].
    intros y Hy. apply Hpv. right. exact Hy.
Qed.

Lemma colon_shape (gap : list ascii) :
  all_ws gap -> exists ws, all_ws ws /\ colon gap = ":"%char :: ws.
Proof.
  intros _. unfold colon. destruct gap.
  - exists []. split; [constructor | reflexivity].
  - exists [" "%char]. split; [repeat constructor | reflexivity].
Qed.

(** One printed member is read up to the end of its value. *)
Lemma parse_member_text
  (gap indent : list ascii) (k : string) (x : json) (rest : list ascii) (ws : list ascii) :
  all_ws gap -> all_ws ws ->
  exists ws' s1,
    all_ws ws'
    /\ skip_ws (ws ++ member_text gap indent (k, x) ++ rest) = Str.dquote :: s1
    /\ parse_string s1 [] = Some (k, ":"%char :: ws' ++ print gap indent x ++ rest).
Proof.
  intros Hgap Hws. destruct (colon_shape gap Hgap) as [ws' [Hws' Hcolon]].
  exists ws', (flat_map escape (chars k)
                 ++ Str.dquote :: (":"%char :: ws' ++ print gap indent x ++ rest)).
  split; [exact Hws' |]. split.
  - rewrite (skip_ws_app ws _ Hws). unfold member_text.
    rewrite <- !app_assoc.
    rewrite (proj1 (parse_string_quote k _)).
    rewrite Hcolon. rewrite <- app_comm_cons. reflexivity.
  - apply parse_string_quote.
Qed.

(** The members of a printed object are read back. *)
Lemma parse_members_print
  (pv : list ascii -> option (json * list ascii)) (gap indent sepws endws : list ascii)
  (rest : list ascii) (ms : list (string * json)) :
  ms <> [] -> all_ws gap -> all_ws sepws -> all_ws endws ->
  (forall m, In m ms -> forall ws rest',
        all_ws ws -> delimits rest' = true ->
        pv (ws ++ print gap indent (snd m) ++ rest') = Some (snd m, rest')) ->
  forall fuel ws,
    all_ws ws -> length ms <= fuel ->
    parse_members pv fuel
      (ws ++ join_with (","%char :: sepws) (map (member_text gap indent) ms)
          ++ endws ++ "}"%char :: rest)
    = Some (ms, rest).
Proof.
  intros Hne Hgap Hsep Hend. induction ms as [|[k x] ms IH]; [congruence |].
  intros Hpv fuel ws Hws Hfuel.
  destruct fuel as [|fuel]; [simpl in Hfuel; lia |].
  destruct ms as [|m2 ms].
  - change (join_with (","%char :: sepws) (map (member_text gap indent) [(k, x)]))
      with (member_text gap indent (k, x)).
    destruct (parse_member_text gap indent k x (endws ++ "}"%char :: rest) ws Hgap Hws)
      as [ws' [s1 [Hws' [Hskip Hkey]]]].
    cbn [parse_members]. rewrite Hskip.
    change (Ascii.eqb Str.dquote Str.dquote) with true. cbv iota. simpl negb. cbv iota.
    rewrite Hkey. rewrite (skip_ws_head ":"%char _ eq_refl).
    change (Ascii.eqb ":" ":") with true. simpl negb. cbv iota.
    pose proof (Hpv (k, x) (or_introl eq_refl) ws' (endws ++ "}"%char :: rest) Hws'
                  (delimits_close_brace endws rest Hend)) as Hx.
    cbn [snd] in Hx. rewrite Hx.
    rewrite (skip_ws_app endws _ Hend). reflexivity.
  - change (join_with (","%char :: sepws) (map (member_text gap indent) ((k, x) :: m2 :: ms)))
      with (member_text gap indent (k, x) ++ ("," %char :: sepws)
              ++ join_with (","%char :: sepws) (map (member_text gap indent) (m2 :: ms))).
    rewrite <- !app_assoc, <- ?app_comm_cons.
    destruct (parse_member_text gap indent k x
                ("," %char :: sepws
                   ++ join_with (","%char :: sepws)
                        (map (member_text gap indent) (m2 :: ms))
                   ++ endws ++ "}"%char :: rest) ws Hgap Hws)
      as [ws' [s1 [Hws' [Hskip Hkey]]]].
    cbn [parse_members]. rewrite Hskip.
    change (Ascii.eqb Str.dquote Str.dquote) with true. simpl negb. cbv iota.
    rewrite Hkey. rewrite (skip_ws_head ":"%char _ eq_refl).
    change (Ascii.eqb ":" ":") with true. simpl negb. cbv iota.
    pose proof (Hpv (k, x) (or_introl eq_refl) ws'
                  ("," %char :: sepws
                     ++ join_with (","%char :: sepws)
                          (map (member_text gap indent) (m2 :: ms))
                     ++ endws ++ "}"%char :: rest) Hws' (delimits_comma _)) as Hx.
    cbn [snd] in Hx. rewrite Hx.
    rewrite (skip_ws_head ","%char _ eq_refl).
    change (Ascii.eqb "," ",") with true. cbv iota.
    rewrite IH; [reflexivity | discriminate | | exact Hsep | simpl in *; lia].
    intros y Hy. apply Hpv. right. exact Hy.
Qed.

End JsonRoundTripMain.

Section JsonRoundTripTheorem.
Import Json JsonText.
Local Open Scope list_scope.

Lemma set_member_fresh (members : list (string * json)) (k : string) (x : json) :
  k ∉ map fst members -> set_member members k x = members ++ [(k, x)].
Proof.
  induction members as [|[k' x'] members IH]; intros Hk; [reflexivity |].
  simpl. destruct (String.eqb_spec k' k) as [-> | Hne].
  - exfalso. apply Hk. simpl. left.
  - rewrite IH; [reflexivity |]. intros Hin. apply Hk. simpl. right. exact Hin.
Qed.

Lemma fold_set_member (ms acc : list (string * json)) :
  NoDup (map fst (acc ++ ms)) ->
  fold_left (fun members kx => set_member members (fst kx) (snd kx)) ms acc = acc ++ ms.
Proof.
  revert acc. induction ms as [|[k x] ms IH]; intros acc Hnd.
  - rewrite app_nil_r. reflexivity.
  - simpl. rewrite set_member_fresh.
    + rewrite IH; rewrite <- app_assoc; [reflexivity | exact Hnd].
    + rewrite map_app in Hnd. apply NoDup_app in Hnd as [_ [Hdisj _]].
      intros Hin. apply (Hdisj k Hin). simpl. left.
Qed.

(** Defining distinct keys one after the other gives the members in their
    order. *)
Lemma define_all_distinct (ms : list (string * json)) :
  NoDup (map fst ms) -> define_all ms = ms.
Proof. intros H. unfold define_all. rewrite fold_set_member; [reflexivity | exact H]. Qed.

Lemma print_array_cons (gap indent : list ascii) (x : json) (xs : list json) :
  print gap indent (JArray (x :: xs))
  = "["%char :: line gap (indent ++ gap)
      ++ join_with (","%char :: line gap (indent ++ gap))
           (map (print gap (indent ++ gap)) (x :: xs))
      ++ line gap indent ++ ["]"%char].
Proof. reflexivity. Qed.

Lemma print_object_cons (gap indent : list ascii) (m : string * json)
  (ms : list (string * json)) :
  print gap indent (JObject (m :: ms))
  = "{"%char :: line gap (indent ++ gap)
      ++ join_with (","%char :: line gap (indent ++ gap))
           (map (member_text gap (indent ++ gap)) (m :: ms))
      ++ line gap indent ++ ["}"%char].
Proof. reflexivity. Qed.

(** A printed value is read back, whatever white space stands before it
    and whatever delimiter after it. *)
Lemma parse_value_print (x : json) :
  representable x = true ->
  forall gap indent fuel ws rest,
    all_ws gap -> all_ws indent -> all_ws ws ->
    length (print gap indent x) <= fuel ->
    delimits rest = true ->
    parse_value fuel (ws ++ print gap indent x ++ rest) = Some (x, rest).
Proof.
  induction x as [| b | n | s | xs IH | ms IH] using json_nested_ind;
    intros Hrep gap indent fuel ws rest Hgap Hindent Hws Hfuel Hrest;
    rewrite (parse_value_skip fuel ws _ Hws);
    (destruct fuel as [|fuel];
     [pose proof (print_nonempty gap indent) as Hne;
      match type of Hfuel with length (print _ _ ?v) <= _ => specialize (Hne v) end; lia |]).
  - reflexivity.
  - destruct b; reflexivity.
  - destruct (print_number_head n) as [c [tl [Hhead Hc]]].
    destruct (number_head_facts c Hc) as [H1 [_ [_ [H2 [H3 [H4 [H5 [H6 H7]]]]]]]].
    change (print gap indent (JNumber n)) with (print_number n).
    pose proof (parse_number_print n rest Hrest) as Hparse.
    rewrite Hhead in *. rewrite <- app_comm_cons in *.
    cbn [parse_value]. rewrite (skip_ws_head c _ H1).
    rewrite H2, H3, H4, H5, H6, H7. rewrite Hparse. reflexivity.
  - change (print gap indent (JString s)) with (quote s).
    rewrite (proj1 (parse_string_quote s rest)).
    cbn [parse_value]. rewrite (skip_ws_head Str.dquote _ eq_refl).
    change (Ascii.eqb Str.dquote "n") with false.
    change (Ascii.eqb Str.dquote "t") with false.
    change (Ascii.eqb Str.dquote "f") with false.
    change (Ascii.eqb Str.dquote Str.dquote) with true. cbv iota.
    rewrite (proj2 (parse_string_quote s rest)). reflexivity.
  - destruct xs as [|x xs]; [reflexivity |].
    rewrite print_array_cons in *.
    pose proof (all_ws_app _ _ Hindent Hgap) as Hindent'.
    pose proof (all_ws_line gap _ Hindent') as Hline'.
    pose proof (all_ws_line gap _ Hindent) as Hline.
    destruct (print_head gap (indent ++ gap) x) as [c [tl [Hhead [Hc1 [Hc2 _]]]]].
    rewrite <- app_comm_cons, <- !app_assoc.
    cbn [parse_value]. rewrite (skip_ws_head "["%char _ eq_refl).
    change (Ascii.eqb "[" "n") with false.
    change (Ascii.eqb "[" "t") with false.
    change (Ascii.eqb "[" "f") with false.
    change (Ascii.eqb "[" Str.dquote) with false.
    change (Ascii.eqb "[" "[") with true. cbv iota.
    replace (expect (chars "]") _) with (@None (list ascii)).
    2: { rewrite (skip_ws_app _ _ Hline').
         destruct xs as [|x2 xs].
         - change (join_with _ (map _ [x])) with (print gap (indent ++ gap) x).
           rewrite Hhead. rewrite <- app_comm_cons.
           rewrite (skip_ws_head c _ Hc1). symmetry. apply expect_close_none. exact Hc2.
         - change (join_with ?sep (map ?f (x :: x2 :: xs)))
             with (f x ++ sep ++ join_with sep (map f (x2 :: xs))).
           rewrite Hhead. rewrite <- !app_comm_cons.
           rewrite (skip_ws_head c _ Hc1). symmetry. apply expect_close_none. exact Hc2. }
    cbn [app] in *. rewrite <- ?app_comm_cons.
    rewrite (parse_elements_print (parse_value fuel) gap (indent ++ gap)
               (line gap (indent ++ gap)) (line gap indent) rest (x :: xs));
      [reflexivity | discriminate | exact Hline' | exact Hline | | exact Hline' |].
    + intros y Hy ws' rest' Hws' Hrest'.
      rewrite List.Forall_forall in IH. apply (IH y Hy); try assumption.
      * change (representable (JArray (x :: xs)))
          with (forallb representable (x :: xs)) in Hrep.
        rewrite forallb_forall in Hrep. apply Hrep. exact Hy.
      * pose proof (join_with_length (","%char :: line gap (indent ++ gap))
                      (map (print gap (indent ++ gap)) (x :: xs))
                      (print gap (indent ++ gap) y) (in_map _ _ _ Hy)) as Hlen.
        cbn [length] in Hfuel. rewrite !length_app in Hfuel. lia.
    + pose proof (join_with_count (","%char :: line gap (indent ++ gap))
                    (map (print gap (indent ++ gap)) (x :: xs))) as Hcount.
      rewrite length_map in Hcount.
      rewrite !length_app.
      assert (length (x :: xs)
              <= length (join_with (","%char :: line gap (indent ++ gap))
                           (map (print gap (indent ++ gap)) (x :: xs)))); [| lia].
      apply Hcount. intros p Hp. apply in_map_iff in Hp as [y [<- _]].
      apply print_nonempty.
  - destruct ms as [|m ms]; [reflexivity |].
    rewrite print_object_cons in *.
    pose proof (all_ws_app _ _ Hindent Hgap) as Hindent'.
    pose proof (all_ws_line gap _ Hindent') as Hline'.
    pose proof (all_ws_line gap _ Hindent) as Hline.
    change (representable (JObject (m :: ms)))
      with (bool_decide (NoDup (map fst (m :: ms)))
            && forallb (fun m => representable (snd m)) (m :: ms)) in Hrep.
    apply andb_true_iff in Hrep as [Hkeys Hrep].
    apply bool_decide_eq_true in Hkeys.
    rewrite <- app_comm_cons, <- !app_assoc.
    cbn [parse_value]. rewrite (skip_ws_head "{"%char _ eq_refl).
    change (Ascii.eqb "{" "n") with false.
    change (Ascii.eqb "{" "t") with false.
    change (Ascii.eqb "{" "f") with false.
    change (Ascii.eqb "{" Str.dquote) with false.
    change (Ascii.eqb "{" "[") with false.
    change (Ascii.eqb "{" "{") with true. cbv iota.
    replace (expect (chars "}") _) with (@None (list ascii)).
    2: { rewrite (skip_ws_app _ _ Hline').
         destruct m as [k x]. destruct ms as [|m2 ms].
         - change (join_with _ (map _ [(k, x)])) with (member_text gap (indent ++ gap) (k, x)).
           unfold member_text, quote. reflexivity.
         - change (join_with ?sep (map ?f ((k, x) :: m2 :: ms)))
             with (f (k, x) ++ sep ++ join_with sep (map f (m2 :: ms))).
           unfold member_text, quote. reflexivity. }
    rewrite (parse_members_print (parse_value fuel) gap (indent ++ gap)
               (line gap (indent ++ gap)) (line gap indent) rest (m :: ms));
      [| discriminate | exact Hgap | exact Hline' | exact Hline | | exact Hline' |].
    + cbn [option_map fst snd]. rewrite (define_all_distinct _ Hkeys). reflexivity.
    + intros y Hy ws' rest' Hws' Hrest'.
      rewrite List.Forall_forall in IH. apply (IH y Hy); try assumption.
      * rewrite forallb_forall in Hrep. apply Hrep. exact Hy.
      * pose proof (join_with_length (","%char :: line gap (indent ++ gap))
                      (map (member_text gap (indent ++ gap)) (m :: ms))
                      (member_text gap (indent ++ gap) y) (in_map _ _ _ Hy)) as Hlen.
        destruct y as [k y]. unfold member_text at 1 in Hlen.
        rewrite !length_app in Hlen.
        cbn [length] in Hfuel. rewrite !length_app in Hfuel. cbn [snd]. lia.
    + pose proof (join_with_count (","%char :: line gap (indent ++ gap))
                    (map (member_text gap (indent ++ gap)) (m :: ms))) as Hcount.
      rewrite length_map in Hcount.
      rewrite !length_app.
      assert (length (m :: ms)
              <= length (join_with (","%char :: line gap (indent ++ gap))
                           (map (member_text gap (indent ++ gap)) (m :: ms)))); [| lia].
      apply Hcount. intros p Hp. apply in_map_iff in Hp as [[k y] [<- _]].
      unfold member_text, quote. simpl. lia.
Qed.

(** [JSON.parse(JSON.stringify(x, null, spaces))] is [x]. *)
Theorem parse_print (x : json) (spaces : nat) :
  representable x = true ->
  parse (string_of_list_ascii (print (gap_of spaces) [] x)) = Some x.
Proof.
  intros Hrep. unfold parse, chars.
  rewrite list_ascii_of_string_of_list_ascii.
  pose proof (parse_value_print x Hrep (gap_of spaces) [] 
                (S (length (print (gap_of spaces) [] x))) [] []
                (all_ws_gap spaces) (List.Forall_nil _) (List.Forall_nil _)) as H.
  rewrite app_nil_r in H. simpl app in H.
  rewrite H; [reflexivity | lia | reflexivity].
Qed.

End JsonRoundTripTheorem.

(** ** JSON: cyclic structures *)

Section HeapWalk.
Import Json SpecHeap.
Local Open Scope list_scope.

Lemma all_some_inv {A B} (f : A -> option B) (l : list A) (ts : list B) :
  all_some (map f l) = Some ts -> forall x, In x l -> exists t, f x = Some t.
Proof.
  revert ts. induction l as [|a l IH]; intros ts H x Hx; [destruct Hx |].
  simpl in H. destruct (f a) as [b |] eqn:Hfa; [| discriminate].
  destruct (all_some (map f l)) as [ts' |] eqn:Hl; [| discriminate].
  destruct Hx as [<- | Hx]; [eauto | exact (IH ts' eq_refl x Hx)].
Qed.

Lemma all_some_total {A B} (f : A -> option B) (l : list A) :
  (forall x, In x l -> exists t, f x = Some t) -> exists ts, all_some (map f l) = Some ts.
Proof.
  induction l as [|a l IH]; intros H; [exists []; reflexivity |].
  destruct (H a (or_introl eq_refl)) as [b Hb].
  destruct IH as [ts Hts]; [intros x Hx; apply H; right; exact Hx |].
  exists (b :: ts). simpl. rewrite Hb, Hts. reflexivity.
Qed.

(** The walk of the components of an object succeeds when the walk of the
    object does. *)
Lemma walk_children (h : heap) (fuel : nat) (stack : list loc) (l : loc) (t : json) :
  walk h (S fuel) stack (VRef l) = Some t ->
  (l ∉ stack)
  /\ exists c, h !! l = Some c
               /\ forall v, In v (children c) ->
                            exists t', walk h fuel (l :: stack) v = Some t'.
Proof.
  cbn [walk]. destruct (bool_decide (l ∈ stack)) eqn:Hin; [discriminate |].
  apply bool_decide_eq_false in Hin. intros H. split; [exact Hin |].
  destruct (h !! l) as [[elements | properties] |]; [| | discriminate].
  - exists (CArray elements). split; [reflexivity |]. intros v Hv.
    destruct (all_some (map (walk h fuel (l :: stack)) elements)) as [ts |] eqn:Hall;
      [| discriminate].
    exact (all_some_inv _ _ _ Hall v Hv).
  - exists (CObject properties). split; [reflexivity |]. intros v Hv.
    destruct (all_some _) as [ts |] eqn:Hall; [| discriminate].
    simpl in Hv. apply in_map_iff in Hv as [kv [<- Hkv]].
    destruct (all_some_inv _ _ _ Hall kv Hkv) as [t' Ht'].
    destruct (walk h fuel (l :: stack) (snd kv)) as [t'' |]; [eauto | discriminate].
Qed.

Lemma walk_ref_fuel (h : heap) (fuel : nat) (stack : list loc) (l : loc) (t : json) :
  walk h fuel stack (VRef l) = Some t -> exists fuel', fuel = S fuel'.
Proof.
  destruct fuel; [| eauto]. cbn [walk].
  destruct (bool_decide (l ∈ stack)); discriminate.
Qed.

(** A walk that succeeds never meets an object of its stack. *)
Lemma walk_avoids_stack (h : heap) (fuel : nat) :
  forall stack v t, walk h fuel stack v = Some t ->
                    forall l, reach h v l -> l ∉ stack.
Proof.
  induction fuel as [|fuel IH]; intros stack v t Hwalk l Hreach.
  - destruct Hreach; apply walk_ref_fuel in Hwalk as [? ?]; discriminate.
  - destruct Hreach as [l | l c v l' Hl Hv Hreach].
    + apply walk_children in Hwalk as [H _]. exact H.
    + apply walk_children in Hwalk as [_ [c' [Hl' Hsub]]].
      assert (c' = c) by congruence. subst c'.
      destruct (Hsub v Hv) as [t' Ht'].
      pose proof (IH _ _ _ Ht' l' Hreach) as Hnot.
      intros Hin. apply Hnot. right. exact Hin.
Qed.

(** A walk that succeeds has walked the components of every object it
    reaches, with that object on the stack. *)
Lemma walk_reaches (h : heap) (fuel : nat) :
  forall stack v t, walk h fuel stack v = Some t ->
                    forall l, reach h v l ->
                              exists fuel' stack' c,
                                h !! l = Some c
                                /\ forall v', In v' (children c) ->
                                              exists t', walk h fuel' (l :: stack') v' = Some t'.
Proof.
  induction fuel as [|fuel IH]; intros stack v t Hwalk l Hreach.
  - destruct Hreach; apply walk_ref_fuel in Hwalk as [? ?]; discriminate.
  - destruct Hreach as [l | l c v l' Hl Hv Hreach].
    + apply walk_children in Hwalk as [_ [c [Hl Hsub]]].
      exists fuel, stack, c. split; assumption.
    + apply walk_children in Hwalk as [_ [c' [Hl' Hsub]]].
      assert (c' = c) by congruence. subst c'.
      destruct (Hsub v Hv) as [t' Ht'].
      exact (IH _ _ _ Ht' l' Hreach).
Qed.

(** On a cyclic structure the walk fails. *)
Lemma walk_cyclic (h : heap) (fuel : nat) (stack : list loc) (v : value) :
  cyclic h v -> walk h fuel stack v = None.
Proof.
  intros [l [c [v' [Hreach [Hl [Hv' Hback]]]]]].
  destruct (walk h fuel stack v) as [t |] eqn:Hwalk; [| reflexivity].
  destruct (walk_reaches _ _ _ _ _ Hwalk l Hreach) as [fuel' [stack' [c' [Hl' Hsub]]]].
  assert (c' = c) by congruence. subst c'.
  destruct (Hsub v' Hv') as [t' Ht'].
  exfalso. apply (walk_avoids_stack _ _ _ _ _ Ht' l Hback). left.
Qed.

Lemma stack_bound (h : heap) (stack : list loc) :
  NoDup stack -> (forall l, l ∈ stack -> is_Some (h !! l)) -> length stack <= size h.
Proof.
  intros Hnd Hdom.
  rewrite <- (size_list_to_set (C := gset loc) stack Hnd).
  rewrite <- (size_dom h). apply subseteq_size.
  intros l Hl. apply elem_of_list_to_set in Hl. apply elem_of_dom. apply Hdom. exact Hl.
Qed.

(** With fuel for every object that is not on the stack, the walk of a
    closed structure without cycles succeeds. *)
Lemma walk_total (h : heap) (fuel : nat) :
  forall stack v,
    NoDup stack -> (forall l, l ∈ stack -> is_Some (h !! l)) ->
    size h <= fuel + length stack ->
    closed h v -> ~ cyclic h v ->
    (forall l, reach h v l -> l ∉ stack) ->
    exists t, walk h fuel stack v = Some t.
Proof.
  induction fuel as [|fuel IH]; intros stack v Hnd Hdom Hsize Hclosed Hacyclic Hfresh.
  - destruct v as [| b | n | s | l]; try (eexists; reflexivity).
    exfalso.
    assert (Hl : l ∉ stack) by (apply Hfresh; constructor).
    assert (Hnd' : NoDup (l :: stack)) by (constructor; assumption).
    pose proof (stack_bound h (l :: stack) Hnd') as Hbound.
    simpl in Hbound, Hsize.
    assert (S (length stack) <= size h); [| lia].
    apply Hbound. intros l' Hl'. apply elem_of_cons in Hl' as [-> | Hl'].
    + apply Hclosed. constructor.
    + apply Hdom. exact Hl'.
  - destruct v as [| b | n | s | l]; try (eexists; reflexivity).
    assert (Hl : l ∉ stack) by (apply Hfresh; constructor).
    destruct (Hclosed l (reach_here h l)) as [c Hc].
    assert (Hsub : forall v, In v (children c) ->
                             exists t, walk h fuel (l :: stack) v = Some t).
    { intros v Hv. apply IH.
      - constructor; assumption.
      - intros l' Hl'. apply elem_of_cons in Hl' as [-> | Hl']; [eauto | apply Hdom, Hl'].
      - simpl. lia.
      - intros l' Hl'. apply Hclosed. econstructor; eassumption.
      - intros [l' [c' [v' [Hr [Hl' [Hv' Hback]]]]]]. apply Hacyclic.
        exists l', c', v'. split; [econstructor; eassumption | auto].
      - intros l' Hl' Hin. apply elem_of_cons in Hin as [-> | Hin].
        + apply Hacyclic. exists l, c, v. split; [constructor | auto].
        + apply (Hfresh l'); [econstructor; eassumption | exact Hin]. }
    cbn [walk]. rewrite (bool_decide_eq_false_2 _ Hl). rewrite Hc.
    destruct c as [elements | properties].
    + destruct (all_some_total (walk h fuel (l :: stack)) elements Hsub) as [ts Hts].
      rewrite Hts. eexists. reflexivity.
    + destruct (all_some_total
                  (fun kv => option_map (pair (fst kv)) (walk h fuel (l :: stack) (snd kv)))
                  properties) as [ts Hts].
      * intros kv Hkv. destruct (Hsub (snd kv)) as [t Ht].
        -- simpl. apply in_map. exact Hkv.
        -- rewrite Ht. eexists. reflexivity.
      * rewrite Hts. eexists. reflexivity.
Qed.

(** [JSON.stringify] and cycles: on a cyclic structure the walk fails. *)
Lemma tree_of_acyclic_or_not (h : heap) (v : value) :
  (cyclic h v -> tree_of h v = None)
  /\ (forall t, tree_of h v = Some t -> ~ cyclic h v).
Proof.
  split.
  - apply walk_cyclic.
  - intros t Ht Hcyclic. unfold tree_of in Ht.
    rewrite (walk_cyclic h _ _ v Hcyclic) in Ht. discriminate.
Qed.

(** On a closed structure without a cycle the walk gives a tree: the fuel
    of [tree_of] is enough. *)
Lemma tree_of_total (h : heap) (v : value) :
  closed h v -> ~ cyclic h v -> exists t, tree_of h v = Some t.
Proof.
  intros Hclosed Hacyclic. unfold tree_of. apply walk_total; try assumption.
  - constructor.
  - intros l Hl. apply elem_of_nil in Hl. destruct Hl.
  - simpl. lia.
  - intros l _ Hl. apply elem_of_nil in Hl. destruct Hl.
Qed.

End HeapWalk.

(** ** JSON files *)

Section JsonFiles.
Import Errors Fs FileSecurity Json JsonText SpecFs SpecHeap SpecJson.
Local Open Scope list_scope.

Lemma stat_size_file (p content : string) (m : N) (s : fs) :
  s !! p = Some (File content m) -> stat_size p s = ([], s, Ok (Str.size content)).
Proof.
  intros H. unfold stat_size. rewrite (bind_pure get _ s s eq_refl). rewrite H. reflexivity.
Qed.

Lemma readFile_file (p content : string) (m : N) (s : fs) :
  s !! p = Some (File content m) -> access s p R_OK = true ->
  readFile p s = ([], s, Ok content).
Proof.
  intros H Hacc. unfold readFile. rewrite (bind_pure get _ s s eq_refl).
  rewrite H, Hacc. reflexivity.
Qed.

(** Reading a readable file that is within the size limit. *)
Lemma secureReadFile_content
  (e : env) (filePath safePath content : string) (m maxSize : N) (s : fs) :
  Validation.validateSafePath (cwd e) filePath (cwd e) = Ok safePath ->
  s !! safePath = Some (File content m) ->
  access s safePath R_OK = true ->
  (Str.size content <= maxSize)%N ->
  secureReadFile e filePath maxSize s = ([], s, Ok content).
Proof.
  intros Hval Hfile Hacc Hsize. unfold secureReadFile. rewrite Hval.
  rewrite (bind_pure _ _ s safePath eq_refl).
  rewrite (bind_pure (checkPermissions safePath R_OK) _ s (access s safePath R_OK) eq_refl).
  rewrite Hacc. cbn [negb].
  rewrite (bind_pure _ _ s tt eq_refl).
  rewrite (bind_pure _ _ s _ (stat_size_file _ _ _ _ Hfile)).
  replace (maxSize <? Str.size content)%N with false
    by (symmetry; apply N.ltb_ge; exact Hsize).
  rewrite (bind_pure _ _ s tt eq_refl).
  apply (readFile_file _ _ _ _ Hfile Hacc).
Qed.

(** Reading a readable file that is over the size limit. *)
Lemma secureReadFile_too_large
  (e : env) (filePath safePath content : string) (m maxSize : N) (s : fs) :
  Validation.validateSafePath (cwd e) filePath (cwd e) = Ok safePath ->
  s !! safePath = Some (File content m) ->
  access s safePath R_OK = true ->
  (maxSize < Str.size content)%N ->
  secureReadFile e filePath maxSize s
  = ([], s, Throw (SecurityError
                     ("File too large: " ++ Str.of_N (Str.size content)
                        ++ " bytes exceeds maximum of " ++ Str.of_N maxSize ++ " bytes")
                     [])).
Proof.
  intros Hval Hfile Hacc Hsize. unfold secureReadFile. rewrite Hval.
  rewrite (bind_pure _ _ s safePath eq_refl).
  rewrite (bind_pure (checkPermissions safePath R_OK) _ s (access s safePath R_OK) eq_refl).
  rewrite Hacc. cbn [negb].
  rewrite (bind_pure _ _ s tt eq_refl).
  rewrite (bind_pure _ _ s _ (stat_size_file _ _ _ _ Hfile)).
  replace (maxSize <? Str.size content)%N with true
    by (symmetry; apply N.ltb_lt; exact Hsize).
  apply bind_throw. reflexivity.
Qed.


End JsonFiles.

Section JsonSizeLimit.
Import Errors Fs FileSecurity Json SpecFs SpecHeap SpecJson.
Local Open Scope list_scope.

Lemma size_length (s : string) : Str.size s = N.of_nat (String.length s).
Proof.
  induction s as [| c s IH]; [reflexivity |].
  cbn [Str.size String.length]. rewrite IH. lia.
Qed.

Lemma size_repeat (c : ascii) (n : N) : Str.size (Str.repeat c n) = n.
Proof.
  unfold Str.repeat. induction n as [| n IH] using N.peano_ind; [reflexivity |].
  rewrite N.iter_succ. cbn [Str.size]. rewrite IH. reflexivity.
Qed.

Lemma escape_nonempty (c : ascii) : 1 <= length (escape c).
Proof.
  unfold escape.
  repeat match goal with
         | |- context [if ?b then _ else _] => destruct b
         end; cbn; lia.
Qed.

Lemma flat_map_escape_length (l : list ascii) : length l <= length (flat_map escape l).
Proof.
  induction l as [| c l IH]; [reflexivity |].
  cbn [flat_map length]. rewrite length_app.
  pose proof (escape_nonempty c). lia.
Qed.

(** The text of a string is at least two bytes longer than the string. *)
Lemma size_quote (s : string) :
  (Str.size s + 2 <= Str.size (string_of_list_ascii (quote s)))%N.
Proof.
  rewrite !size_length, (string_length_of_list (quote s)).
  unfold quote. cbn [length]. rewrite length_app. cbn [length].
  pose proof (flat_map_escape_length (chars s)) as H.
  unfold chars in H at 1. rewrite list_length_of_string in H. lia.
Qed.

(** In the example file system every content is written to "big.json",
    and the file can be read afterwards. *)
Lemma json_example_write (content : string) :
  let run :=
    secureWriteFile json_example_env "big.json" content default_mode json_example_fs in
  snd run = Ok tt /\ access (snd (fst run)) "/w/big.json" R_OK = true.
Proof. vm_compute. split; reflexivity. Qed.

Lemma text_example_tree (s : string) :
  tree_of (text_example_heap s) (VRef 0) = Some (JObject [("text", JString s)]).
Proof. reflexivity. Qed.

Lemma text_example_size (s : string) :
  (Str.size s + 2
   <= Str.size (string_of_list_ascii
                  (print (gap_of 2) [] (JObject [("text", JString s)]))))%N.
Proof.
  pose proof (size_quote s) as H. revert H.
  rewrite !size_length, !string_length_of_list.
  cbn [print map join_with fst snd]. cbn [length].
  rewrite !length_app. cbn [length]. lia.
Qed.


End JsonSizeLimit.

Section JsonExamples.
Import Errors Fs FileSecurity Json SpecFs SpecHeap SpecJson.
Local Open Scope list_scope.

Lemma cyclic_example : cyclic cyclic_example_heap (VRef 0).
Proof.
  exists 0, (CObject [("self", VRef 0)]), (VRef 0).
  repeat split; [constructor | left; reflexivity | constructor].
Qed.

(** What is reached in the second example. *)
Lemma tree_example_reach (v : value) (l : loc) :
  reach tree_example_heap v l ->
  match v with
  | VRef 0 => l = 0 \/ l = 1
  | VRef n => l = n
  | _ => False
  end.
Proof.
  induction 1 as [l | l c v l' Hc Hv Hreach IH].
  - destruct l as [| l]; [left |]; reflexivity.
  - destruct l as [| [| l]];
      [| | unfold tree_example_heap in Hc;
           rewrite lookup_insert_ne, lookup_singleton_ne in Hc by lia; discriminate];
      vm_compute in Hc; injection Hc as <-; cbn [children map snd In] in Hv;
      repeat (destruct Hv as [<- | Hv]; [try (destruct IH; fail) |]);
      try (destruct Hv; fail).
    right. exact IH.
Qed.

Lemma tree_example_closed : closed tree_example_heap (VRef 0).
Proof.
  intros l H. apply tree_example_reach in H.
  destruct H as [-> | ->]; eexists; reflexivity.
Qed.

Lemma tree_example_acyclic : ~ cyclic tree_example_heap (VRef 0).
Proof.
  intros (l & c & v & Hl & Hc & Hv & Hback).
  apply tree_example_reach in Hl. apply tree_example_reach in Hback.
  destruct Hl as [-> | ->]; vm_compute in Hc; injection Hc as <-;
    cbn [children map snd In] in Hv;
    repeat (destruct Hv as [<- | Hv]; [try (destruct Hback; fail) |]);
    try (destruct Hv; fail).
  discriminate Hback.
Qed.


End JsonExamples.

(** ** The marker record of [init] *)

Section InitMarker.
Import Errors Fs FileSecurity Init SpecFs InitExample.
Local Open Scope list_scope.

(** Once [secureWriteFile] has written a file, [securePathExists] finds
    it: this is the value that [initCommand] stores in [enhanced]. *)
Lemma securePathExists_after_write
  (e : env) (filePath content : string) (mode : N) (s s' : fs) (trace : list fs) :
  secureWriteFile e filePath content mode s = (trace, s', Ok tt) ->
  securePathExists e filePath s' = ([], s', Ok true).
Proof.
  intros Hrun.
  destruct (Validation.validateSafePath (cwd e) filePath (cwd e)) as [safePath | err]
    eqn:Hval.
  - destruct (secureWriteFile_ok_content _ _ _ _ _ _ _ _ Hval Hrun) as [m Hfile].
    unfold securePathExists, try_catch, pathExists. rewrite Hval.
    rewrite (bind_pure _ _ s' safePath eq_refl).
    rewrite (bind_pure get _ s' s' eq_refl).
    rewrite Hfile. reflexivity.
  - unfold secureWriteFile in Hrun. rewrite Hval in Hrun. discriminate Hrun.
Qed.

(** C9: [init] with [force] in an empty project directory.  The context
    file did not exist, [initCommand] returns, the context file holds the
    marker line and the template, and the marker record that was written
    has [enhanced: true]: the field is read after the context file has been
    written. *)
Theorem init_marker_enhanced_on_new_file :
  project !! "/w/CLAUDE.md" = None
  /\ snd run = Ok Returned
  /\ file_content (snd (fst run)) "/w/CLAUDE.md"
     = Some (guardianMarker ++ nl ++ nl ++ "# Guardian rules")%string
  /\ file_content (snd (fst run)) "/w/.proguardian" ≫= Json.parse
     = Some (Json.JObject
               [("version", Json.JString "0.1.0");
                ("initialized", Json.JString "2024-05-01T10:00:00.000Z");
                ("mode", Json.JString "guardian");
                ("cliType", Json.JString "claude");
                ("targetFile", Json.JString "CLAUDE.md");
                ("enhanced", Json.JBool true)]).
Proof. vm_compute. repeat split; reflexivity. Qed.

End InitMarker.

(** * Further properties of the code *)

(** ** Reading and probing files *)

Section ReadOnly.
Import Errors Fs FileSecurity SpecFs.
Local Open Scope list_scope.

Lemma checkPermissions_pure (p : string) (mode : N) (s : fs) :
  checkPermissions p mode s = ([], s, Ok (access s p mode)).
Proof. reflexivity. Qed.

Lemma pathExists_pure (p : string) (s : fs) :
  pathExists p s = ([], s, Ok (bool_decide (is_Some (s !! p)))).
Proof. reflexivity. Qed.

Lemma access_exists (s : fs) (p : string) (amode : N) :
  access s p amode = true -> is_Some (s !! p).
Proof. unfold access. destruct (s !! p); [eauto | discriminate]. Qed.

Lemma stat_size_pure (p : string) (s : fs) :
  exists r, stat_size p s = ([], s, r).
Proof.
  unfold stat_size. rewrite (bind_pure get _ s s eq_refl).
  destruct (s !! p) as [[content m | m] |]; eexists; reflexivity.
Qed.

Lemma readFile_pure (p : string) (s : fs) :
  exists r, readFile p s = ([], s, r).
Proof.
  unfold readFile. rewrite (bind_pure get _ s s eq_refl).
  destruct (s !! p) as [[content m | m] |]; [destruct (access s p R_OK) | |];
    eexists; reflexivity.
Qed.

Lemma secureReadFile_cases
  (e : env) (filePath : string) (maxSize : N) (s : fs) :
  (exists r, secureReadFile e filePath maxSize s = ([], s, r))
  /\ (forall content,
         snd (secureReadFile e filePath maxSize s) = Ok content ->
         exists safePath m,
           Validation.validateSafePath (cwd e) filePath (cwd e) = Ok safePath
           /\ s !! safePath = Some (File content m)
           /\ access s safePath R_OK = true
           /\ (Str.size content <= maxSize)%N).
Proof.
  unfold secureReadFile.
  destruct (Validation.validateSafePath (cwd e) filePath (cwd e)) as [safePath | err].
  2: { split; [eexists; reflexivity | intros content H; discriminate H]. }
  rewrite (bind_pure _ _ s safePath eq_refl).
  rewrite (bind_pure _ _ s _ (checkPermissions_pure safePath R_OK s)).
  destruct (access s safePath R_OK) eqn:Hacc; cbn [negb].
  2: { split; [eexists; reflexivity | intros content H; discriminate H]. }
  rewrite (bind_pure _ _ s tt eq_refl).
  destruct (s !! safePath) as [[c m | m] |] eqn:Hnode.
  - rewrite (bind_pure _ _ s _ (stat_size_file _ _ _ _ Hnode)).
    destruct (maxSize <? Str.size c)%N eqn:Hsize.
    + split; [eexists; reflexivity | intros content H; discriminate H].
    + rewrite (bind_pure _ _ s tt eq_refl).
      rewrite (readFile_file _ _ _ _ Hnode Hacc).
      split; [eexists; reflexivity |].
      intros content H. cbn in H. injection H as <-.
      exists safePath, m. apply N.ltb_ge in Hsize. auto.
  - assert (Hstat : stat_size safePath s = ([], s, Ok 4096%N)).
    { unfold stat_size. rewrite (bind_pure get _ s s eq_refl). rewrite Hnode. reflexivity. }
    assert (Hread : readFile safePath s
                    = ([], s, Throw (NativeError "EISDIR: read" (Some "EISDIR")))).
    { unfold readFile. rewrite (bind_pure get _ s s eq_refl). rewrite Hnode. reflexivity. }
    rewrite (bind_pure _ _ s _ Hstat).
    destruct (maxSize <? 4096)%N.
    + split; [eexists; reflexivity | intros content H; discriminate H].
    + rewrite (bind_pure _ _ s tt eq_refl). rewrite Hread.
      split; [eexists; reflexivity | intros content H; discriminate H].
  - apply access_exists in Hacc. rewrite Hnode in Hacc. destruct Hacc; discriminate.
Qed.


(** A file that is not there is reported as a permission problem: the
    check of the read permission fails before the file is looked at. *)
Theorem secureReadFile_missing_file
  (e : env) (filePath safePath : string) (maxSize : N) (s : fs) :
  Validation.validateSafePath (cwd e) filePath (cwd e) = Ok safePath ->
  s !! safePath = None ->
  secureReadFile e filePath maxSize s = ([], s, Throw (PermissionError "read" filePath)).
Proof.
  intros Hval Hnone. unfold secureReadFile. rewrite Hval.
  rewrite (bind_pure _ _ s safePath eq_refl).
  rewrite (bind_pure _ _ s _ (checkPermissions_pure safePath R_OK s)).
  unfold access. rewrite Hnone. reflexivity.
Qed.

Lemma securePathExists_cases (e : env) (filePath : string) (s : fs) :
  exists b,
    securePathExists e filePath s = ([], s, Ok b)
    /\ (b = true <->
        exists safePath,
          Validation.validateSafePath (cwd e) filePath (cwd e) = Ok safePath
          /\ is_Some (s !! safePath)).
Proof.
  unfold securePathExists, try_catch.
  destruct (Validation.validateSafePath (cwd e) filePath (cwd e)) as [safePath | err].
  - rewrite (bind_pure _ _ s safePath eq_refl). rewrite pathExists_pure.
    eexists. split; [reflexivity |]. rewrite bool_decide_eq_true. split.
    + intros H. exists safePath. split; [reflexivity | exact H].
    + intros [q [Hq H]]. injection Hq as ->. exact H.
  - exists false. split; [reflexivity |]. split; [discriminate |].
    intros [q [Hq _]]. discriminate Hq.
Qed.


End ReadOnly.

(** ** Copying files *)

Section Copy.
Import Errors Fs FileSecurity SpecFs.
Local Open Scope list_scope.


Lemma ensureDir_states (dir : string) (mode : N) (s s' : fs) (t : list fs)
  (r : result unit) :
  ensureDir dir mode s = (t, s', r) -> only_dirs_added s s'.
Proof.
  intros H. unfold ensureDir in H.
  exact (proj2 (mkdirs_states _ _ _ _ _ _ H s' (or_introl eq_refl))).
Qed.

Lemma only_dirs_added_file (s s' : fs) (p content : string) (m : N) :
  only_dirs_added s s' -> s !! p = Some (File content m) ->
  s' !! p = Some (File content m).
Proof.
  intros H Hp. destruct (H p) as [Heq | [Hnone _]]; congruence.
Qed.

Lemma only_dirs_added_not_file (s s' : fs) (p : string) :
  only_dirs_added s s' -> s !! p = None ->
  s' !! p = None \/ exists m, s' !! p = Some (Dir m).
Proof.
  intros H Hp. destruct (H p) as [Heq | [_ Hdir]]; [left; congruence | right; exact Hdir].
Qed.

(** A copy that returns: for a source that is a file and a destination
    that is another path, the destination then holds the content of the
    source, the source is as it was, and nothing else changed but for
    directories created for the destination. *)
Theorem secureCopyFile_copies_content
  (e : env) (source destination safeSource safeDestination content : string) (mode : N)
  (overwrite : bool) (s s' : fs) (trace : list fs) :
  Validation.validateSafePath (cwd e) source (cwd e) = Ok safeSource ->
  Validation.validateSafePath (cwd e) destination (cwd e) = Ok safeDestination ->
  safeDestination <> safeSource ->
  s !! safeSource = Some (File content mode) ->
  secureCopyFile e source destination overwrite s = (trace, s', Ok tt) ->
  file_content s' safeDestination = Some content
  /\ s' !! safeSource = Some (File content mode)
  /\ forall q, q <> safeDestination ->
               s' !! q = s !! q \/ (s !! q = None /\ exists m, s' !! q = Some (Dir m)).
Proof.
  unfold secureCopyFile. intros Hval Hdst Hne Hsrc Hrun. rewrite Hval in Hrun.
  rewrite (bind_pure _ _ s safeSource eq_refl) in Hrun. rewrite Hdst in Hrun.
  rewrite (bind_pure _ _ s safeDestination eq_refl) in Hrun.
  rewrite (bind_pure _ _ s _ (pathExists_pure safeSource s)) in Hrun.
  destruct (bool_decide (is_Some (s !! safeSource))); cbn [negb] in Hrun;
    [| discriminate Hrun].
  rewrite (bind_pure _ _ s tt eq_refl) in Hrun.
  rewrite (bind_pure _ _ s _ (checkPermissions_pure safeSource R_OK s)) in Hrun.
  destruct (access s safeSource R_OK); cbn [negb] in Hrun; [| discriminate Hrun].
  rewrite (bind_pure _ _ s tt eq_refl) in Hrun.
  rewrite (bind_pure _ _ s _ (pathExists_pure safeDestination s)) in Hrun.
  destruct (bool_decide (is_Some (s !! safeDestination)) && negb overwrite) eqn:Hclobber;
    [discriminate Hrun |].
  rewrite (bind_pure _ _ s tt eq_refl) in Hrun.
  apply bind_inv in Hrun as [(t1 & s1 & [] & t2 & Hdir & Hrest & ->) | (err & _ & Habs)];
    [| discriminate Habs].
  pose proof (ensureDir_states _ _ _ _ _ _ Hdir) as Hadded.
  rewrite (bind_pure _ _ s1 _ (checkPermissions_pure _ W_OK s1)) in Hrest.
  destruct (access s1 (Path.dirname safeDestination) W_OK); cbn [negb] in Hrest;
    [| discriminate Hrest].
  rewrite (bind_pure _ _ s1 tt eq_refl) in Hrest.
  unfold copy in Hrest. rewrite (bind_pure get _ s1 s1 eq_refl) in Hrest.
  pose proof (only_dirs_added_file _ _ _ _ _ Hadded Hsrc) as Hsrc1.
  rewrite Hsrc1 in Hrest.
  assert (Hinsert : s' = <[safeDestination := File content mode]> s1).
  { destruct (s1 !! safeDestination) as [[c' m' | m'] |] eqn:Hdst1.
    - destruct overwrite.
      + injection Hrest as _ <-. reflexivity.
      + rewrite andb_true_r in Hclobber. apply bool_decide_eq_false in Hclobber.
        destruct (Hadded safeDestination) as [Heq | [Hnone [m Hm]]]; [| congruence].
        exfalso. apply Hclobber. rewrite <- Heq. eauto.
    - discriminate Hrest.
    - apply bind_inv in Hrest
        as [(t3 & s3 & [] & t4 & Hc & Hup & _) | (err & _ & Habs)]; [| discriminate Habs].
      destruct (check_parent_cases "copyfile" safeDestination s1)
        as [[_ Hok] | [_ [err Herr]]]; rewrite Hc in *; [| discriminate].
      injection Hok as _ <-. injection Hup as _ <-. reflexivity. }
  subst s'. split; [unfold file_content; rewrite lookup_insert_eq; reflexivity |].
  split.
  - rewrite lookup_insert_ne by exact Hne. exact Hsrc1.
  - intros q Hq. rewrite lookup_insert_ne by congruence. exact (Hadded q).
Qed.

End Copy.

(** ** What a write leaves alone *)

Section WriteFrame.
Import Errors Fs FileSecurity SpecFs.
Local Open Scope list_scope.

Lemma check_parent_pure (syscall p : string) (s s' : fs) (t : list fs) (r : result unit) :
  check_parent syscall p s = (t, s', r) -> t = [] /\ s' = s.
Proof.
  intros H.
  destruct (check_parent_cases syscall p s) as [[_ Hok] | [_ [err Herr]]];
    rewrite H in *; [injection Hok as -> -> _ | injection Herr as -> -> _]; auto.
Qed.

(** [writeFile] changes nothing but the file it writes. *)
Lemma writeFile_frame (f : faults) (p content : string) (mode : N)
  (s s1 : fs) (t : list fs) (r : result unit) :
  writeFile f p content mode s = (t, s1, r) ->
  forall q, q <> p -> s1 !! q = s !! q.
Proof.
  unfold writeFile. rewrite (bind_pure get _ s s eq_refl). intros H q Hq.
  apply bind_inv in H
    as [(t1 & s2 & m & t2 & Hm & Hrest & ->) | (err & Hm & ->)].
  - assert (Hs2 : s2 = s).
    { destruct (s !! p) as [[c m0 | m0] |].
      - destruct (access s p W_OK); [injection Hm as _ <- _; reflexivity | discriminate].
      - discriminate.
      - apply bind_inv in Hm as [(t3 & s3 & [] & t4 & Hc & Hr & _) | (err & _ & Habs)];
          [| discriminate].
        injection Hr as _ <- _. exact (proj2 (check_parent_pure _ _ _ _ _ _ Hc)). }
    subst s2. cbv beta in Hrest.
    apply bind_inv in Hrest
      as [(t3 & s3 & [] & t4 & Hpass & Hend & _) | (err & Hpass & _)].
    + injection Hpass as _ <-.
      destruct (writeFile_fails_after f); injection Hend as _ <-;
        rewrite lookup_insert_ne by congruence; reflexivity.
    + discriminate Hpass.
  - destruct (s !! p) as [[c m0 | m0] |].
    + destruct (access s p W_OK); [discriminate | injection Hm as _ <- _; reflexivity].
    + injection Hm as _ <- _. reflexivity.
    + apply bind_inv in Hm as [(t3 & s3 & [] & t4 & Hc & Hr & _) | (err' & Hc & _)].
      * discriminate Hr.
      * rewrite (proj2 (check_parent_pure _ _ _ _ _ _ Hc)). reflexivity.
Qed.

Lemma rename_frame (f : faults) (from to : string) (s s1 : fs) (t : list fs)
  (r : result unit) :
  rename f from to s = (t, s1, r) ->
  forall q, q <> from -> q <> to -> s1 !! q = s !! q.
Proof.
  intros H q Hfrom Hto.
  destruct (rename_cases f from to s) as [[err Herr] | [_ [n [_ Hren]]]];
    rewrite H in *.
  - injection Herr as _ <- _. reflexivity.
  - injection Hren as _ -> _.
    rewrite lookup_insert_ne, lookup_delete_ne by congruence. reflexivity.
Qed.

Lemma cleanup_frame (f : faults) (tmp : string) (error : error) (s s1 : fs)
  (t : list fs) (r : result unit) :
  (try_catch (unlink f tmp) (fun _ => ret tt) ;; @throw unit error) s = (t, s1, r) ->
  (exists err, r = Throw err) /\ forall q, q <> tmp -> s1 !! q = s !! q.
Proof.
  intros H.
  destruct (cleanup_cases f tmp error s) as [Hc | Hc]; rewrite H in Hc;
    injection Hc as _ -> ->; (split; [eauto |]); intros q Hq;
    [reflexivity | rewrite lookup_delete_ne by congruence; reflexivity].
Qed.

(** The write to the temporary file, the rename and the cleanup change
    nothing but the temporary file and the target. *)
Lemma atomic_phase_frame (f : faults) (tmp safe content : string) (mode : N)
  (s0 s' : fs) (t : list fs) (r : result unit) :
  try_catch (writeFile f tmp content mode ;; rename f tmp safe)
    (fun error => try_catch (unlink f tmp) (fun _ => ret tt) ;; @throw unit error) s0
  = (t, s', r) ->
  forall q, q <> tmp -> q <> safe -> s' !! q = s0 !! q.
Proof.
  intros H q Htmp Hsafe.
  destruct ((writeFile f tmp content mode ;; rename f tmp safe) s0)
    as [[t1 s1] [[] | err]] eqn:Hinner.
  - rewrite (try_catch_ok _ _ _ _ _ _ Hinner) in H. injection H as _ <- _.
    apply bind_inv in Hinner
      as [(t3 & s3 & [] & t4 & Hw & Hr & _) | (err & _ & Habs)]; [| discriminate].
    rewrite (rename_frame _ _ _ _ _ _ _ Hr q Htmp Hsafe).
    exact (writeFile_frame _ _ _ _ _ _ _ _ Hw q Htmp).
  - destruct ((try_catch (unlink f tmp) (fun _ => ret tt) ;; @throw unit err) s1)
      as [[t2 s2] r2] eqn:Hclean.
    rewrite (try_catch_throw _ _ _ _ _ _ _ _ _ Hinner Hclean) in H.
    injection H as _ <- _.
    rewrite (proj2 (cleanup_frame _ _ _ _ _ _ _ Hclean) q Htmp).
    apply bind_inv in Hinner
      as [(t3 & s3 & [] & t4 & Hw & Hr & _) | (err' & Hw & _)].
    + rewrite (rename_frame _ _ _ _ _ _ _ Hr q Htmp Hsafe).
      exact (writeFile_frame _ _ _ _ _ _ _ _ Hw q Htmp).
    + exact (writeFile_frame _ _ _ _ _ _ _ _ Hw q Htmp).
Qed.

Lemma secureWriteFile_keeps_others
  (e : env) (filePath content safePath : string) (mode : N)
  (s s' : fs) (trace : list fs) (r : result unit) :
  Validation.validateSafePath (cwd e) filePath (cwd e) = Ok safePath ->
  secureWriteFile e filePath content mode s = (trace, s', r) ->
  forall q, q <> safePath -> q <> tmpPath_of e safePath ->
            s' !! q = s !! q \/ (s !! q = None /\ exists m, s' !! q = Some (Dir m)).
Proof.
  intros Hval Hrun q Hsafe Htmp.
  destruct (secureWriteFile_phases _ _ _ _ _ _ _ _ _ Hval Hrun)
    as (t0 & s0 & t2 & _ & Hprefix & [Hphase | (err & _ & -> & _)]).
  - rewrite (atomic_phase_frame _ _ _ _ _ _ _ _ _ Hphase q Htmp Hsafe).
    exact (proj2 (Hprefix s0 (or_introl eq_refl)) q).
  - exact (proj2 (Hprefix s0 (or_introl eq_refl)) q).
Qed.

(** Whatever [secureWriteFile] does, and however it ends, every path
    other than the target and the temporary file is left as it was, but for
    directories that were created. *)
Theorem secureWriteFile_frame
  (e : env) (filePath content safePath : string) (mode : N)
  (s s' : fs) (trace : list fs) (r : result unit) :
  Validation.validateSafePath (cwd e) filePath (cwd e) = Ok safePath ->
  secureWriteFile e filePath content mode s = (trace, s', r) ->
  forall q, q <> safePath -> q <> tmpPath_of e safePath ->
            s' !! q = s !! q \/ (s !! q = None /\ exists m, s' !! q = Some (Dir m)).
Proof.
  exact (secureWriteFile_keeps_others e filePath content safePath mode s s' trace r).
Qed.

(** A target that exists and is not writable is never replaced:
    [secureWriteFile] throws, and no file was created, changed or removed
    (directories may have been created for the target's parents). *)
Theorem secureWriteFile_read_only_target
  (e : env) (filePath content safePath : string) (mode : N) (s : fs) :
  Validation.validateSafePath (cwd e) filePath (cwd e) = Ok safePath ->
  is_Some (s !! safePath) ->
  access s safePath W_OK = false ->
  exists trace s' err,
    secureWriteFile e filePath content mode s = (trace, s', Throw err)
    /\ only_dirs_added s s'
    /\ s' !! safePath = s !! safePath.
Proof.
  intros Hval [n Hn] Hacc.
  destruct (secureWriteFile e filePath content mode s) as [[trace s'] r] eqn:Hrun.
  unfold secureWriteFile in Hrun. rewrite Hval in Hrun.
  rewrite (bind_pure _ _ s safePath eq_refl) in Hrun. cbv zeta in Hrun.
  assert (Hkeep : forall s1, only_dirs_added s s1 -> s1 !! safePath = s !! safePath).
  { intros s1 H1. destruct (H1 safePath) as [Heq | [Hnone _]]; congruence. }
  apply bind_inv in Hrun as [(t1 & s1 & [] & t2 & Hdir & Hrest & ->) | (err & Hdir & ->)].
  - pose proof (ensureDir_states _ _ _ _ _ _ Hdir) as Hadded.
    rewrite (bind_pure _ _ s1 _ (checkPermissions_pure _ W_OK s1)) in Hrest.
    destruct (access s1 (Path.dirname safePath) W_OK); cbn [negb] in Hrest.
    + rewrite (bind_pure _ _ s1 tt eq_refl) in Hrest.
      rewrite (bind_pure _ _ s1 _ (pathExists_pure safePath s1)) in Hrest.
      rewrite (bool_decide_eq_true_2 (is_Some (s1 !! safePath))) in Hrest
        by (rewrite (Hkeep s1 Hadded), Hn; eauto).
      assert (Hacc1 : access s1 safePath W_OK = false).
      { unfold access in *. rewrite (Hkeep s1 Hadded). exact Hacc. }
      erewrite bind_throw in Hrest.
      2: { rewrite (bind_pure _ _ s1 _ (checkPermissions_pure _ W_OK s1)).
           rewrite Hacc1. reflexivity. }
      injection Hrest as <- <- <-.
      eexists _, s1, _. split; [reflexivity |]. split; [exact Hadded | exact (Hkeep s1 Hadded)].
    + injection Hrest as <- <- <-.
      eexists _, s1, _. split; [reflexivity |]. split; [exact Hadded | exact (Hkeep s1 Hadded)].
  - pose proof (ensureDir_states _ _ _ _ _ _ Hdir) as Hadded.
    eexists _, s', _. split; [reflexivity |]. split; [exact Hadded | exact (Hkeep s' Hadded)].
Qed.

End WriteFrame.

(** ** Runs of the wrapper *)

Section WrapperRuns.
Import Errors Fs FileSecurity Wrapper SpecWrapper SpecContext.
Local Open Scope list_scope.

(** The path of the template, [../../templates/CLAUDE.md], is refused by
    [validateSafePath] for every script directory: its normalized form
    contains [..]. *)
Lemma template_path_is_refused (cwd dirname : string) :
  Validation.validateSafePath cwd (Path.join [".."; ".."; "templates"; "CLAUDE.md"]) dirname
  = Throw (PathTraversalError "../../templates/CLAUDE.md").
Proof.
  unfold Validation.validateSafePath.
  change (Path.join [".."; ".."; "templates"; "CLAUDE.md"]) with "../../templates/CLAUDE.md".
  cbn [String.eqb Ascii.eqb Bool.eqb].
  destruct (negb _); reflexivity.
Qed.

(** The wrapper never restores a missing context file.  In supervised
    mode, when [CLAUDE.md] is not found, the run ends with exit code 1,
    nothing is spawned and nothing is copied, whatever the arguments and
    wherever the package is installed. *)
Theorem wrapper_never_restores_context_file
  (e : env) (dirname : string) (argv : list string)
  (process_env : gmap string string) (child : child_event) (s : fs) :
  supervised e s = true ->
  context_file_present e s = false ->
  runClaudeWithGuardian e dirname argv process_env child s
  = ([], s, Ok exit_before_spawn).
Proof.
  intros Hsup Hctx.
  unfold runClaudeWithGuardian, supervised, context_file_present in *.
  destruct (Validation.validateSafePath (cwd e) ".proguardian" (cwd e))
    as [guardianMarkerPath | err]; [| discriminate].
  destruct (Validation.validateSafePath (cwd e) "CLAUDE.md" (cwd e))
    as [claudeMdPath | err]; [| reflexivity].
  destruct (securePathExists_pure e guardianMarkerPath s) as [active Hactive].
  destruct (securePathExists_pure e claudeMdPath s) as [present Hpresent].
  rewrite Hactive in Hsup. rewrite Hpresent in Hctx. subst active present.
  unfold try_catch.
  rewrite (bind_pure _ _ s guardianMarkerPath eq_refl).
  rewrite (bind_pure _ _ s claudeMdPath eq_refl).
  rewrite (bind_pure _ _ s true Hactive).
  rewrite (bind_pure _ _ s false Hpresent).
  cbn [negb]. rewrite template_path_is_refused. reflexivity.
Qed.

(** Without the marker file the wrapper is a pass-through: when no
    argument contains one of [; | & ` $], the real binary is spawned with
    the arguments as they were given and with the environment of the
    process, and the wrapper exits with the code of the child. *)
Theorem wrapper_passes_through_when_unsupervised
  (e : env) (dirname guardianMarkerPath claudeMdPath : string) (argv : list string)
  (process_env : gmap string string) (child : child_event) (s : fs) :
  Validation.validateSafePath (cwd e) ".proguardian" (cwd e) = Ok guardianMarkerPath ->
  Validation.validateSafePath (cwd e) "CLAUDE.md" (cwd e) = Ok claudeMdPath ->
  supervised e s = false ->
  existsb invalid_argument argv = false ->
  runClaudeWithGuardian e dirname argv process_env child s
  = ([], s, Ok (after_spawn {| file := "claude-original"; args := argv;
                               env_option := None; shell := false |} child)).
Proof.
  intros Hmarker Hcontext Hsup Hargs.
  unfold runClaudeWithGuardian, supervised in *. rewrite Hmarker in *. rewrite Hcontext.
  destruct (securePathExists_pure e guardianMarkerPath s) as [active Hactive].
  rewrite Hactive in Hsup. subst active.
  unfold try_catch.
  rewrite (bind_pure _ _ s guardianMarkerPath eq_refl).
  rewrite (bind_pure _ _ s claudeMdPath eq_refl).
  rewrite (bind_pure _ _ s false Hactive).
  rewrite Hargs. reflexivity.
Qed.

(** The wrapper never throws and never changes the file system: every run
    ends with an exit code, in the state it started in.  It either exits
    before any spawn, or spawns [claude-original], without a shell. *)
Theorem wrapper_leaves_file_system_alone
  (e : env) (dirname : string) (argv : list string)
  (process_env : gmap string string) (child : child_event) (s : fs) :
  exists outcome : run,
    runClaudeWithGuardian e dirname argv process_env child s = ([], s, Ok outcome)
    /\ (outcome = exit_before_spawn
        \/ exists call, outcome = after_spawn call child
                        /\ file call = "claude-original" /\ shell call = false).
Proof.
  unfold runClaudeWithGuardian.
  destruct (Validation.validateSafePath (cwd e) ".proguardian" (cwd e))
    as [guardianMarkerPath | err];
    [| exists exit_before_spawn; split; [reflexivity | left; reflexivity]].
  destruct (Validation.validateSafePath (cwd e) "CLAUDE.md" (cwd e))
    as [claudeMdPath | err];
    [| exists exit_before_spawn; split; [reflexivity | left; reflexivity]].
  destruct (securePathExists_pure e guardianMarkerPath s) as [active Hactive].
  destruct (securePathExists_pure e claudeMdPath s) as [present Hpresent].
  unfold try_catch.
  rewrite (bind_pure _ _ s guardianMarkerPath eq_refl).
  rewrite (bind_pure _ _ s claudeMdPath eq_refl).
  rewrite (bind_pure _ _ s active Hactive).
  destruct active.
  - rewrite (bind_pure _ _ s present Hpresent).
    destruct present; cbn [negb].
    + rewrite (bind_pure _ _ s tt eq_refl).
      destruct (scan_args argv false []) as [safeArgs |].
      * eexists. split; [reflexivity |]. right. eexists. repeat split.
      * exists exit_before_spawn. split; [reflexivity | left; reflexivity].
    + rewrite template_path_is_refused.
      exists exit_before_spawn. split; [reflexivity | left; reflexivity].
  - destruct (existsb invalid_argument argv).
    + exists exit_before_spawn. split; [reflexivity | left; reflexivity].
    + eexists. split; [reflexivity |]. right. eexists. repeat split.
Qed.

End WrapperRuns.

(** ** Resolved paths and repeated validation *)

Section ResolvedPaths.
Import Path SpecResolved.
Local Open Scope list_scope.

Lemma split_cons (c : ascii) (s : string) :
  Str.split "/" (String c s)
  = if Ascii.eqb c "/" then EmptyString :: Str.split "/" s
    else match Str.split "/" s with
         | seg :: segs => String c seg :: segs
         | [] => [Str.of_char c]
         end.
Proof. reflexivity. Qed.

Lemma split_slash_free (p : string) :
  Forall (fun seg => slash_free seg = true) (Str.split "/" p).
Proof.
  induction p as [| c p IH]; [repeat constructor |].
  rewrite split_cons. destruct (Ascii.eqb c "/") eqn:Hc.
  - constructor; [reflexivity | exact IH].
  - destruct (Str.split "/" p) as [| seg segs].
    + repeat constructor. simpl. rewrite Hc. reflexivity.
    + inversion IH as [| x l Hx Hl]; subst. constructor; [| exact Hl].
      simpl. rewrite Hc, Hx. reflexivity.
Qed.

Lemma split_single (a : string) :
  slash_free a = true -> Str.split "/" a = [a].
Proof.
  induction a as [| c a IH]; [reflexivity |].
  simpl slash_free. intros H. apply andb_true_iff in H as [Hc Ha].
  rewrite split_cons. apply negb_true_iff in Hc. rewrite Hc, (IH Ha). reflexivity.
Qed.

Lemma split_app (a rest : string) :
  slash_free a = true ->
  Str.split "/" (a ++ String "/" rest)%string = a :: Str.split "/" rest.
Proof.
  induction a as [| c a IH]; [intros _; reflexivity |].
  simpl slash_free. intros H. apply andb_true_iff in H as [Hc Ha].
  rewrite append_cons, split_cons. apply negb_true_iff in Hc. rewrite Hc, (IH Ha).
  reflexivity.
Qed.

Lemma join_cons (a b : string) (l : list string) :
  Str.join "/" (a :: b :: l) = (a ++ String "/" (Str.join "/" (b :: l)))%string.
Proof. reflexivity. Qed.

Lemma append_assoc (a b c : string) : ((a ++ b) ++ c = a ++ (b ++ c))%string.
Proof.
  induction a as [| x a IH]; [reflexivity |].
  rewrite !append_cons, IH. reflexivity.
Qed.

Lemma normal_slash_free (seg : string) : normal_segment seg = true -> slash_free seg = true.
Proof.
  unfold normal_segment. intros H.
  apply andb_true_iff in H as [H _]. apply andb_true_iff in H as [H _].
  apply andb_true_iff in H as [H _]. exact H.
Qed.

(** Splitting what was joined. *)
Lemma split_join (seg : string) (segs : list string) (rest : string) :
  Forall (fun x => normal_segment x = true) (seg :: segs) ->
  Str.split "/" (Str.join "/" (seg :: segs) ++ String "/" rest)%string
  = (seg :: segs) ++ Str.split "/" rest.
Proof.
  revert seg. induction segs as [| b segs IH]; intros seg H.
  - inversion H; subst. change (Str.join "/" [seg]) with seg.
    rewrite split_app by (apply normal_slash_free; assumption). reflexivity.
  - inversion H as [| x l Hx Hl]; subst.
    rewrite join_cons, append_assoc, append_cons.
    rewrite split_app by (apply normal_slash_free; assumption).
    rewrite (IH b Hl). reflexivity.
Qed.

Lemma split_join_end (seg : string) (segs : list string) :
  Forall (fun x => normal_segment x = true) (seg :: segs) ->
  Str.split "/" (Str.join "/" (seg :: segs)) = seg :: segs.
Proof.
  revert seg. induction segs as [| b segs IH]; intros seg H.
  - inversion H; subst. apply split_single, normal_slash_free. assumption.
  - inversion H as [| x l Hx Hl]; subst.
    rewrite join_cons. rewrite split_app by (apply normal_slash_free; assumption).
    rewrite (IH b Hl). reflexivity.
Qed.

Lemma normalize_step_normal (allow : bool) (kept : list string) (seg : string) :
  normal_segment seg = true -> normalize_step allow kept seg = seg :: kept.
Proof.
  unfold normal_segment, normalize_step. intros H.
  apply andb_true_iff in H as [H H3]. apply andb_true_iff in H as [H H2].
  apply andb_true_iff in H as [_ H1].
  apply negb_true_iff in H1, H2, H3. rewrite H1, H2, H3. reflexivity.
Qed.

Lemma fold_normal (allow : bool) (segs kept : list string) :
  Forall (fun x => normal_segment x = true) segs ->
  fold_left (normalize_step allow) segs kept = rev segs ++ kept.
Proof.
  revert kept. induction segs as [| seg segs IH]; intros kept H; [reflexivity |].
  inversion H as [| x l Hx Hl]; subst. cbn [fold_left rev].
  rewrite (normalize_step_normal _ _ _ Hx), (IH _ Hl), <- app_assoc. reflexivity.
Qed.

(** The segments that [normalizeString] keeps below the root are normal. *)
Lemma fold_keeps_normal (xs kept : list string) :
  Forall (fun x => slash_free x = true) xs ->
  Forall (fun x => normal_segment x = true) kept ->
  Forall (fun x => normal_segment x = true) (fold_left (normalize_step false) xs kept).
Proof.
  revert kept. induction xs as [| x xs IH]; intros kept Hxs Hkept; [exact Hkept |].
  inversion Hxs as [| y l Hy Hl]; subst. cbn [fold_left]. apply IH; [exact Hl |].
  unfold normalize_step.
  destruct (String.eqb x "") eqn:H1; [exact Hkept |].
  destruct (String.eqb x ".") eqn:H2; [exact Hkept |]. cbn [orb].
  destruct (String.eqb x "..") eqn:H3.
  - destruct kept as [| top below]; [constructor |].
    destruct (String.eqb top ".."); [exact Hkept |].
    inversion Hkept; assumption.
  - constructor; [| exact Hkept].
    unfold normal_segment. rewrite Hy, H1, H2, H3. reflexivity.
Qed.

Lemma resolve_prepend_absolute (cwd : string) (rev_args : list string) (acc : string) :
  is_absolute cwd = true -> snd (resolve_prepend cwd rev_args acc) = true.
Proof.
  intros Hcwd. revert acc. induction rev_args as [| p rest IH]; intros acc.
  - cbn [resolve_prepend]. destruct (String.eqb_spec cwd "") as [-> | _];
      [discriminate Hcwd | exact Hcwd].
  - cbn [resolve_prepend]. destruct (String.eqb p ""); [apply IH |].
    destruct (is_absolute p); [reflexivity | apply IH].
Qed.

(** From an absolute working directory, [path.resolve] returns a path in
    normal form. *)
Lemma resolve_resolved (cwd : string) (args : list string) :
  is_absolute cwd = true -> resolved_absolute (resolve cwd args).
Proof.
  intros Hcwd. unfold resolve.
  pose proof (resolve_prepend_absolute cwd (rev args) "" Hcwd) as Habs.
  destruct (resolve_prepend cwd (rev args) "") as [resolvedPath resolvedAbsolute].
  cbn [snd] in Habs. subst resolvedAbsolute. cbn [negb].
  unfold normalizeString.
  exists (rev (fold_left (normalize_step false) (Str.split "/" resolvedPath) [])).
  split; [| reflexivity].
  apply Forall_rev, fold_keeps_normal; [apply split_slash_free | constructor].
Qed.

Lemma fold_skip_empty (allow : bool) (l kept : list string) :
  fold_left (normalize_step allow) (EmptyString :: l) kept
  = fold_left (normalize_step allow) l kept.
Proof. reflexivity. Qed.

Lemma normalizeString_resolved (segs : list string) :
  Forall (fun x => normal_segment x = true) segs ->
  normalizeString (String "/" (Str.join "/" segs)) false = Str.join "/" segs
  /\ normalizeString (String "/" (Str.join "/" segs) ++ "/" ++ "")%string false
     = Str.join "/" segs.
Proof.
  intros H. unfold normalizeString. rewrite append_cons, !split_cons. cbn [Ascii.eqb Bool.eqb].
  rewrite !fold_skip_empty.
  destruct segs as [| seg segs].
  - split; reflexivity.
  - change ("/" ++ "")%string with (String "/" "").
    rewrite (split_join_end _ _ H), (split_join _ _ "" H).
    change (Str.split "/" "") with [EmptyString].
    rewrite fold_left_app, !(fold_normal _ _ _ H).
    cbn [fold_left]. change (normalize_step false (rev (seg :: segs) ++ []) "")
      with (rev (seg :: segs) ++ []).
    rewrite app_nil_r, rev_involutive. split; reflexivity.
Qed.

(** A path in normal form is a fixed point of [path.resolve], whatever it
    is resolved against. *)
Lemma resolve_fixed (cwd base r : string) :
  resolved_absolute r -> resolve cwd [base; r] = r.
Proof.
  intros [segs [Hsegs ->]]. unfold resolve.
  cbn [rev app resolve_prepend String.eqb is_absolute].
  cbn [negb]. rewrite (proj2 (normalizeString_resolved segs Hsegs)). reflexivity.
Qed.

End ResolvedPaths.

Section Revalidation.
Import Errors Path Validation SpecResolved.
Local Open Scope list_scope.

Lemma list_of_append (a b : string) :
  list_ascii_of_string (a ++ b)%string = list_ascii_of_string a ++ list_ascii_of_string b.
Proof.
  induction a as [| c a IH]; [reflexivity |].
  rewrite append_cons. cbn [list_ascii_of_string]. rewrite IH. reflexivity.
Qed.

Lemma ends_with_slash_spec (p : string) :
  ends_with_slash p
  = match rev (list_ascii_of_string p) with
    | c :: _ => Ascii.eqb c "/"
    | [] => false
    end.
Proof.
  unfold ends_with_slash. destruct (rev (list_ascii_of_string p)) as [| c l]; [reflexivity |].
  destruct c as [[] [] [] [] [] [] [] []]; reflexivity.
Qed.

Lemma segment_last (seg : string) :
  slash_free seg = true -> seg <> EmptyString ->
  exists l c, list_ascii_of_string seg = l ++ [c] /\ Ascii.eqb c "/" = false.
Proof.
  induction seg as [| c seg IH]; [congruence |].
  simpl slash_free. intros H _. apply andb_true_iff in H as [Hc Hseg].
  destruct seg as [| d seg'].
  - exists [], c. split; [reflexivity | apply negb_true_iff; exact Hc].
  - destruct (IH Hseg) as [l [x [Hl Hx]]]; [discriminate |].
    exists (c :: l), x. split; [| exact Hx].
    cbn [list_ascii_of_string] in *. rewrite Hl. reflexivity.
Qed.

Lemma normal_nonempty (seg : string) : normal_segment seg = true -> seg <> EmptyString.
Proof.
  unfold normal_segment. intros H ->. discriminate H.
Qed.

Lemma join_last (seg : string) (segs : list string) :
  Forall (fun x => normal_segment x = true) (seg :: segs) ->
  exists l c, list_ascii_of_string (Str.join "/" (seg :: segs)) = l ++ [c]
              /\ Ascii.eqb c "/" = false.
Proof.
  revert seg. induction segs as [| b segs IH]; intros seg H.
  - inversion H; subst. change (Str.join "/" [seg]) with seg.
    apply segment_last; [apply normal_slash_free | apply normal_nonempty]; assumption.
  - inversion H as [| x l Hx Hl]; subst.
    destruct (IH b Hl) as [l' [c [Hl' Hc]]].
    exists (list_ascii_of_string seg ++ "/"%char :: l'), c. split; [| exact Hc].
    rewrite join_cons, list_of_append. cbn [list_ascii_of_string].
    rewrite Hl', <- app_assoc. reflexivity.
Qed.

(** A path in normal form is a fixed point of [path.normalize]. *)
Lemma normalize_fixed (r : string) : resolved_absolute r -> normalize r = r.
Proof.
  intros [segs [Hsegs ->]]. unfold normalize.
  cbn [String.eqb is_absolute negb].
  rewrite (proj1 (normalizeString_resolved segs Hsegs)).
  destruct segs as [| seg segs]; [reflexivity |].
  destruct (join_last seg segs Hsegs) as [l [c [Hl Hc]]].
  assert (Hne : String.eqb (Str.join "/" (seg :: segs)) "" = false).
  { destruct (Str.join "/" (seg :: segs)); [destruct l; discriminate Hl | reflexivity]. }
  rewrite Hne, ends_with_slash_spec. cbn [list_ascii_of_string rev].
  rewrite Hl, rev_app_distr. cbn [rev app]. rewrite Hc. reflexivity.
Qed.

Lemma validateSafePath_ok (cwd targetPath basePath r : string) :
  validateSafePath cwd targetPath basePath = Ok r ->
  r = resolve cwd [basePath; targetPath]
  /\ Str.startsWith r (resolve cwd [basePath]) = true
  /\ existsb (fun pattern => Str.includes (normalize targetPath) pattern) suspicious = false.
Proof.
  unfold validateSafePath. destruct (String.eqb targetPath ""); [discriminate |].
  destruct (Str.startsWith _ _) eqn:Hprefix; cbn [negb]; [| discriminate].
  destruct (existsb _ suspicious) eqn:Hscan; [discriminate |].
  intros H. injection H as <-. rewrite Hprefix. auto.
Qed.

Lemma validateSafePath_second_pass (cwd targetPath basePath r : string) :
  is_absolute cwd = true ->
  validateSafePath cwd targetPath basePath = Ok r ->
  validateSafePath cwd r basePath
  = if existsb (fun pattern => Str.includes r pattern) suspicious
    then Throw (PathTraversalError r)
    else Ok r.
Proof.
  intros Hcwd Hok.
  destruct (validateSafePath_ok _ _ _ _ Hok) as (Hr & Hprefix & _).
  assert (Hres : resolved_absolute r) by (rewrite Hr; apply resolve_resolved; exact Hcwd).
  unfold validateSafePath.
  rewrite (resolve_fixed cwd basePath r Hres), Hprefix, (normalize_fixed r Hres).
  destruct Hres as [segs [_ ->]]. reflexivity.
Qed.

(** An accepted path is validated again by every operation it is given
    to.  From an absolute working directory, the second validation against
    the same base answers the same path when the path is free of the
    patterns, and refuses it when it contains one: then the pattern is in
    the base, since the first validation looked at the input only. *)
Theorem validateSafePath_again (cwd targetPath basePath r : string) :
  is_absolute cwd = true ->
  validateSafePath cwd targetPath basePath = Ok r ->
  validateSafePath cwd r basePath
  = if existsb (fun pattern => Str.includes r pattern) suspicious
    then Throw (PathTraversalError r)
    else Ok r.
Proof. exact (validateSafePath_second_pass cwd targetPath basePath r). Qed.

End Revalidation.

(** ** Working directories whose path contains a refused pattern *)

Section SpecialWorkingDirectory.
Import Errors Fs FileSecurity Path Validation Wrapper SpecWrapper SpecResolved Examples.
Local Open Scope list_scope.

Lemma includes_prefix (s p pattern : string) :
  Str.startsWith s p = true -> Str.includes p pattern = true ->
  Str.includes s pattern = true.
Proof.
  unfold Str.startsWith. rewrite prefix_spec, !includes_spec.
  intros [b ->] [a [c ->]]. exists a, (c ++ b)%string.
  rewrite !append_assoc. reflexivity.
Qed.

(** When the path of the working directory itself contains one of the
    patterns (a directory called [R&D], say), a path that was accepted
    relative to it is refused as soon as it is validated again. *)
Lemma accepted_path_is_refused_again (cwd targetPath r pattern : string) :
  is_absolute cwd = true ->
  resolve cwd [cwd] = cwd ->
  In pattern suspicious -> Str.includes cwd pattern = true ->
  validateSafePath cwd targetPath cwd = Ok r ->
  validateSafePath cwd r cwd = Throw (PathTraversalError r).
Proof.
  intros Habs Hcwd Hin Hpattern Hok.
  rewrite (validateSafePath_second_pass _ _ _ _ Habs Hok).
  destruct (validateSafePath_ok _ _ _ _ Hok) as (_ & Hprefix & _).
  rewrite Hcwd in Hprefix.
  replace (existsb _ suspicious) with true; [reflexivity |].
  symmetry. apply existsb_exists. exists pattern. split; [exact Hin |].
  exact (includes_prefix _ _ _ Hprefix Hpattern).
Qed.

(** In a working directory whose path contains one of the patterns,
    [securePathExists] answers [false] for every path that
    [validateSafePath] returned: the wrapper never finds its marker file, so
    it is never in supervised mode, whatever the file system holds. *)
Theorem wrapper_unsupervised_under_special_directory
  (e : env) (pattern : string) (s : fs) :
  is_absolute (cwd e) = true ->
  resolve (cwd e) [cwd e] = cwd e ->
  In pattern suspicious -> Str.includes (cwd e) pattern = true ->
  supervised e s = false
  /\ forall targetPath r,
       validateSafePath (cwd e) targetPath (cwd e) = Ok r ->
       securePathExists e r s = ([], s, Ok false).
Proof.
  intros Habs Hcwd Hin Hpattern.
  assert (Hexists : forall targetPath r,
             validateSafePath (cwd e) targetPath (cwd e) = Ok r ->
             securePathExists e r s = ([], s, Ok false)).
  { intros targetPath r Hok. unfold securePathExists, try_catch.
    rewrite (accepted_path_is_refused_again _ _ _ _ Habs Hcwd Hin Hpattern Hok).
    reflexivity. }
  split; [| exact Hexists].
  unfold supervised.
  destruct (validateSafePath (cwd e) ".proguardian" (cwd e)) as [marker | err] eqn:Hmarker;
    [| reflexivity].
  rewrite (Hexists _ _ Hmarker). reflexivity.
Qed.

Lemma wrapper_unsupervised_under_special_directory_witness :
  special_directory_fs !! "/home/dev/R&D/app/.proguardian" = Some (File "{}" 420%N)
  /\ supervised special_directory_env special_directory_fs = false.
Proof.
  split; [reflexivity |].
  apply (wrapper_unsupervised_under_special_directory special_directory_env "&").
  - reflexivity.
  - vm_compute. reflexivity.
  - unfold suspicious. simpl. tauto.
  - vm_compute. reflexivity.
Defined.

End SpecialWorkingDirectory.

(** ** Runs of [init] *)

Section InitRuns.
Import Errors Fs FileSecurity Init SpecFs SpecInit.
Local Open Scope list_scope.

Lemma try_catch_pure {A} (m : io A) (h : error -> io A) (s : fs) (r : result A) :
  m s = ([], s, r) ->
  (forall err, exists r', h err s = ([], s, r')) ->
  exists r', try_catch m h s = ([], s, r').
Proof.
  intros Hm Hh. unfold try_catch. rewrite Hm. destruct r as [a | err]; [eauto |].
  destruct (Hh err) as [r' Hr']. rewrite Hr'. eauto.
Qed.

(** Without [force], [init] writes for one reason only: to add the Guardian
    section to a context file that exists, can be read, and does not hold
    the marker line.  In every other case the run ends in the state it
    started in. *)
Theorem init_without_force_only_enhances
  (e : env) (dirname now : string) (o : options) (d : deps)
  (s s' : fs) (trace : list fs) (r : result ending) :
  force o = false ->
  initCommand e dirname now o d s = (trace, s', r) ->
  (trace = [] /\ s' = s)
  \/ exists cliType targetFilename targetPath existingContent,
       plan e o d = Some (cliType, targetFilename, targetPath)
       /\ secureReadFile e targetPath context_limit s = ([], s, Ok existingContent)
       /\ Str.includes existingContent guardianMarker = false.
Proof.
  intros Hforce Hrun. unfold initCommand in Hrun. unfold plan, target_filename.
  destruct (validateOptions o) as [valid | err] eqn:Hvalid.
  2: { left. injection Hrun as <- <- _. auto. }
  unfold try_catch in Hrun.
  rewrite (bind_pure _ _ s valid eq_refl) in Hrun.
  destruct (determineCLI d o) as [cliType |].
  2: { left. injection Hrun as <- <- _. auto. }
  set (filename := match path o with
                   | Some p => if String.eqb p "" then targetFilenameOf d cliType else Ok p
                   | None => targetFilenameOf d cliType
                   end).
  assert (Hfilename :
            (match path o with
             | Some p => if String.eqb p "" then lift (targetFilenameOf d cliType) else ret p
             | None => lift (targetFilenameOf d cliType)
             end : io string) s = ([], s, filename)).
  { unfold filename. destruct (path o) as [p |]; [destruct (String.eqb p "") |]; reflexivity. }
  destruct filename as [targetFilename | err].
  2: { left. rewrite (bind_throw _ _ s s [] err Hfilename) in Hrun.
       injection Hrun as <- <- _. auto. }
  rewrite (bind_pure _ _ s targetFilename Hfilename) in Hrun.
  destruct (Validation.validateSafePath (cwd e) targetFilename (or_else (baseDir o) (cwd e)))
    as [targetPath | err].
  2: { left. injection Hrun as <- <- _. auto. }
  rewrite (bind_pure _ _ s targetPath eq_refl) in Hrun.
  destruct (securePathExists_pure e targetPath s) as [found Hfound].
  rewrite (bind_pure _ _ s found Hfound) in Hrun.
  rewrite Hforce in Hrun. cbn [negb] in Hrun.
  destruct found.
  - destruct (proj1 (secureReadFile_cases e targetPath (5 * 1024 * 1024) s))
      as [r0 Hread].
    destruct r0 as [existingContent | err].
    + destruct (Str.includes existingContent guardianMarker) eqn:Hmarker.
      * left. rewrite (bind_pure _ _ s false) in Hrun.
        -- injection Hrun as <- <- _. auto.
        -- rewrite (bind_pure _ _ s existingContent Hread). rewrite Hmarker. reflexivity.
      * right. exists cliType, targetFilename, targetPath, existingContent. auto.
    + left. erewrite bind_throw in Hrun.
      2: { apply bind_throw. exact Hread. }
      injection Hrun as <- <- _. auto.
  - left. rewrite (bind_pure _ _ s false eq_refl) in Hrun.
    injection Hrun as <- <- _. auto.
Qed.

End InitRuns.

Section InitWrites.
Import Errors Fs FileSecurity Init Path SpecFs SpecInit SpecResolved.
Local Open Scope list_scope.

Lemma validateSafePath_resolved_same (cwd r base r' : string) :
  resolved_absolute r -> Validation.validateSafePath cwd r base = Ok r' -> r' = r.
Proof.
  intros Hr Hok. destruct (validateSafePath_ok _ _ _ _ Hok) as (-> & _ & _).
  apply resolve_fixed. exact Hr.
Qed.

Lemma validateSafePath_resolved (cwd targetPath base r : string) :
  is_absolute cwd = true ->
  Validation.validateSafePath cwd targetPath base = Ok r -> resolved_absolute r.
Proof.
  intros Hcwd Hok. destruct (validateSafePath_ok _ _ _ _ Hok) as (-> & _ & _).
  apply resolve_resolved. exact Hcwd.
Qed.

Lemma readFile_ok (p content : string) (s s1 : fs) (t : list fs) :
  readFile p s = (t, s1, Ok content) ->
  t = [] /\ s1 = s /\ file_content s p = Some content.
Proof.
  unfold readFile, file_content. rewrite (bind_pure get _ s s eq_refl).
  destruct (s !! p) as [[c m | m] |]; [| discriminate | discriminate].
  destruct (access s p R_OK); [| discriminate].
  intros H. injection H as <- <- <-. auto.
Qed.

Lemma writeFile_ok_trace (f : faults) (p content : string) (mode : N) (s s1 : fs)
  (t : list fs) :
  writeFile f p content mode s = (t, s1, Ok tt) -> t <> [].
Proof.
  unfold writeFile. rewrite (bind_pure get _ s s eq_refl).
  intros H. apply bind_inv in H
    as [(t1 & s2 & m & t2 & Hm & Hrest & ->) | (err & _ & Habs)]; [| discriminate].
  apply bind_inv in Hrest
    as [(t3 & s3 & [] & t4 & Hpass & Hend & ->) | (err & _ & Habs)]; [| discriminate].
  injection Hpass as <- _. intros Hnil.
  apply app_eq_nil in Hnil as [_ Hnil]. apply app_eq_nil in Hnil as [Hnil _].
  apply app_eq_nil in Hnil as [_ Hnil]. discriminate Hnil.
Qed.

(** A write that returns went through at least one state, and the target
    holds the content. *)
Lemma secureWriteFile_ok_written
  (e : env) (p content : string) (mode : N) (s s' : fs) (trace : list fs) :
  resolved_absolute p ->
  secureWriteFile e p content mode s = (trace, s', Ok tt) ->
  trace <> [] /\ exists m, s' !! p = Some (File content m).
Proof.
  intros Hp Hrun.
  destruct (Validation.validateSafePath (cwd e) p (cwd e)) as [safePath | err] eqn:Hval.
  2: { unfold secureWriteFile in Hrun. rewrite Hval in Hrun. discriminate Hrun. }
  pose proof (validateSafePath_resolved_same _ _ _ _ Hp Hval) as ->.
  split; [| exact (secureWriteFile_ok_content _ _ _ _ _ _ _ _ Hval Hrun)].
  destruct (secureWriteFile_phases _ _ _ _ _ _ _ _ _ Hval Hrun)
    as (t0 & s0 & t2 & -> & _ & [Hphase | (err & _ & _ & Habs)]); [| discriminate].
  destruct ((writeFile (injected e) (tmpPath_of e p) content mode ;;
             rename (injected e) (tmpPath_of e p) p) s0)
    as [[t1 s1] [[] | err]] eqn:Hinner.
  - rewrite (try_catch_ok _ _ _ _ _ _ Hinner) in Hphase. injection Hphase as <- _.
    apply bind_inv in Hinner
      as [(t3 & s3 & [] & t4 & Hw & _ & ->) | (err & _ & Habs)]; [| discriminate].
    pose proof (writeFile_ok_trace _ _ _ _ _ _ _ Hw) as Hne.
    intros Hnil. apply app_eq_nil in Hnil as [_ Hnil].
    apply app_eq_nil in Hnil as [Hnil _]. contradiction.
  - destruct (cleanup_cases (injected e) (tmpPath_of e p) err s1) as [H | H];
      rewrite (try_catch_throw _ _ _ _ _ _ _ _ _ Hinner H) in Hphase; discriminate.
Qed.

(** Writing the marker record leaves the context file alone. *)
Lemma marker_step_keeps_target
  (e : env) (now cliType targetFilename baseDir targetPath : string)
  (s1 s' : fs) (t2 : list fs) (r : result ending) (n : node) :
  is_absolute (cwd e) = true ->
  (forall markerPath,
      Validation.validateSafePath (cwd e) ".proguardian" baseDir = Ok markerPath ->
      targetPath <> markerPath /\ targetPath <> tmpPath_of e markerPath) ->
  s1 !! targetPath = Some n ->
  (markerPath ← lift (Validation.validateSafePath (cwd e) ".proguardian" baseDir);
   enhanced ← securePathExists e targetPath;
   let '(h, data) := markerContent now cliType targetFilename enhanced in
   secureWriteJSON e markerPath h data 2 default_mode ;; ret Returned) s1 = (t2, s', r) ->
  s' !! targetPath = Some n.
Proof.
  intros Hcwd Hdistinct Hn Hrun.
  destruct (Validation.validateSafePath (cwd e) ".proguardian" baseDir)
    as [markerPath | err] eqn:Hmarker.
  2: { injection Hrun as _ <- _. exact Hn. }
  destruct (Hdistinct markerPath eq_refl) as [Hne Htmp].
  rewrite (bind_pure _ _ s1 markerPath eq_refl) in Hrun.
  destruct (securePathExists_pure e targetPath s1) as [enhanced Henhanced].
  rewrite (bind_pure _ _ s1 enhanced Henhanced) in Hrun.
  unfold markerContent, secureWriteJSON in Hrun.
  destruct (Json.stringify _ _ 2) as [content |].
  2: { injection Hrun as _ <- _. exact Hn. }
  destruct (secureWriteFile e markerPath content default_mode s1) as [[t3 s3] r3] eqn:Hwrite.
  assert (Hs3 : s3 !! targetPath = Some n).
  { destruct (Validation.validateSafePath (cwd e) markerPath (cwd e))
      as [safePath | err] eqn:Hval.
    - pose proof (validateSafePath_resolved_same _ _ _ _
                    (validateSafePath_resolved _ _ _ _ Hcwd Hmarker) Hval) as ->.
      destruct (secureWriteFile_keeps_others _ _ _ _ _ _ _ _ _ Hval Hwrite targetPath Hne Htmp)
        as [Heq | [Hnone _]]; congruence.
    - unfold secureWriteFile in Hwrite. rewrite Hval in Hwrite.
      injection Hwrite as _ <- _. exact Hn. }
  destruct r3 as [[] | err].
  - rewrite (bind_ok _ _ _ _ _ _ Hwrite) in Hrun. injection Hrun as _ <- _. exact Hs3.
  - rewrite (bind_throw _ _ _ _ _ _ Hwrite) in Hrun. injection Hrun as _ <- _. exact Hs3.
Qed.

(** The marker record is written after the context file, and so it always
    says that the context file is there. *)
Lemma marker_step_writes_record
  (e : env) (now cliType targetFilename baseDir targetPath content : string)
  (s s1 s' : fs) (t1 t2 : list fs) :
  is_absolute (cwd e) = true ->
  secureWriteFile e targetPath content default_mode s = (t1, s1, Ok tt) ->
  (markerPath ← lift (Validation.validateSafePath (cwd e) ".proguardian" baseDir);
   enhanced ← securePathExists e targetPath;
   let '(h, data) := markerContent now cliType targetFilename enhanced in
   secureWriteJSON e markerPath h data 2 default_mode ;; ret Returned) s1
  = (t2, s', Ok Returned) ->
  exists markerPath text,
    Validation.validateSafePath (cwd e) ".proguardian" baseDir = Ok markerPath
    /\ file_content s' markerPath = Some text
    /\ Json.parse text = Some (marker_record now cliType targetFilename).
Proof.
  intros Hcwd Hwrite Hrun.
  destruct (Validation.validateSafePath (cwd e) ".proguardian" baseDir)
    as [markerPath | err] eqn:Hmarker; [| discriminate Hrun].
  rewrite (bind_pure _ _ s1 markerPath eq_refl) in Hrun.
  rewrite (bind_pure _ _ s1 true (securePathExists_after_write _ _ _ _ _ _ _ Hwrite)) in Hrun.
  unfold markerContent, secureWriteJSON in Hrun.
  change (Json.stringify _ (Json.VRef 0) 2)
    with (Some (string_of_list_ascii
                  (Json.print (Json.gap_of 2) []
                     (marker_record now cliType targetFilename)))) in Hrun.
  cbv iota beta in Hrun.
  apply bind_inv in Hrun
    as [(t3 & s3 & [] & t4 & Hjson & Hret & _) | (err & _ & Habs)]; [| discriminate Habs].
  injection Hret as _ <-.
  destruct (Validation.validateSafePath (cwd e) markerPath (cwd e))
    as [safePath | err] eqn:Hval.
  2: { unfold secureWriteFile in Hjson. rewrite Hval in Hjson. discriminate Hjson. }
  pose proof (validateSafePath_resolved_same _ _ _ _
                (validateSafePath_resolved _ _ _ _ Hcwd Hmarker) Hval) as ->.
  destruct (secureWriteFile_ok_content _ _ _ _ _ _ _ _ Hval Hjson) as [m Hm].
  eexists markerPath, _. split; [reflexivity |].
  split; [unfold file_content; rewrite Hm; reflexivity |].
  apply parse_print. reflexivity.
Qed.

(** The block that reads the template and writes the context file. *)
Lemma write_block
  (e : env) (templatePath targetFilename targetPath : string)
  (content_of : string -> string) (s s1 : fs) (t : list fs) (r : result bool) :
  (templateExists ← pathExists templatePath;
   (if negb templateExists then
      throw (NativeError ("Template file not found: " ++ targetFilename)%string None)
    else ret tt) ;;
   guardianContent ← readFile templatePath;
   secureWriteFile e targetPath (content_of guardianContent) default_mode ;;
   ret true) s = (t, s1, r) ->
  (t = [] /\ s1 = s /\ exists err, r = Throw err)
  \/ exists template res,
       file_content s templatePath = Some template
       /\ secureWriteFile e targetPath (content_of template) default_mode s = (t, s1, res)
       /\ r = match res with Ok _ => Ok true | Throw err => Throw err end.
Proof.
  intros H.
  rewrite (bind_pure _ _ s _ (pathExists_pure templatePath s)) in H.
  destruct (bool_decide (is_Some (s !! templatePath))); cbn [negb] in H.
  2: { left. injection H as <- <- <-. eauto. }
  rewrite (bind_pure _ _ s tt eq_refl) in H.
  destruct (readFile_pure templatePath s) as [[template | err] Hread].
  2: { left. rewrite (bind_throw _ _ _ _ _ _ Hread) in H. injection H as <- <- <-. eauto. }
  rewrite (bind_pure _ _ s template Hread) in H.
  right. exists template.
  destruct (secureWriteFile e targetPath (content_of template) default_mode s)
    as [[t2 s2] [[] | err]] eqn:Hwrite.
  - rewrite (bind_ok _ _ _ _ _ _ Hwrite) in H. cbn in H. injection H as <- <- <-.
    exists (Ok tt). rewrite app_nil_r.
    split; [exact (proj2 (proj2 (readFile_ok _ _ _ _ _ Hread))) | auto].
  - rewrite (bind_throw _ _ _ _ _ _ Hwrite) in H. injection H as <- <- <-.
    exists (Throw err).
    split; [exact (proj2 (proj2 (readFile_ok _ _ _ _ _ Hread))) | auto].
Qed.

(** What a run of [initCommand] on a planned context file comes to:
    nothing, or one [secureWriteFile] of the new content, followed, when that
    returns, by the write of the marker record. *)
Lemma init_core
  (e : env) (dirname now cliType targetFilename targetPath : string)
  (o : options) (d : deps) (s s' : fs) (trace : list fs) (r : result ending) :
  is_absolute (cwd e) = true ->
  plan e o d = Some (cliType, targetFilename, targetPath) ->
  initCommand e dirname now o d s = (trace, s', r) ->
  (trace = [] /\ s' = s
   /\ (r = Ok (Exited 1)
       \/ (r = Ok Returned /\ force o = false
           /\ (securePathExists e targetPath s = ([], s, Ok false)
               \/ exists existing,
                    secureReadFile e targetPath context_limit s = ([], s, Ok existing)
                    /\ Str.includes existing guardianMarker = true))))
  \/ exists content template t1 s1 res,
       file_content s (template_path e dirname targetFilename) = Some template
       /\ ((securePathExists e targetPath s = ([], s, Ok false)
            /\ force o = true
            /\ content = (guardianMarker ++ nl ++ nl ++ template)%string)
           \/ (exists existing,
                  secureReadFile e targetPath context_limit s = ([], s, Ok existing)
                  /\ (force o = true \/ Str.includes existing guardianMarker = false)
                  /\ content
                     = (kept existing ++ nl ++ nl ++ guardianMarker ++ nl ++ nl
                          ++ template)%string))
       /\ secureWriteFile e targetPath content default_mode s = (t1, s1, res)
       /\ match res with
          | Throw _ => trace = t1 /\ s' = s1 /\ r = Ok (Exited 1)
          | Ok _ =>
              trace <> []
              /\ ((forall markerPath,
                      marker e o = Some markerPath ->
                      targetPath <> markerPath /\ targetPath <> tmpPath_of e markerPath) ->
                  exists m, s' !! targetPath = Some (File content m))
              /\ (r = Ok Returned ->
                  exists markerPath text,
                    marker e o = Some markerPath
                    /\ file_content s' markerPath = Some text
                    /\ Json.parse text = Some (marker_record now cliType targetFilename))
          end.
Proof.
  intros Hcwd Hplan Hrun.
  unfold initCommand in Hrun. unfold plan, target_filename in Hplan.
  destruct (validateOptions o) as [valid | err] eqn:Hvalid; [| discriminate Hplan].
  unfold try_catch in Hrun.
  rewrite (bind_pure _ _ s valid eq_refl) in Hrun.
  destruct (determineCLI d o) as [cli |]; [| discriminate Hplan].
  set (filename := match path o with
                   | Some p => if String.eqb p "" then targetFilenameOf d cli else Ok p
                   | None => targetFilenameOf d cli
                   end) in *.
  assert (Hfilename :
            (match path o with
             | Some p => if String.eqb p "" then lift (targetFilenameOf d cli) else ret p
             | None => lift (targetFilenameOf d cli)
             end : io string) s = ([], s, filename)).
  { unfold filename. destruct (path o) as [p |]; [destruct (String.eqb p "") |]; reflexivity. }
  destruct filename as [fname | err]; [| discriminate Hplan].
  rewrite (bind_pure _ _ s fname Hfilename) in Hrun.
  destruct (Validation.validateSafePath (cwd e) fname (or_else (baseDir o) (cwd e)))
    as [p | err] eqn:Htarget; [| discriminate Hplan].
  injection Hplan as -> -> ->.
  pose proof (validateSafePath_resolved _ _ _ _ Hcwd Htarget) as Hresolved.
  rewrite (bind_pure _ _ s targetPath eq_refl) in Hrun.
  destruct (securePathExists_pure e targetPath s) as [found Hfound].
  rewrite (bind_pure _ _ s found Hfound) in Hrun.
  match type of Hrun with
  | match (?m ≫= ?f) s with _ => _ end = _ =>
      destruct ((m ≫= f) s) as [[t0 s0] r0] eqn:Hbody
  end.
  apply bind_inv in Hbody
    as [(t1 & s1 & written & t2 & Hbranch & Htail & ->) | (err & Hbranch & ->)].
  - (* the branch returned *)
    destruct written; cbn [negb] in Htail.
    + (* something was written *)
      right.
      assert (Hwrote : exists content template,
                 file_content s (template_path e dirname targetFilename) = Some template
                 /\ ((securePathExists e targetPath s = ([], s, Ok false)
                      /\ force o = true
                      /\ content = (guardianMarker ++ nl ++ nl ++ template)%string)
                     \/ (exists existing,
                            secureReadFile e targetPath context_limit s = ([], s, Ok existing)
                            /\ (force o = true
                                \/ Str.includes existing guardianMarker = false)
                            /\ content
                               = (kept existing ++ nl ++ nl ++ guardianMarker ++ nl ++ nl
                                    ++ template)%string))
                 /\ secureWriteFile e targetPath content default_mode s = (t1, s1, Ok tt)).
      { destruct found.
        - destruct (proj1 (secureReadFile_cases e targetPath (5 * 1024 * 1024) s))
            as [[existing | err] Hread].
          2: { rewrite (bind_throw _ _ _ _ _ _ Hread) in Hbranch. discriminate Hbranch. }
          rewrite (bind_pure _ _ s existing Hread) in Hbranch.
          destruct (Str.includes existing guardianMarker && negb (force o)) eqn:Hearly;
            [discriminate Hbranch |].
          apply (write_block e _ targetFilename targetPath
                   (fun g => ((if Str.includes existing guardianMarker
                               then Str.trim (Str.substring_to
                                                (Str.indexOf existing guardianMarker)
                                                existing)
                               else existing)
                              ++ nl ++ nl ++ guardianMarker ++ nl ++ nl ++ g)%string))
            in Hbranch.
          destruct Hbranch as [(_ & _ & err & Habs) | (template & res & Ht & Hw & Hres)];
            [discriminate Habs |].
          destruct res as [[] | err]; [| discriminate Hres].
          eexists _, template. split; [exact Ht |]. split; [| exact Hw].
          right. exists existing. split; [exact Hread |]. split; [| reflexivity].
          apply andb_false_iff in Hearly as [H | H]; [right; exact H |].
          left. apply negb_false_iff. exact H.
        - destruct (force o) eqn:Hforce; cbn [negb] in Hbranch; [| discriminate Hbranch].
          apply (write_block e _ targetFilename targetPath
                   (fun g => (guardianMarker ++ nl ++ nl ++ g)%string)) in Hbranch.
          destruct Hbranch as [(_ & _ & err & Habs) | (template & res & Ht & Hw & Hres)];
            [discriminate Habs |].
          destruct res as [[] | err]; [| discriminate Hres].
          eexists _, template. split; [exact Ht |]. split; [| exact Hw].
          left. auto. }
      destruct Hwrote as (content & template & Ht & Hcase & Hw).
      exists content, template, t1, s1, (Ok tt).
      split; [exact Ht |]. split; [exact Hcase |]. split; [exact Hw |].
      destruct (secureWriteFile_ok_written _ _ _ _ _ _ _ Hresolved Hw) as [Hne [m Hm]].
      assert (Hend : trace = t1 ++ t2 /\ s' = s0).
      { destruct r0; cbn in Hrun; injection Hrun as <- <- _;
          rewrite ?app_nil_r; auto. }
      destruct Hend as [Htrace ->]. split.
      { rewrite Htrace. intros Hnil. apply app_eq_nil in Hnil as [Hnil _]. contradiction. }
      split.
      { intros Hdistinct. exists m.
        apply (marker_step_keeps_target e now cliType targetFilename
                 (or_else (baseDir o) (cwd e)) targetPath s1 s0 t2 r0 _ Hcwd);
          [| exact Hm | exact Htail].
        intros markerPath Hmarker. apply Hdistinct. unfold marker. rewrite Hmarker.
        reflexivity. }
      intros ->.
      assert (Hr0 : r0 = Ok Returned).
      { destruct r0 as [a | err]; cbn in Hrun; congruence. }
      subst r0.
      destruct (marker_step_writes_record _ _ _ _ _ _ _ _ _ _ _ _ Hcwd Hw Htail)
        as (markerPath & text & Hmarker & Htext & Hparse).
      exists markerPath, text. unfold marker. rewrite Hmarker. auto.
    + (* nothing was written *)
      left. injection Htail as <- <- <-. cbn in Hrun.
      destruct found.
      * destruct (proj1 (secureReadFile_cases e targetPath (5 * 1024 * 1024) s))
          as [[existing | err] Hread].
        2: { rewrite (bind_throw _ _ _ _ _ _ Hread) in Hbranch. discriminate Hbranch. }
        rewrite (bind_pure _ _ s existing Hread) in Hbranch.
        destruct (Str.includes existing guardianMarker && negb (force o)) eqn:Hearly.
        -- injection Hbranch as <- <-. injection Hrun as <- <- <-.
           apply andb_true_iff in Hearly as [Hmarker Hforce].
           apply negb_true_iff in Hforce.
           split; [reflexivity |]. split; [reflexivity |]. right.
           split; [reflexivity |]. split; [exact Hforce |]. right. eauto.
        -- apply (write_block e _ targetFilename targetPath
                    (fun g => ((if Str.includes existing guardianMarker
                                then Str.trim (Str.substring_to
                                                 (Str.indexOf existing guardianMarker)
                                                 existing)
                                else existing)
                               ++ nl ++ nl ++ guardianMarker ++ nl ++ nl ++ g)%string))
             in Hbranch.
           destruct Hbranch as [(_ & _ & err & Habs) | (template & res & _ & _ & Hres)];
             [discriminate Habs | destruct res; discriminate Hres].
      * destruct (force o) eqn:Hforce; cbn [negb] in Hbranch.
        -- apply (write_block e _ targetFilename targetPath
                    (fun g => (guardianMarker ++ nl ++ nl ++ g)%string)) in Hbranch.
           destruct Hbranch as [(_ & _ & err & Habs) | (template & res & _ & _ & Hres)];
             [discriminate Habs | destruct res; discriminate Hres].
        -- injection Hbranch as <- <-. injection Hrun as <- <- <-.
           split; [reflexivity |]. split; [reflexivity |]. right.
           split; [reflexivity |]. split; [reflexivity |]. left. exact Hfound.
  - (* the branch threw *)
    cbn in Hrun. rewrite app_nil_r in Hrun. injection Hrun as <- <- <-.
    destruct found.
    + destruct (proj1 (secureReadFile_cases e targetPath (5 * 1024 * 1024) s))
        as [[existing | err'] Hread].
      2: { rewrite (bind_throw _ _ _ _ _ _ Hread) in Hbranch.
           injection Hbranch as <- <- _. left. auto. }
      rewrite (bind_pure _ _ s existing Hread) in Hbranch.
      destruct (Str.includes existing guardianMarker && negb (force o)) eqn:Hearly;
        [discriminate Hbranch |].
      apply (write_block e _ targetFilename targetPath
               (fun g => ((if Str.includes existing guardianMarker
                           then Str.trim (Str.substring_to
                                            (Str.indexOf existing guardianMarker)
                                            existing)
                           else existing)
                          ++ nl ++ nl ++ guardianMarker ++ nl ++ nl ++ g)%string))
        in Hbranch.
      destruct Hbranch as [(-> & -> & _) | (template & res & Ht & Hw & Hres)];
        [left; auto |].
      destruct res as [[] | err']; [discriminate Hres |].
      right. eexists _, template, t0, s0, (Throw err').
      split; [exact Ht |]. split; [| split; [exact Hw | auto]].
      right. exists existing. split; [exact Hread |]. split; [| reflexivity].
      apply andb_false_iff in Hearly as [H | H]; [right; exact H |].
      left. apply negb_false_iff. exact H.
    + destruct (force o) eqn:Hforce; cbn [negb] in Hbranch; [| discriminate Hbranch].
      apply (write_block e _ targetFilename targetPath
               (fun g => (guardianMarker ++ nl ++ nl ++ g)%string)) in Hbranch.
      destruct Hbranch as [(-> & -> & _) | (template & res & Ht & Hw & Hres)];
        [left; auto |].
      destruct res as [[] | err']; [discriminate Hres |].
      right. eexists _, template, t0, s0, (Throw err').
      split; [exact Ht |]. split; [| split; [exact Hw | auto]].
      left. auto.
Qed.

End InitWrites.

Section InitTheorems.
Import Errors Fs FileSecurity Init Path SpecFs SpecInit SpecResolved.
Local Open Scope list_scope.

Lemma secureReadFile_found (e : env) (p content : string) (maxSize : N) (s : fs) :
  secureReadFile e p maxSize s = ([], s, Ok content) ->
  securePathExists e p s = ([], s, Ok true).
Proof.
  intros Hread.
  destruct (proj2 (secureReadFile_cases e p maxSize s) content) as (safe & m & Hval & Hfile & _).
  { rewrite Hread. reflexivity. }
  destruct (securePathExists_cases e p s) as [b [Hb Hiff]].
  rewrite Hb. replace b with true; [reflexivity |].
  symmetry. apply Hiff. exists safe. split; [exact Hval | rewrite Hfile; eauto].
Qed.

Lemma includes_middle (a p b : string) : Str.includes (a ++ p ++ b)%string p = true.
Proof. apply includes_spec. eauto. Qed.

(** What is read from a resolved path is the content of the file at that
    path. *)
Lemma secureReadFile_resolved (e : env) (p content : string) (maxSize : N) (s : fs) :
  resolved_absolute p ->
  secureReadFile e p maxSize s = ([], s, Ok content) ->
  file_content s p = Some content.
Proof.
  intros Hp Hread.
  destruct (proj2 (secureReadFile_cases e p maxSize s) content) as (safe & m & Hval & Hfile & _).
  { rewrite Hread. reflexivity. }
  rewrite (validateSafePath_resolved_same _ _ _ _ Hp Hval) in Hfile.
  unfold file_content. rewrite Hfile. reflexivity.
Qed.

Lemma plan_resolved
  (e : env) (o : options) (d : deps) (cliType targetFilename targetPath : string) :
  is_absolute (cwd e) = true ->
  plan e o d = Some (cliType, targetFilename, targetPath) ->
  resolved_absolute targetPath.
Proof.
  intros Hcwd Hplan. unfold plan in Hplan.
  destruct (validateOptions o); [| discriminate].
  destruct (determineCLI d o); [| discriminate].
  destruct (target_filename o d s) as [f |]; [| discriminate].
  destruct (Validation.validateSafePath (cwd e) f (or_else (baseDir o) (cwd e))) eqn:Hval;
    [| discriminate].
  injection Hplan as _ _ <-. exact (validateSafePath_resolved _ _ _ _ Hcwd Hval).
Qed.


(** [init --force] where there is no context file: when the run returns,
    the context file holds the marker line followed by the template. *)
Theorem init_creates_guardian_only_file
  (e : env) (dirname now cliType targetFilename targetPath : string)
  (o : options) (d : deps) (s s' : fs) (trace : list fs) :
  is_absolute (cwd e) = true ->
  plan e o d = Some (cliType, targetFilename, targetPath) ->
  (forall markerPath,
      marker e o = Some markerPath ->
      targetPath <> markerPath /\ targetPath <> tmpPath_of e markerPath) ->
  securePathExists e targetPath s = ([], s, Ok false) ->
  force o = true ->
  initCommand e dirname now o d s = (trace, s', Ok Returned) ->
  exists template,
    file_content s (template_path e dirname targetFilename) = Some template
    /\ file_content s' targetPath = Some (guardianMarker ++ nl ++ nl ++ template)%string.
Proof.
  intros Hcwd Hplan Hdistinct Hnone Hforce Hrun.
  destruct (init_core _ _ _ _ _ _ _ _ _ _ _ _ Hcwd Hplan Hrun)
    as [(_ & _ & [Habs | (_ & Hforce' & _)])
       | (content & template & t1 & s1 & res & Ht & Hcase & Hw & Hres)].
  - discriminate Habs.
  - congruence.
  - destruct res as [[] | err]; [| destruct Hres as (_ & _ & Habs); discriminate Habs].
    destruct Hres as (_ & Hkeep & _). destruct (Hkeep Hdistinct) as [m Hm].
    destruct Hcase as [(_ & _ & ->) | (existing & Hread & _)].
    + exists template. split; [exact Ht |]. unfold file_content. rewrite Hm. reflexivity.
    + rewrite (secureReadFile_found _ _ _ _ _ Hread) in Hnone. discriminate Hnone.
Qed.

(** Whenever a run of [init] has written something and returns, the
    marker file holds a JSON text that reads back as the marker record:
    version 0.1.0, the time of the run, mode guardian, the CLI type, the
    name of the context file, and [enhanced: true], since that field is read
    after the context file has been written. *)
Theorem init_writes_marker_record
  (e : env) (dirname now cliType targetFilename targetPath : string)
  (o : options) (d : deps) (s s' : fs) (trace : list fs) :
  is_absolute (cwd e) = true ->
  plan e o d = Some (cliType, targetFilename, targetPath) ->
  initCommand e dirname now o d s = (trace, s', Ok Returned) ->
  trace <> [] ->
  exists markerPath text,
    marker e o = Some markerPath
    /\ file_content s' markerPath = Some text
    /\ Json.parse text = Some (marker_record now cliType targetFilename).
Proof.
  intros Hcwd Hplan Hrun Hwritten.
  destruct (init_core _ _ _ _ _ _ _ _ _ _ _ _ Hcwd Hplan Hrun)
    as [(Habs & _) | (content & template & t1 & s1 & res & _ & _ & _ & Hres)];
    [contradiction |].
  destruct res as [[] | err]; [| destruct Hres as (_ & _ & Habs); discriminate Habs].
  destruct Hres as (_ & _ & Hrecord). exact (Hrecord eq_refl).
Qed.

Lemma init_unplanned
  (e : env) (dirname now : string) (o : options) (d : deps)
  (s s' : fs) (trace : list fs) (r : result ending) :
  plan e o d = None ->
  initCommand e dirname now o d s = (trace, s', r) ->
  trace = [] /\ s' = s.
Proof.
  intros Hplan Hrun. unfold initCommand in Hrun. unfold plan, target_filename in Hplan.
  destruct (validateOptions o) as [valid | err] eqn:Hvalid.
  2: { injection Hrun as <- <- _. auto. }
  unfold try_catch in Hrun.
  rewrite (bind_pure _ _ s valid eq_refl) in Hrun.
  destruct (determineCLI d o) as [cli |].
  2: { injection Hrun as <- <- _. auto. }
  set (filename := match path o with
                   | Some p => if String.eqb p "" then targetFilenameOf d cli else Ok p
                   | None => targetFilenameOf d cli
                   end) in *.
  assert (Hfilename :
            (match path o with
             | Some p => if String.eqb p "" then lift (targetFilenameOf d cli) else ret p
             | None => lift (targetFilenameOf d cli)
             end : io string) s = ([], s, filename)).
  { unfold filename. destruct (path o) as [p |]; [destruct (String.eqb p "") |]; reflexivity. }
  destruct filename as [fname | err].
  2: { rewrite (bind_throw _ _ s s [] err Hfilename) in Hrun.
       injection Hrun as <- <- _. auto. }
  rewrite (bind_pure _ _ s fname Hfilename) in Hrun.
  destruct (Validation.validateSafePath (cwd e) fname (or_else (baseDir o) (cwd e)))
    as [p | err]; [discriminate Hplan |].
  injection Hrun as <- <- _. auto.
Qed.

(** [init] is idempotent.  After a run of [init] that returned, with or
    without [force], a run without [force] for the same context file changes
    nothing: it finds the marker line that the first run wrote, or it finds
    what the first run found. *)
Theorem init_again_changes_nothing
  (e : env) (dirname now now' : string) (o o' : options) (d : deps)
  (s s1 s2 : fs) (trace trace' : list fs) (r' : result ending) :
  is_absolute (cwd e) = true ->
  (forall cliType targetFilename targetPath markerPath,
      plan e o d = Some (cliType, targetFilename, targetPath) ->
      marker e o = Some markerPath ->
      targetPath <> markerPath /\ targetPath <> tmpPath_of e markerPath) ->
  initCommand e dirname now o d s = (trace, s1, Ok Returned) ->
  force o' = false ->
  plan e o' d = plan e o d ->
  initCommand e dirname now' o' d s1 = (trace', s2, r') ->
  trace' = [] /\ s2 = s1.
Proof.
  intros Hcwd Hdistinct Hrun Hforce' Hplan' Hrun'.
  destruct (plan e o d) as [[[cliType targetFilename] targetPath] |] eqn:Hplan.
  2: { exact (init_unplanned _ _ _ _ _ _ _ _ _ Hplan' Hrun'). }
  pose proof (plan_resolved _ _ _ _ _ _ Hcwd Hplan) as Hresolved.
  destruct (init_core _ _ _ _ _ _ _ _ _ _ _ _ Hcwd Hplan' Hrun')
    as [(-> & -> & _) | (content' & template' & t1' & s1' & res' & _ & Hcase' & _)];
    [auto | exfalso].
  destruct Hcase' as [(_ & Habs & _) | (existing' & Hread' & [Habs | Hmarker'] & _)];
    [congruence | congruence |].
  pose proof (secureReadFile_resolved _ _ _ _ _ Hresolved Hread') as Hcontent'.
  destruct (init_core _ _ _ _ _ _ _ _ _ _ _ _ Hcwd Hplan Hrun)
    as [(_ & -> & [Habs | (_ & _ & [Hnone | (existing & Hread & Hmarker)])])
       | (content & template & t1 & s0 & res & _ & Hcase & Hw & Hres)].
  - discriminate Habs.
  - rewrite (secureReadFile_found _ _ _ _ _ Hread') in Hnone. discriminate Hnone.
  - rewrite Hread in Hread'. injection Hread' as <-. congruence.
  - destruct res as [[] | err]; [| destruct Hres as (_ & _ & Habs); discriminate Habs].
    destruct Hres as (_ & Hkeep & _).
    destruct (Hkeep (fun markerPath => Hdistinct _ _ _ markerPath eq_refl)) as [m Hm].
    unfold file_content in Hcontent'. rewrite Hm in Hcontent'. injection Hcontent' as <-.
    destruct Hcase as [(_ & _ & ->) | (existing & _ & _ & ->)].
    + pose proof (includes_middle "" guardianMarker (nl ++ nl ++ template)%string) as H.
      rewrite append_nil in H. congruence.
    + pose proof (includes_middle (kept existing ++ nl ++ nl)%string guardianMarker
                    (nl ++ nl ++ template)%string) as H.
      rewrite !append_assoc in H. congruence.
Qed.

Lemma plan_validated (e : env) (o : options) (d : deps)
  (cliType targetFilename targetPath : string) :
  plan e o d = Some (cliType, targetFilename, targetPath) ->
  Validation.validateSafePath (cwd e) targetFilename (or_else (baseDir o) (cwd e))
  = Ok targetPath.
Proof.
  unfold plan. intros Hplan.
  destruct (validateOptions o); [| discriminate].
  destruct (determineCLI d o); [| discriminate].
  destruct (target_filename o d s) as [f |]; [| discriminate].
  destruct (Validation.validateSafePath (cwd e) f (or_else (baseDir o) (cwd e))) eqn:Hval;
    [| discriminate].
  injection Hplan as _ <- <-. exact Hval.
Qed.

(** In a working directory whose path contains one of the patterns,
    [init] never writes anything, and [init --force] that gets as far as
    the context file ends with exit code 1: the path it computed is refused
    by the operation that should write to it. *)
Theorem init_fails_under_special_directory
  (e : env) (dirname now pattern : string) (o : options) (d : deps)
  (s s' : fs) (trace : list fs) (r : result ending) :
  is_absolute (cwd e) = true ->
  resolve (cwd e) [cwd e] = cwd e ->
  In pattern Validation.suspicious -> Str.includes (cwd e) pattern = true ->
  or_else (baseDir o) (cwd e) = cwd e ->
  initCommand e dirname now o d s = (trace, s', r) ->
  trace = [] /\ s' = s
  /\ (force o = true -> plan e o d <> None -> r = Ok (Exited 1)).
Proof.
  intros Hcwd Hfixed Hin Hpattern Hbase Hrun.
  destruct (plan e o d) as [[[cliType targetFilename] targetPath] |] eqn:Hplan.
  2: { destruct (init_unplanned _ _ _ _ _ _ _ _ _ Hplan Hrun) as [-> ->].
       split; [reflexivity |]. split; [reflexivity |]. intros _ H. congruence. }
  pose proof (plan_validated _ _ _ _ _ _ Hplan) as Hval. rewrite Hbase in Hval.
  pose proof (accepted_path_is_refused_again _ _ _ _ Hcwd Hfixed Hin Hpattern Hval)
    as Hrefused.
  destruct (init_core _ _ _ _ _ _ _ _ _ _ _ _ Hcwd Hplan Hrun)
    as [(-> & -> & [-> | (-> & Hforce & _)])
       | (content & template & t1 & s1 & res & _ & _ & Hw & Hres)].
  - auto.
  - split; [reflexivity |]. split; [reflexivity |]. intros H. congruence.
  - unfold secureWriteFile in Hw. rewrite Hrefused in Hw. injection Hw as <- <- <-.
    destruct Hres as (-> & -> & ->). auto.
Qed.

End InitTheorems.

(** ** Shell quoting *)

Section ShellQuoting.
Import Regex Shell SpecShell.
Local Open Scope list_scope.

Lemma test_class (negated : bool) (items : list cset) (before after : list ascii) :
  test_from (Cls negated items) before after = existsb (in_class negated items) after.
Proof.
  revert before. induction after as [| c after IH]; intros before; [reflexivity |].
  cbn [test_from rmatch existsb]. destruct (in_class negated items c); [reflexivity |].
  cbn [orb]. apply IH.
Qed.

(** Replacing every occurrence of one character. *)
Lemma replace_from_literal (q : ascii) (by_ : list ascii) (fuel : nat)
  (before after : list ascii) :
  length after < fuel ->
  replace_from (Lit q) by_ fuel before after
  = flat_map (fun c => if Ascii.eqb q c then by_ else [c]) after.
Proof.
  revert before after. induction fuel as [| fuel IH]; intros before after Hlen; [lia |].
  destruct after as [| c after]; [reflexivity |].
  cbn [replace_from rmatch flat_map length] in *.
  destruct (Ascii.eqb q c).
  - replace (length after =? S (length after))%nat with false
      by (symmetry; apply Nat.eqb_neq; lia).
    rewrite IH by lia. reflexivity.
  - rewrite IH by lia. reflexivity.
Qed.

Lemma replace_literal (q : ascii) (by_ subject : string) :
  replace (Lit q) by_ subject
  = string_of_list_ascii
      (flat_map (fun c => if Ascii.eqb q c then list_ascii_of_string by_ else [c])
         (list_ascii_of_string subject)).
Proof. unfold replace. rewrite replace_from_literal by lia. reflexivity. Qed.

(** A character outside the class of [re_special] has no meaning of its
    own for the shell. *)
Lemma plain_character (c : ascii) :
  in_class true [CRange "A" "Z"; CRange "a" "z"; CRange "0" "9"; CChar "_"; CChar ".";
                 CChar ","; CChar "@"; CChar ":"; CChar "/"; CChar "-"] c = false ->
  Ascii.eqb c "'" = false /\ Ascii.eqb c Str.dquote = false
  /\ existsb (Ascii.eqb c) meaningful = false.
Proof.
  destruct c as [[] [] [] [] [] [] [] []]; vm_compute; intros H;
    first [discriminate H | repeat split].
Qed.

Lemma sh_word_plain (text : list ascii) :
  existsb (in_class true [CRange "A" "Z"; CRange "a" "z"; CRange "0" "9"; CChar "_";
                          CChar "."; CChar ","; CChar "@"; CChar ":"; CChar "/";
                          CChar "-"]) text = false ->
  sh_word Unquoted text = Some text.
Proof.
  induction text as [| c text IH]; [reflexivity |].
  cbn [existsb]. intros H. apply orb_false_iff in H as [Hc Htext].
  destruct (plain_character c Hc) as (H1 & H2 & H3).
  cbn [sh_word]. rewrite H1, H2, H3, (IH Htext). reflexivity.
Qed.

Lemma sh_word_single_quoted (text : list ascii) :
  sh_word SingleQuoted
    (flat_map (fun c => if Ascii.eqb "'" c
                        then list_ascii_of_string quoted_single_quote else [c]) text
     ++ ["'"%char])
  = Some text.
Proof.
  induction text as [| c text IH]; [reflexivity |].
  cbn [flat_map]. destruct (Ascii.eqb_spec "'"%char c) as [<- | Hne].
  - rewrite <- app_assoc. change (sh_word SingleQuoted _)
      with (option_map (cons "'"%char)
              (sh_word SingleQuoted
                 (flat_map (fun c => if Ascii.eqb "'" c
                                     then list_ascii_of_string quoted_single_quote
                                     else [c]) text ++ ["'"%char]))).
    rewrite IH. reflexivity.
  - cbn [app sh_word]. destruct (Ascii.eqb_spec c "'") as [-> | _]; [congruence |].
    rewrite IH. reflexivity.
Qed.

Lemma list_of_string_append (a b : string) :
  list_ascii_of_string (a ++ b)%string = list_ascii_of_string a ++ list_ascii_of_string b.
Proof.
  induction a as [| c a IH]; [reflexivity |].
  rewrite append_cons. cbn [list_ascii_of_string]. rewrite IH. reflexivity.
Qed.

(** [escapeShellArg] and the shell: the text that [escapeShellArg] returns
    is one plain word for a POSIX shell, and the word that the shell reads
    from it is the argument, character for character. *)
Theorem escapeShellArg_round_trip (arg : string) :
  sh_word Unquoted (list_ascii_of_string (escapeShellArg arg))
  = Some (list_ascii_of_string arg).
Proof.
  unfold escapeShellArg. destruct (String.eqb_spec arg "") as [-> | Hne].
  - vm_compute. reflexivity.
  - unfold test, re_special. rewrite test_class.
    destruct (existsb _ (list_ascii_of_string arg)) eqn:Hspecial.
    + unfold re_single_quote.
      rewrite replace_literal, !list_of_string_append, list_ascii_of_string_of_list_ascii.
      change (list_ascii_of_string "'") with ["'"%char].
      cbn [app sh_word Ascii.eqb Bool.eqb].
      apply sh_word_single_quoted.
    + apply sh_word_plain. exact Hspecial.
Qed.

Lemma replaced_length (by_ : string) (text : list ascii) :
  by_ <> EmptyString ->
  length text
  <= length (flat_map (fun c => if Ascii.eqb "'" c then list_ascii_of_string by_ else [c])
               text).
Proof.
  intros Hby.
  assert (Hlen : 1 <= length (list_ascii_of_string by_))
    by (destruct by_; [congruence | cbn [list_ascii_of_string length]; lia]).
  induction text as [| c text IH]; [reflexivity |].
  cbn [flat_map length]. rewrite length_app.
  destruct (Ascii.eqb "'" c); [| cbn [length]]; lia.
Qed.

(** [escapeShellArg] returns its argument as it is exactly when the
    argument is not empty and made of letters, digits and [_ . , @ : / -]
    only; every other argument comes back quoted. *)
Theorem escapeShellArg_unchanged_iff (arg : string) :
  escapeShellArg arg = arg
  <-> arg <> EmptyString
      /\ forallb (fun c => Str.is_alpha c || Str.is_digit c
                           || existsb (Ascii.eqb c) ["_"; "."; ","; "@"; ":"; "/"; "-"]%char)
           (list_ascii_of_string arg) = true.
Proof.
  unfold escapeShellArg. destruct (String.eqb_spec arg "") as [-> | Hne].
  - split; [discriminate | intros [H _]; congruence].
  - unfold test, re_special. rewrite test_class.
    destruct (existsb _ (list_ascii_of_string arg)) eqn:Hspecial.
    + split.
      * intros Heq. exfalso.
        apply (f_equal (fun x => length (list_ascii_of_string x))) in Heq.
        unfold re_single_quote in Heq.
        rewrite replace_literal, !list_of_string_append,
          list_ascii_of_string_of_list_ascii, !length_app in Heq.
        pose proof (replaced_length quoted_single_quote (list_ascii_of_string arg)) as Hlen.
        cbn [list_ascii_of_string length] in Heq.
        assert (quoted_single_quote <> EmptyString) by discriminate. specialize (Hlen H).
        lia.
      * intros [_ Hall]. exfalso.
        apply existsb_exists in Hspecial as [c [Hc Hclass]].
        rewrite forallb_forall in Hall. specialize (Hall c Hc).
        revert Hall Hclass. clear.
        destruct c as [[] [] [] [] [] [] [] []]; vm_compute; congruence.
    + split; [| reflexivity]. intros _. split; [exact Hne |].
      apply forallb_forall. intros c Hc.
      assert (Hclass : in_class true
                         [CRange "A" "Z"; CRange "a" "z"; CRange "0" "9"; CChar "_";
                          CChar "."; CChar ","; CChar "@"; CChar ":"; CChar "/";
                          CChar "-"] c = false).
      { destruct (in_class true _ c) eqn:H; [| reflexivity].
        assert (Hex : existsb (in_class true
                         [CRange "A" "Z"; CRange "a" "z"; CRange "0" "9"; CChar "_";
                          CChar "."; CChar ","; CChar "@"; CChar ":"; CChar "/";
                          CChar "-"]) (list_ascii_of_string arg) = true)
          by (apply existsb_exists; eauto).
        congruence. }
      revert Hclass. clear.
      destruct c as [[] [] [] [] [] [] [] []]; vm_compute; congruence.
Qed.

End ShellQuoting.

(** ** Option schemas *)

Section OptionSchemas.
Import Errors Options SpecOptions.
Local Open Scope list_scope.

Lemma existsb_eqb_In (x : string) (l : list string) :
  existsb (String.eqb x) l = true <-> In x l.
Proof.
  rewrite existsb_exists. split.
  - intros [y [Hy Heq]]. apply String.eqb_eq in Heq. congruence.
  - intros H. exists x. split; [exact H | apply String.eqb_refl].
Qed.

Lemma check_entries_outcome (entries : schema) (options : list (string * jsvalue)) :
  check_entries entries options = Ok true
  \/ exists err, check_entries entries options = Throw err
                 /\ instanceof_ValidationError err = true.
Proof.
  induction entries as [| [key r] entries IH]; [left; reflexivity |].
  cbn [check_entries].
  destruct (get options key) as [| b | s | text], (type r) eqn:Htype,
    (enum r) as [allowed |], (required r);
    try exact IH; try (right; eexists; split; reflexivity).
  all: destruct (existsb (String.eqb s) allowed); cbn [negb];
    [exact IH | right; eexists; split; reflexivity].
Qed.

Lemma check_entries_accepts (entries : schema) (options : list (string * jsvalue)) :
  check_entries entries options = Ok true
  <-> forall key r, In (key, r) entries -> conforms r (get options key).
Proof.
  induction entries as [| [key r] entries IH].
  - split; [intros _ key r [] | reflexivity].
  - cbn [check_entries]. split.
    + intros H k r' [Heq | Hin].
      * injection Heq as <- <-. unfold conforms.
        destruct (get options key) as [| b | s | text], (type r) eqn:Htype,
          (enum r) as [allowed |] eqn:Henum, (required r) eqn:Hreq;
          try discriminate H; try tauto; try (split; [reflexivity | exact I]).
        all: destruct (existsb (String.eqb s) allowed) eqn:Hallowed;
          cbn [negb] in H; [| discriminate H].
        all: split; [reflexivity | apply existsb_eqb_In; exact Hallowed].
      * revert k r' Hin. apply IH.
        destruct (get options key) as [| b | s | text], (type r),
          (enum r) as [allowed |], (required r);
          try discriminate H; try exact H.
        all: destruct (existsb (String.eqb s) allowed); cbn [negb] in H;
          [exact H | discriminate H].
    + intros H. pose proof (H key r (or_introl eq_refl)) as Hkey.
      assert (Hrest : check_entries entries options = Ok true)
        by (apply IH; intros k r' Hin; apply H; right; exact Hin).
      unfold conforms in Hkey.
      destruct (get options key) as [| b | s | text].
      * rewrite Hkey. exact Hrest.
      * destruct Hkey as [-> ->]. exact Hrest.
      * destruct Hkey as [-> Hallowed]. destruct (enum r) as [allowed |]; [| exact Hrest].
        apply existsb_eqb_In in Hallowed. rewrite Hallowed. exact Hrest.
      * destruct Hkey.
Qed.

Lemma no_unknown_keys (validKeys providedKeys : list string) :
  (0 <? length (List.filter (fun key => negb (existsb (String.eqb key) validKeys))
                  providedKeys))%nat = false
  <-> forall key, In key providedKeys -> In key validKeys.
Proof.
  induction providedKeys as [| k l IH].
  - split; [intros _ key [] | reflexivity].
  - cbn [List.filter]. destruct (existsb (String.eqb k) validKeys) eqn:Hk; cbn [negb].
    + rewrite IH. apply existsb_eqb_In in Hk. split.
      * intros H key [<- | Hin]; [exact Hk | exact (H key Hin)].
      * intros H key Hin. apply H. right. exact Hin.
    + split; [discriminate |]. intros H. exfalso.
      assert (Hin : In k validKeys) by (apply H; left; reflexivity).
      apply existsb_eqb_In in Hin. congruence.
Qed.

(** [validateOptions] returns [true] exactly when the command has a
    schema, every key of the options is a key of the schema, and every
    value is absent or of the type, and among the values, that the schema
    asks for.  It never returns anything else: every other call throws a
    [ValidationError]. *)
Theorem validateOptions_accepts_iff (command : string) (options : list (string * jsvalue)) :
  (validateOptions command options = Ok true
   <-> exists s, lookup_schema command = Some s /\ acceptable s options)
  /\ (validateOptions command options = Ok true
      \/ exists err, validateOptions command options = Throw err
                     /\ instanceof_ValidationError err = true).
Proof.
  unfold validateOptions, acceptable.
  destruct (lookup_schema command) as [s |].
  2: { split; [| right; eexists; split; reflexivity].
       split; [discriminate | intros [s [H _]]; discriminate H]. }
  destruct (0 <? length (List.filter _ (map fst options)))%nat eqn:Hunknown.
  - split; [| right; eexists; split; reflexivity].
    split; [discriminate |]. intros [s' [Hs' [Hkeys _]]]. injection Hs' as <-.
    apply (proj2 (no_unknown_keys _ _)) in Hkeys. congruence.
  - split; [| apply check_entries_outcome].
    rewrite check_entries_accepts.
    pose proof (proj1 (no_unknown_keys _ _) Hunknown) as Hknown. split.
    + intros H. exists s. auto.
    + intros [s' [Hs' [_ H]]]. injection Hs' as <-. exact H.
Qed.

(** For the options that [initCommand] is modelled with, whose values have
    the types of the schema, the check comes down to the one of [cli]
    against the two CLI types. *)
Theorem validateOptions_init (o : Init.options) :
  validateOptions "init" (object_of o) = Init.validateOptions o.
Proof.
  unfold validateOptions, Init.validateOptions, object_of.
  change (lookup_schema "init") with (assoc "init" OPTION_SCHEMAS).
  cbn [assoc OPTION_SCHEMAS String.eqb Ascii.eqb Bool.eqb map fst List.filter existsb negb orb
         length Nat.ltb Nat.leb].
  destruct (Init.cli o) as [c |], (Init.baseDir o) as [b |], (Init.path o) as [p |];
    cbn; try reflexivity;
    destruct (String.eqb c "claude"); try reflexivity;
    destruct (String.eqb c "gemini"); reflexivity.
Qed.

End OptionSchemas.

(** ** CLI types *)

Section CliTypes.
Import Errors CliDetector.
Local Open Scope list_scope.

Lemma validateCLIType_cases (cliType : string) :
  (validateCLIType cliType = Ok cliType /\ (cliType = "claude" \/ cliType = "gemini"))
  \/ (cliType <> "claude" /\ cliType <> "gemini"
      /\ exists err, validateCLIType cliType = Throw err
                     /\ instanceof_ValidationError err = true).
Proof.
  unfold validateCLIType.
  destruct (String.eqb_spec cliType "") as [-> | Hne].
  - right. repeat split; try discriminate. eexists. split; reflexivity.
  - cbn [existsb VALID_CLI_TYPES].
    destruct (String.eqb_spec cliType "claude") as [-> | H1]; [left; auto |].
    destruct (String.eqb_spec cliType "gemini") as [-> | H2]; [left; auto |].
    right. repeat split; try assumption. eexists. split; reflexivity.
Qed.

(** [getTargetFilename] knows two CLI types: it answers [CLAUDE.md] for
    [claude] and [GEMINI.md] for [gemini], and throws a plain [Error] with
    the message [Invalid CLI type: ...] for every other text, the empty one
    included.  It is the function that [initCommand] is modelled with. *)
Theorem getTargetFilename_cases (cliType : string) :
  getTargetFilename cliType
  = (if String.eqb cliType "claude" then Ok "CLAUDE.md"
     else if String.eqb cliType "gemini" then Ok "GEMINI.md"
     else Throw (NativeError ("Invalid CLI type: " ++ cliType)%string None))
  /\ getTargetFilename cliType = Init.getTargetFilename cliType.
Proof.
  assert (H : getTargetFilename cliType
              = (if String.eqb cliType "claude" then Ok "CLAUDE.md"
                 else if String.eqb cliType "gemini" then Ok "GEMINI.md"
                 else Throw (NativeError ("Invalid CLI type: " ++ cliType)%string None))).
  { unfold getTargetFilename.
    destruct (validateCLIType_cases cliType)
      as [[-> [-> | ->]] | (H1 & H2 & err & -> & ->)]; try reflexivity.
    apply String.eqb_neq in H1, H2. rewrite H1, H2. reflexivity. }
  split; [exact H | rewrite H; reflexivity].
Qed.

(** [determineCLI] never throws, and what it answers is no CLI at all or
    one of the two CLI types: [getTargetFilename] has a file name for it.  A
    valid [cli] option is answered as it is, whatever is installed. *)
Theorem determineCLI_answers_known_type
  (o : options) (a : available) (stdin : option string) :
  exists answer,
    determineCLI o a stdin = Ok answer
    /\ (forall cliType, answer = Some cliType ->
          (cliType = "claude" /\ getTargetFilename cliType = Ok "CLAUDE.md")
          \/ (cliType = "gemini" /\ getTargetFilename cliType = Ok "GEMINI.md"))
    /\ (forall c, cli o = Some c -> c = "claude" \/ c = "gemini" -> answer = Some c).
Proof.
  assert (Hknown : forall cliType, cliType = "claude" \/ cliType = "gemini" ->
            (cliType = "claude" /\ getTargetFilename cliType = Ok "CLAUDE.md")
            \/ (cliType = "gemini" /\ getTargetFilename cliType = Ok "GEMINI.md")).
  { intros cliType [-> | ->]; [left | right]; split; reflexivity. }
  assert (Hdetect : exists answer,
             (if claude_flag o then Ok (Some CLI_CLAUDE)
              else if gemini_flag o then Ok (Some CLI_GEMINI)
              else if negb (claude a) && negb (gemini a) then Ok None
              else if claude a && negb (gemini a) then Ok (Some CLI_CLAUDE)
              else if gemini a && negb (claude a) then Ok (Some CLI_GEMINI)
              else match promptForCLIAsync a stdin with
                   | Ok selected => Ok (Some selected)
                   | Throw err => Throw err
                   end) = Ok answer
             /\ forall cliType, answer = Some cliType ->
                                cliType = "claude" \/ cliType = "gemini").
  { destruct (claude_flag o); [eexists; split; [reflexivity | intros c [= <-]; auto] |].
    destruct (gemini_flag o); [eexists; split; [reflexivity | intros c [= <-]; auto] |].
    unfold promptForCLIAsync.
    destruct (claude a), (gemini a); cbn [negb andb app];
      try (eexists; split;
           [reflexivity | intros c H; first [discriminate H | injection H as <-; auto]]).
    destruct stdin as [answer |]; cbn [find fst snd].
    - destruct (String.eqb "1" (Str.trim answer));
        [eexists; split; [reflexivity | intros c [= <-]; auto] |].
      destruct (String.eqb "2" (Str.trim answer));
        eexists; (split; [reflexivity | intros c [= <-]; auto]).
    - eexists; split; [reflexivity | intros c [= <-]; auto]. }
  unfold determineCLI. destruct (cli o) as [c |] eqn:Hcli.
  - destruct (String.eqb_spec c "") as [-> | Hne].
    + destruct Hdetect as [answer [-> Hanswer]]. exists answer.
      split; [reflexivity |]. split; [intros t Ht; exact (Hknown t (Hanswer t Ht)) |].
      intros c' [= <-] [H | H]; discriminate H.
    + destruct (validateCLIType_cases c) as [[-> Hc] | (H1 & H2 & err & -> & _)].
      * exists (Some c). split; [reflexivity |]. split.
        -- intros t [= <-]. exact (Hknown c Hc).
        -- intros c' [= <-] _. reflexivity.
      * exists None. split; [reflexivity |]. split; [discriminate |].
        intros c' [= <-] [H | H]; contradiction.
  - destruct Hdetect as [answer [-> Hanswer]]. exists answer.
    split; [reflexivity |]. split; [intros t Ht; exact (Hknown t (Hanswer t Ht)) |].
    discriminate.
Qed.

End CliTypes.

(** ** Creating directories *)

Section CreateDirectory.
Import Errors Fs FileSecurity Directories SpecFs.
Local Open Scope list_scope.

Lemma mkdir_ok (p : string) (mode : N) (s s' : fs) (t : list fs) :
  mkdir p mode s = (t, s', Ok tt) -> exists m, s' !! p = Some (Dir m).
Proof.
  unfold mkdir. rewrite (bind_pure get _ s s eq_refl).
  destruct (s !! p) as [[c m | m] |] eqn:Hp.
  - discriminate.
  - intros H. injection H as _ <-. eauto.
  - intros H. apply bind_inv in H
      as [(t1 & s1 & [] & t2 & _ & Hup & _) | (err & _ & Habs)]; [| discriminate].
    injection Hup as _ <-. exists mode. apply lookup_insert_eq.
Qed.

Lemma mkdirs_ok (ps : list string) (mode : N) :
  forall (s s' : fs) (t : list fs),
    mkdirs ps mode s = (t, s', Ok tt) ->
    forall p, In p ps -> exists m, s' !! p = Some (Dir m).
Proof.
  induction ps as [| q ps IH]; intros s s' t H p Hp; [destruct Hp |].
  cbn [mkdirs] in H. apply bind_inv in H
    as [(t1 & s1 & [] & t2 & Hq & Hrest & _) | (err & _ & Habs)]; [| discriminate].
  destruct Hp as [<- | Hp]; [| exact (IH _ _ _ Hrest p Hp)].
  destruct (mkdir_ok _ _ _ _ _ Hq) as [m Hm].
  destruct (proj2 (mkdirs_states _ _ _ _ _ _ Hrest s' (or_introl eq_refl)) q)
    as [Heq | [Hnone _]]; [| congruence].
  exists m. congruence.
Qed.

Lemma ancestors_self (fuel : nat) (dir : string) : In dir (ancestors fuel dir).
Proof.
  destruct fuel as [| fuel]; cbn [ancestors]; [left; reflexivity |].
  destruct (String.eqb (Path.dirname dir) dir); [left; reflexivity |].
  apply in_or_app. right. left. reflexivity.
Qed.

(** [secureCreateDir] creates directories and nothing else: however it
    ends, no file was created, changed or removed and no directory was
    changed or removed.  When it returns, the path was accepted by
    [validateSafePath] and there is a directory at the resolved path. *)
Theorem secureCreateDir_creates_directories_only
  (e : env) (dirPath : string) (mode : N) (s s' : fs) (trace : list fs)
  (r : result unit) :
  secureCreateDir e dirPath mode s = (trace, s', r) ->
  only_dirs_added s s'
  /\ (r = Ok tt ->
      exists safePath m,
        Validation.validateSafePath (cwd e) dirPath (cwd e) = Ok safePath
        /\ s' !! safePath = Some (Dir m)).
Proof.
  unfold secureCreateDir. intros Hrun.
  destruct (Validation.validateSafePath (cwd e) dirPath (cwd e)) as [safePath | err].
  2: { injection Hrun as _ <- <-. split; [apply only_dirs_added_refl | discriminate]. }
  rewrite (bind_pure _ _ s safePath eq_refl) in Hrun. cbv zeta in Hrun.
  rewrite (bind_pure _ _ s _ (pathExists_pure _ s)) in Hrun.
  assert (Hcheck : exists r0,
            ((if bool_decide (is_Some (s !! Path.dirname safePath)) then
                writable ← checkPermissions (Path.dirname safePath) W_OK;
                if negb writable
                then throw (PermissionError "create directory in" (Path.dirname safePath))
                else ret tt
              else ret tt) : io unit) s = ([], s, r0)).
  { destruct (bool_decide _); [| eexists; reflexivity].
    rewrite (bind_pure _ _ s _ (checkPermissions_pure _ W_OK s)).
    destruct (access s (Path.dirname safePath) W_OK); eexists; reflexivity. }
  destruct Hcheck as [[[] | err] Hcheck].
  - rewrite (bind_pure _ _ s tt Hcheck) in Hrun.
    split; [exact (ensureDir_states _ _ _ _ _ _ Hrun) |].
    intros ->. unfold ensureDir in Hrun.
    destruct (mkdirs_ok _ _ _ _ _ Hrun safePath (ancestors_self _ _)) as [m Hm].
    exists safePath, m. auto.
  - rewrite (bind_throw _ _ _ _ _ _ Hcheck) in Hrun. injection Hrun as _ <- <-.
    split; [apply only_dirs_added_refl | discriminate].
Qed.

End CreateDirectory.

(** ** Error texts *)

Section ErrorTexts.
Import Errors Spec.
Local Open Scope list_scope.

Lemma take_segment_no_slash (l : list ascii) : ~ In "/"%char (Path.take_segment l).
Proof.
  induction l as [| c l IH]; [intros [] |].
  destruct (Ascii.eqb_spec c "/") as [-> | Hne]; [intros [] |].
  destruct c as [[] [] [] [] [] [] [] []]; cbn [Path.take_segment];
    try (intros [H | H]; [congruence | exact (IH H)]).
  congruence.
Qed.

Lemma occurs_In (c : ascii) (s : string) : occurs c s -> In c (list_ascii_of_string s).
Proof.
  intros [a [b ->]]. induction a as [| d a IH].
  - left. reflexivity.
  - rewrite append_cons. right. exact IH.
Qed.

Lemma basename_no_slash (p : string) : Str.includes (Path.basename p) "/" = false.
Proof.
  apply not_true_is_false. intros H.
  apply (includes_char (Path.basename p) "/") in H. apply occurs_In in H.
  unfold Path.basename in H. rewrite list_ascii_of_string_of_list_ascii in H.
  apply in_rev in H. exact (take_segment_no_slash _ H).
Qed.

(** A [PermissionError] names the file, not where it is: after the
    operation, its message shows the last segment of the path, or [file]
    when there is no path, and that text holds no slash. *)
Theorem PermissionError_shows_last_segment (operation filePath : string) :
  exists shown,
    message (PermissionError operation filePath)
    = ("Permission denied: Cannot " ++ operation ++ " " ++ shown)%string
    /\ shown = (if String.eqb filePath "" then "file" else Path.basename filePath)
    /\ Str.includes shown "/" = false.
Proof.
  unfold PermissionError. destruct (String.eqb filePath "").
  - exists "file". repeat split.
  - exists (Path.basename filePath). split; [reflexivity |].
    split; [reflexivity | apply basename_no_slash].
Qed.

End ErrorTexts.

(** ** Runs on example file systems *)

Section Witnesses.
Import Errors Fs FileSecurity Wrapper Init Directories Examples.
Import SpecFs SpecWrapper SpecContext SpecInit.
Local Open Scope list_scope.


Lemma secureReadFile_missing_file_witness :
  secureReadFile process "absent.txt" default_maxSize files
  = ([], files, Throw (PermissionError "read" "absent.txt")).
Proof.
  apply (secureReadFile_missing_file process "absent.txt" "/w/absent.txt").
  - vm_compute. reflexivity.
  - vm_compute. reflexivity.
Defined.


Lemma secureCopyFile_copies_content_witness :
  file_content
    (snd (fst (secureCopyFile process "notes.txt" "backup/notes.txt" false files)))
    "/w/backup/notes.txt"
  = Some "remember".
Proof.
  destruct (secureCopyFile process "notes.txt" "backup/notes.txt" false files)
    as [[trace s'] r] eqn:Hrun.
  assert (Hr : r = Ok tt).
  { change r with (snd (trace, s', r)). rewrite <- Hrun. vm_compute. reflexivity. }
  subst r. cbn [fst snd].
  apply (secureCopyFile_copies_content process "notes.txt" "backup/notes.txt"
           "/w/notes.txt" "/w/backup/notes.txt" "remember" 420 false files s' trace).
  - vm_compute. reflexivity.
  - vm_compute. reflexivity.
  - discriminate.
  - vm_compute. reflexivity.
  - exact Hrun.
Defined.

Lemma secureWriteFile_frame_witness :
  snd (fst (secureWriteFile process "notes.txt" "new text" default_mode files))
    !! "/w/locked.txt"
  = Some (File "keep" 292%N).
Proof.
  destruct (secureWriteFile process "notes.txt" "new text" default_mode files)
    as [[trace s'] r] eqn:Hrun.
  cbn [fst snd].
  destruct (secureWriteFile_frame process "notes.txt" "new text" "/w/notes.txt"
              default_mode files s' trace r) with (q := "/w/locked.txt")
    as [Heq | [Hnone _]].
  - vm_compute. reflexivity.
  - exact Hrun.
  - discriminate.
  - vm_compute. discriminate.
  - rewrite Heq. vm_compute. reflexivity.
  - vm_compute in Hnone. discriminate Hnone.
Defined.

Lemma secureWriteFile_read_only_target_witness :
  exists trace s' err,
    secureWriteFile process "locked.txt" "overwritten" default_mode files
    = (trace, s', Throw err)
    /\ only_dirs_added files s'
    /\ s' !! "/w/locked.txt" = files !! "/w/locked.txt".
Proof.
  apply (secureWriteFile_read_only_target process "locked.txt" "overwritten"
           "/w/locked.txt" default_mode files).
  - vm_compute. reflexivity.
  - eexists. vm_compute. reflexivity.
  - vm_compute. reflexivity.
Defined.

Lemma secureCreateDir_creates_directories_only_witness :
  exists m,
    snd (fst (secureCreateDir process "logs/2024" default_dir_mode files))
      !! "/w/logs/2024"
    = Some (Dir m).
Proof.
  destruct (secureCreateDir process "logs/2024" default_dir_mode files)
    as [[trace s'] r] eqn:Hrun.
  assert (Hr : r = Ok tt).
  { change r with (snd (trace, s', r)). rewrite <- Hrun. vm_compute. reflexivity. }
  cbn [fst snd].
  destruct (proj2 (secureCreateDir_creates_directories_only process "logs/2024"
                     default_dir_mode files s' trace r Hrun) Hr)
    as (safePath & m & Hval & Hdir).
  vm_compute in Hval. injection Hval as <-. exists m. exact Hdir.
Defined.

End Witnesses.

Section RunWitnesses.
Import Errors Fs FileSecurity Wrapper Init Examples InitExample.
Import SpecFs SpecWrapper SpecContext SpecInit.
Local Open Scope list_scope.

Lemma wrapper_never_restores_context_file_witness :
  marker_only !! "/w/CLAUDE.md" = None
  /\ runClaudeWithGuardian process "/pkg/src/wrapper" ["--print"; "hello"] ∅
       (ChildExit (Some 0%Z)) marker_only
     = ([], marker_only, Ok exit_before_spawn).
Proof.
  split; [reflexivity |].
  apply wrapper_never_restores_context_file.
  - vm_compute. reflexivity.
  - vm_compute. reflexivity.
Defined.

Lemma wrapper_passes_through_when_unsupervised_witness :
  runClaudeWithGuardian process "/pkg/src/wrapper" ["--print"; "a>b"] ∅
    (ChildExit (Some 3%Z)) files
  = ([], files,
     Ok {| spawned := Some {| file := "claude-original"; args := ["--print"; "a>b"];
                              env_option := None; shell := false |};
           exit_code := 3 |}).
Proof.
  apply (wrapper_passes_through_when_unsupervised process "/pkg/src/wrapper"
           "/w/.proguardian" "/w/CLAUDE.md").
  - vm_compute. reflexivity.
  - vm_compute. reflexivity.
  - vm_compute. reflexivity.
  - vm_compute. reflexivity.
Defined.

Lemma validateSafePath_again_witness :
  Validation.validateSafePath "/w" "/w/docs/guide.md" "/w" = Ok "/w/docs/guide.md".
Proof.
  apply (validateSafePath_again "/w" "docs/guide.md" "/w" "/w/docs/guide.md").
  - reflexivity.
  - vm_compute. reflexivity.
Defined.

Lemma init_without_force_only_enhances_witness :
  (fst (fst (initCommand environment "/pkg/src/commands" "2024-05-01T10:00:00.000Z"
               plain claude project)) = []
   /\ snd (fst (initCommand environment "/pkg/src/commands" "2024-05-01T10:00:00.000Z"
                  plain claude project)) = project)
  \/ exists cliType targetFilename targetPath existingContent,
       plan environment plain claude = Some (cliType, targetFilename, targetPath)
       /\ secureReadFile environment targetPath context_limit project
          = ([], project, Ok existingContent)
       /\ Str.includes existingContent guardianMarker = false.
Proof.
  destruct (initCommand environment "/pkg/src/commands" "2024-05-01T10:00:00.000Z"
              plain claude project) as [[trace s'] r] eqn:Hrun.
  cbn [fst snd].
  exact (init_without_force_only_enhances environment "/pkg/src/commands"
           "2024-05-01T10:00:00.000Z" plain claude project s' trace r eq_refl Hrun).
Defined.

End RunWitnesses.

Section InitWitnesses.
Import Errors Fs FileSecurity Wrapper Init Examples InitExample.
Import SpecFs SpecWrapper SpecContext SpecInit.
Local Open Scope list_scope.

Lemma example_paths_distinct (o : options) :
  baseDir o = None ->
  forall markerPath,
    marker environment o = Some markerPath ->
    "/w/CLAUDE.md" <> markerPath /\ "/w/CLAUDE.md" <> tmpPath_of environment markerPath.
Proof.
  intros Hbase markerPath H. unfold marker in H. rewrite Hbase in H.
  vm_compute in H. injection H as <-. split; vm_compute; discriminate.
Qed.


Lemma init_creates_guardian_only_file_witness :
  exists template,
    file_content project (template_path environment "/pkg/src/commands" "CLAUDE.md")
    = Some template
    /\ file_content (snd (fst run)) "/w/CLAUDE.md"
       = Some (guardianMarker ++ nl ++ nl ++ template)%string.
Proof.
  unfold run.
  destruct (initCommand environment "/pkg/src/commands" "2024-05-01T10:00:00.000Z"
              forced claude project) as [[trace s'] r] eqn:Hrun.
  assert (Hr : r = Ok Returned).
  { change r with (snd (trace, s', r)). rewrite <- Hrun. vm_compute. reflexivity. }
  subst r. cbn [fst snd].
  apply (init_creates_guardian_only_file environment "/pkg/src/commands"
           "2024-05-01T10:00:00.000Z" "claude" "CLAUDE.md" "/w/CLAUDE.md"
           forced claude project s' trace).
  - reflexivity.
  - vm_compute. reflexivity.
  - apply example_paths_distinct. reflexivity.
  - vm_compute. reflexivity.
  - reflexivity.
  - exact Hrun.
Defined.

Lemma init_writes_marker_record_witness :
  exists markerPath text,
    marker environment forced = Some markerPath
    /\ file_content (snd (fst run)) markerPath = Some text
    /\ Json.parse text
       = Some (marker_record "2024-05-01T10:00:00.000Z" "claude" "CLAUDE.md").
Proof.
  unfold run.
  destruct (initCommand environment "/pkg/src/commands" "2024-05-01T10:00:00.000Z"
              forced claude project) as [[trace s'] r] eqn:Hrun.
  assert (Hr : r = Ok Returned).
  { change r with (snd (trace, s', r)). rewrite <- Hrun. vm_compute. reflexivity. }
  assert (Ht : Nat.eqb (length trace) 0 = false).
  { change trace with (fst (fst (trace, s', r))). rewrite <- Hrun. vm_compute. reflexivity. }
  subst r. cbn [fst snd].
  apply (init_writes_marker_record environment "/pkg/src/commands"
           "2024-05-01T10:00:00.000Z" "claude" "CLAUDE.md" "/w/CLAUDE.md"
           forced claude project s' trace).
  - reflexivity.
  - vm_compute. reflexivity.
  - exact Hrun.
  - intros ->. discriminate Ht.
Defined.

Lemma init_again_changes_nothing_witness :
  fst (fst (initCommand environment "/pkg/src/commands" "2024-06-01T10:00:00.000Z"
              plain claude (snd (fst run)))) = []
  /\ snd (fst (initCommand environment "/pkg/src/commands" "2024-06-01T10:00:00.000Z"
                 plain claude (snd (fst run)))) = snd (fst run).
Proof.
  unfold run.
  destruct (initCommand environment "/pkg/src/commands" "2024-05-01T10:00:00.000Z"
              forced claude project) as [[trace s1] r] eqn:Hrun.
  assert (Hr : r = Ok Returned).
  { change r with (snd (trace, s1, r)). rewrite <- Hrun. vm_compute. reflexivity. }
  subst r. cbn [fst snd].
  destruct (initCommand environment "/pkg/src/commands" "2024-06-01T10:00:00.000Z"
              plain claude s1) as [[trace' s2] r'] eqn:Hrun'.
  cbn [fst snd].
  apply (init_again_changes_nothing environment "/pkg/src/commands"
           "2024-05-01T10:00:00.000Z" "2024-06-01T10:00:00.000Z" forced plain claude
           project s1 s2 trace trace' r').
  - reflexivity.
  - intros cliType targetFilename targetPath markerPath Hplan Hmarker.
    vm_compute in Hplan. injection Hplan as _ _ <-.
    exact (example_paths_distinct forced eq_refl markerPath Hmarker).
  - exact Hrun.
  - reflexivity.
  - vm_compute. reflexivity.
  - exact Hrun'.
Defined.

Lemma init_fails_under_special_directory_witness :
  fst (fst (initCommand special_directory_env "/pkg/src/commands"
              "2024-05-01T10:00:00.000Z" forced claude special_directory_fs)) = []
  /\ snd (fst (initCommand special_directory_env "/pkg/src/commands"
                 "2024-05-01T10:00:00.000Z" forced claude special_directory_fs))
     = special_directory_fs
  /\ snd (initCommand special_directory_env "/pkg/src/commands"
            "2024-05-01T10:00:00.000Z" forced claude special_directory_fs)
     = Ok (Exited 1).
Proof.
  destruct (initCommand special_directory_env "/pkg/src/commands"
              "2024-05-01T10:00:00.000Z" forced claude special_directory_fs)
    as [[trace s'] r] eqn:Hrun.
  cbn [fst snd].
  destruct (init_fails_under_special_directory special_directory_env
              "/pkg/src/commands" "2024-05-01T10:00:00.000Z" "&" forced claude
              special_directory_fs s' trace r) as (Ht & Hs & Hr).
  - reflexivity.
  - vm_compute. reflexivity.
  - unfold Validation.suspicious. simpl. tauto.
  - vm_compute. reflexivity.
  - reflexivity.
  - exact Hrun.
  - split; [exact Ht |]. split; [exact Hs |]. apply Hr; [reflexivity |].
    vm_compute. discriminate.
Defined.

End InitWitnesses.
